(** * Fixed-point arithmetic of [src/fixed-point.ts]: number and BigInt backings

    A shallow embedding of [createFixedPoint] and of the helpers it closes
    over ([isqrt], [floorDiv], [parseFixedPointString], [wrapBigInt],
    [wrapNumber], [scaleQ16]), followed by the properties of the two
    operation sets it returns.

    Conventions.
    - A JavaScript [bigint] is a [Z]; [/] is [Z.quot], [%] is [Z.rem],
      [>>] is [Z.shiftr], [<<] is [Z.shiftl], [&] is [Z.land].
    - A JavaScript [number] is an IEEE-754 double, see [number] below; the
      two zeros are identified (they are numerically equal and every use in
      the source treats them alike).
    - A call that can throw returns a [result]; [sinLut[i]] out of bounds is
      the value [undefined], modelled by [None].
    - A JavaScript [string] is a sequence of code units below 256.
    - The [while] loop of [isqrt] is run with an explicit iteration budget;
      its termination is a theorem, not an assumption.
    - The memoisation of the scaled tables (write-once caches keyed by the
      format) does not change any returned value and is not modelled.
    - Integers are unbounded: the limit an engine puts on the size of a
      BigInt is not modelled, so the formats of the model include those an
      engine would refuse to build for lack of room. *)

From Stdlib Require Import ZArith List String Ascii Bool Lia Znumtheory.
Import ListNotations.
Local Open Scope Z_scope.

(* ================================================================== *)
(** ** Thrown values *)

(** [new Error(msg)] thrown by the source, and the [RangeError] the engine
    raises for [BigInt(x)] on a non-integer and for a BigInt division or
    remainder by [0n]. *)
Inductive exn : Type :=
| Error (msg : string)
| RangeError.

Inductive result (A : Type) : Type :=
| Return (a : A)
| Throw (e : exn).
Arguments Return {A} a.
Arguments Throw {A} e.

Definition bind {A B : Type} (r : result A) (k : A -> result B) : result B :=
  match r with
  | Return a => k a
  | Throw e => Throw e
  end.

Declare Scope js_scope.
Delimit Scope js_scope with js.
Notation "x <- e ;; k" := (bind e (fun x => k))
  (at level 61, e at next level, right associativity) : js_scope.
Notation "e ;;; k" := (bind e (fun _ => k))
  (at level 61, right associativity) : js_scope.
Local Open Scope js_scope.

Definition returns {A : Type} (r : result A) : Prop :=
  exists a, r = Return a.

Definition throws {A : Type} (r : result A) : Prop :=
  exists e, r = Throw e.

(* ================================================================== *)
(** ** JavaScript numbers *)

(** A double is an integer, a proper dyadic fraction [m / 2^k] with [m] odd,
    an infinity or NaN.  The representation is canonical: two finite doubles
    are equal exactly when their constructors are. *)
Inductive number : Type :=
| NInt (z : Z)
| NFrac (m : Z) (k : positive)
| NInf (negative : bool)
| NaN.

Definition number_eq_dec (a b : number) : {a = b} + {a <> b}.
Proof.
  decide equality; auto using Z.eq_dec, Pos.eq_dec, Bool.bool_dec.
Defined.

Module JS.

(** [strip m k]: the canonical form of [m / 2^k], removing common factors
    of two ([fuel] bounds the number of halvings by [k]). *)
Fixpoint strip_aux (fuel : nat) (m : Z) (k : Z) : number :=
  match fuel with
  | O => NInt m
  | S f =>
      if k <=? 0 then NInt m
      else if Z.even m then strip_aux f (m / 2) (k - 1)
      else NFrac m (Z.to_pos k)
  end.

(** The finite value [m * 2^e] in canonical form (no rounding). *)
Definition dyadic (m e : Z) : number :=
  if 0 <=? e then NInt (m * 2 ^ e)
  else if m =? 0 then NInt 0
  else strip_aux (S (Z.to_nat (- e))) m (- e).

(** Mantissa and exponent of a finite double. *)
Definition to_dyadic (x : number) : option (Z * Z) :=
  match x with
  | NInt z => Some (z, 0)
  | NFrac m k => Some (m, - Z.pos k)
  | _ => None
  end.

(** Number of significant bits of a non-negative integer. *)
Definition bitlen (a : Z) : Z := if a =? 0 then 0 else Z.log2 a + 1.

(** Round the exact value [m * 2^e] to the nearest double, ties to the even
    significand: 53 significant bits, least exponent [-1074], overflow to
    infinity from [2^1024 - 2^970] on. *)
Definition round_to_double (m e : Z) : number :=
  let a := Z.abs m in
  let E := Z.max (e + bitlen a - 53) (-1074) in
  if E <=? e then
    if 2 ^ 1024 <=? a * 2 ^ e then NInf (m <? 0) else dyadic m e
  else
    let sh := E - e in
    let q := Z.shiftr a sh in
    let r := a - Z.shiftl q sh in
    let half := 2 ^ (sh - 1) in
    let q' := if (half <? r) || ((half =? r) && Z.odd q) then q + 1 else q in
    if 0 <=? E then
      if 2 ^ 1024 <=? q' * 2 ^ E then NInf (m <? 0)
      else dyadic (Z.sgn m * q') E
    else dyadic (Z.sgn m * q') E.

(** [Number(b)] for a bigint [b]. *)
Definition Number (b : Z) : number := round_to_double b 0.

(** [BigInt(x)] for a number [x]: a [RangeError] unless [x] is an integer. *)
Definition BigInt (x : number) : result Z :=
  match x with
  | NInt z => Return z
  | _ => Throw RangeError
  end.

Definition isFinite (x : number) : bool :=
  match x with
  | NInt _ | NFrac _ _ => true
  | _ => false
  end.

Definition isInteger (x : number) : bool :=
  match x with
  | NInt _ => true
  | _ => false
  end.

(** Unary minus. *)
Definition neg (x : number) : number :=
  match x with
  | NInt z => NInt (- z)
  | NFrac m k => NFrac (- m) k
  | NInf s => NInf (negb s)
  | NaN => NaN
  end.

(** Both finite operands over the smaller of the two exponents. *)
Definition align (p q : Z * Z) : Z * Z * Z :=
  let '(m1, e1) := p in
  let '(m2, e2) := q in
  let e := Z.min e1 e2 in
  (m1 * 2 ^ (e1 - e), m2 * 2 ^ (e2 - e), e).

(** [x + y]. *)
Definition add (x y : number) : number :=
  match to_dyadic x, to_dyadic y with
  | Some p, Some q =>
      let '(a, b, e) := align p q in round_to_double (a + b) e
  | _, _ =>
      match x, y with
      | NaN, _ | _, NaN => NaN
      | NInf s, NInf t => if Bool.eqb s t then NInf s else NaN
      | NInf s, _ => NInf s
      | _, NInf t => NInf t
      | _, _ => NaN
      end
  end.

(** [x - y]. *)
Definition sub (x y : number) : number := add x (neg y).

(** Sign of a number that is not NaN: [true] when negative. *)
Definition is_neg (x : number) : bool :=
  match x with
  | NInt z => z <? 0
  | NFrac m _ => m <? 0
  | NInf s => s
  | NaN => false
  end.

Definition is_zero (x : number) : bool :=
  match x with
  | NInt 0 => true
  | _ => false
  end.

(** [x * y]. *)
Definition mul (x y : number) : number :=
  match to_dyadic x, to_dyadic y with
  | Some (m1, e1), Some (m2, e2) => round_to_double (m1 * m2) (e1 + e2)
  | _, _ =>
      match x, y with
      | NaN, _ | _, NaN => NaN
      | _, _ =>
          if is_zero x || is_zero y then NaN
          else NInf (xorb (is_neg x) (is_neg y))
      end
  end.

(** [2 ** n] for an integer exponent [n >= 0]. *)
Definition pow2 (n : Z) : number := round_to_double 1 n.

(** [x / 2 ** n], the only division the source performs on numbers
    ([a / ONE], [val / ONE]). *)
Definition div_pow2 (x : number) (n : Z) : number :=
  match x with
  | NInt z => round_to_double z (- n)
  | NFrac m k => round_to_double m (- Z.pos k - n)
  | other => other
  end.

(** [x % y]: the remainder is exact and takes the sign of [x]. *)
Definition rem (x y : number) : number :=
  match to_dyadic x, to_dyadic y with
  | Some p, Some q =>
      let '(a, b, e) := align p q in
      if b =? 0 then NaN else dyadic (Z.rem a b) e
  | Some _, None => match y with NInf _ => x | _ => NaN end
  | None, _ => NaN
  end.

(** Three-way comparison of two numbers, [None] when one of them is NaN. *)
Definition compare (x y : number) : option comparison :=
  match to_dyadic x, to_dyadic y with
  | Some p, Some q => let '(a, b, _) := align p q in Some (a ?= b)
  | _, _ =>
      match x, y with
      | NaN, _ | _, NaN => None
      | NInf s, NInf t =>
          Some (if Bool.eqb s t then Eq else if s then Lt else Gt)
      | NInf s, _ => Some (if s then Lt else Gt)
      | _, NInf t => Some (if t then Gt else Lt)
      | _, _ => None
      end
  end.

(** [x === y], [x !== y], [x < y], [x <= y], [x > y], [x >= y]. *)
Definition eqb (x y : number) : bool :=
  match compare x y with Some Eq => true | _ => false end.
Definition neqb (x y : number) : bool := negb (eqb x y).
Definition ltb (x y : number) : bool :=
  match compare x y with Some Lt => true | _ => false end.
Definition leb (x y : number) : bool :=
  match compare x y with Some Lt | Some Eq => true | _ => false end.
Definition gtb (x y : number) : bool := ltb y x.
Definition geb (x y : number) : bool := leb y x.

(** [Math.trunc(x)]. *)
Definition trunc (x : number) : number :=
  match x with
  | NFrac m k => NInt (Z.quot m (2 ^ Z.pos k))
  | other => other
  end.

(** [Math.round(x)]: the nearest integer, a tie going to the larger one. *)
Definition round (x : number) : number :=
  match x with
  | NFrac m k => NInt ((m + 2 ^ (Z.pos k - 1)) / 2 ^ Z.pos k)
  | other => other
  end.

(** [x | 0]: ToInt32, the value modulo [2^32] read as a signed word. *)
Definition toInt32 (x : number) : number :=
  match trunc x with
  | NInt z =>
      let w := z mod 2 ^ 32 in
      NInt (if 2 ^ 31 <=? w then w - 2 ^ 32 else w)
  | _ => NInt 0
  end.

(** The doubles among the values of [number]. *)
Definition is_double (x : number) : Prop :=
  match x with
  | NInt z => round_to_double z 0 = NInt z
  | NFrac m k => Z.odd m = true /\ Z.abs m < 2 ^ 53 /\ Z.pos k <= 1074
  | _ => True
  end.

End JS.


(* ================================================================== *)
(** ** BigInt division and the helpers of the module *)

(** [a / b] on bigints: truncates toward zero, [RangeError] on [b = 0n]. *)
Definition bigint_div (a b : Z) : result Z :=
  if b =? 0 then Throw RangeError else Return (Z.quot a b).

(** [a % b] on bigints: sign of the dividend, [RangeError] on [b = 0n]. *)
Definition bigint_rem (a b : Z) : result Z :=
  if b =? 0 then Throw RangeError else Return (Z.rem a b).

(** A computation that may still be running when its budget is spent. *)
Definition partial (A : Type) : Type := option (result A).

(** The [while (x1 < x0)] loop of [isqrt]; one unit of [fuel] per test of
    the loop condition. *)
Fixpoint isqrt_loop (fuel : nat) (n x0 x1 : Z) : partial Z :=
  match fuel with
  | O => None
  | S fuel' =>
      if x1 <? x0 then
        match bigint_div n x1 with
        | Return q => isqrt_loop fuel' n x1 (Z.shiftr (x1 + q) 1)
        | Throw e => Some (Throw e)
        end
      else Some (Return x0)
  end.

(** [isqrt(n)]: integer square root by Newton iteration. *)
Definition isqrt (fuel : nat) (n : Z) : partial Z :=
  if n <? 2 then Some (Return n)
  else
    match bigint_div n n with
    | Return q => isqrt_loop fuel n n (Z.shiftr (n + q) 1)
    | Throw e => Some (Throw e)
    end.

(** An iteration budget that always suffices for [isqrt n]. *)
Definition isqrt_fuel (n : Z) : nat := Z.to_nat (Z.log2 n) + 2.

(** [floorDiv(a, b)]. *)
Definition floorDiv (a b : Z) : result Z :=
  q <- bigint_div a b ;;
  r <- bigint_rem a b ;;
  if r =? 0 then Return q
  else Return (if a <? 0 then q - 1 else q).

(* ------------------------------------------------------------------ *)
(** *** Strings *)

(** White space removed by [trim]: the white space and line terminators
    of ECMAScript among the code units below 256, that is TAB, LF, VT, FF,
    CR, SP and NBSP (U+00A0).  A string is a sequence of 8-bit code units
    here; the white space from U+1680 on is not part of it. *)
Definition is_space (c : ascii) : bool :=
  match nat_of_ascii c with
  | 9%nat | 10%nat | 11%nat | 12%nat | 13%nat | 32%nat | 160%nat => true
  | _ => false
  end.

Fixpoint trimStart (s : list ascii) : list ascii :=
  match s with
  | c :: r => if is_space c then trimStart r else s
  | [] => []
  end.

Definition trim (s : string) : string :=
  string_of_list_ascii
    (rev (trimStart (rev (trimStart (list_ascii_of_string s))))).

(** [s.split(".")]. *)
Fixpoint split_dot (s : string) : list string :=
  match s with
  | EmptyString => [EmptyString]
  | String c r =>
      if Ascii.eqb c "."%char then EmptyString :: split_dot r
      else
        match split_dot r with
        | h :: t => String c h :: t
        | [] => [String c EmptyString]
        end
  end.

Definition is_digit (c : ascii) : bool :=
  let n := nat_of_ascii c in (48 <=? n)%nat && (n <=? 57)%nat.

(** [/^\d*$/.test(s)]. *)
Fixpoint all_digits (s : string) : bool :=
  match s with
  | EmptyString => true
  | String c r => is_digit c && all_digits r
  end.

(** [BigInt(s)] for a string of decimal digits. *)
Fixpoint digits_value (acc : Z) (s : string) : Z :=
  match s with
  | EmptyString => acc
  | String c r => digits_value (10 * acc + (Z.of_nat (nat_of_ascii c) - 48)) r
  end.

Definition is_empty (s : string) : bool :=
  match s with EmptyString => true | _ => false end.

(** [first === c], for [first = trimmed[0]]. *)
Definition char_is (first : option ascii) (c : ascii) : bool :=
  match first with
  | Some d => Ascii.eqb d c
  | None => false
  end.

(** [parseFixedPointString(value, fractionBits)].  The [typeof] test is
    discharged by the type of [value]. *)
Definition parseFixedPointString (value : string) (fractionBits : Z)
  : result Z :=
  let trimmed := trim value in
  if is_empty trimmed then Throw (Error "Fixed-point string is empty.")
  else
    let first := String.get 0 trimmed in
    let '(sign, start) :=
      if char_is first "+" then (1, 1%nat)
      else if char_is first "-" then (-1, 1%nat)
      else (1, 0%nat) in
    let rest := substring start (String.length trimmed - start) trimmed in
    let parts := split_dot rest in
    if (2 <? List.length parts)%nat then
      Throw (Error "Invalid fixed-point string.")
    else
      let intPartStr := nth 0 parts EmptyString in
      let fracPartStr := nth 1 parts EmptyString in
      if is_empty intPartStr && is_empty fracPartStr then
        Throw (Error "Invalid fixed-point string.")
      else if negb (all_digits intPartStr) || negb (all_digits fracPartStr)
      then Throw (Error "Invalid fixed-point string.")
      else
        let intPart := digits_value 0 intPartStr in
        let fracPart := digits_value 0 fracPartStr in
        let denom :=
          if is_empty fracPartStr then 1
          else 10 ^ Z.of_nat (String.length fracPartStr) in
        let scaledBase := Z.shiftl (intPart * denom + fracPart) fractionBits in
        let half := Z.quot denom 2 in
        let signedNumerator := sign * scaledBase in
        floorDiv (signedNumerator + half) denom.

(* ================================================================== *)
(** ** The operation set *)

(** [FixedPointConfig]: every field is optional. *)
Record FixedPointConfig : Type := {
  fractionBits : option number;
  totalBits : option number;
  useBigInt : option bool
}.

Module FP.

(** [FixedPointOps<T>], without the display-only [toFloat].  The format
    fields hold the validated bit counts.  [sin] and [cos] read an array and
    can yield [undefined]; [sqrt] takes the budget of [isqrt]. *)
Record FixedPointOps (T : Type) : Type := {
  SHIFT : Z;
  FRACTION_BITS : Z;
  TOTAL_BITS : Z;
  ONE : T;
  EPSILON : T;
  MAX : T;
  MIN : T;
  fromInt : number -> result T;
  fromFloat : number -> result T;
  fromString : string -> result T;
  toInt : T -> T;
  add : T -> T -> result T;
  sub : T -> T -> result T;
  negate : T -> result T;
  mul : T -> T -> result T;
  div : T -> T -> result T;
  mod_ : T -> T -> result T;
  abs : T -> result T;
  sin : T -> result (option T);
  cos : T -> result (option T);
  sqrt : nat -> T -> partial T;
  eq : T -> T -> result bool;
  neq : T -> T -> result bool;
  gt : T -> T -> result bool;
  gte : T -> T -> result bool;
  lt : T -> T -> result bool;
  lte : T -> T -> result bool
}.

End FP.

Arguments FP.SHIFT {T} _.
Arguments FP.FRACTION_BITS {T} _.
Arguments FP.TOTAL_BITS {T} _.
Arguments FP.ONE {T} _.
Arguments FP.EPSILON {T} _.
Arguments FP.MAX {T} _.
Arguments FP.MIN {T} _.
Arguments FP.fromInt {T} _ _.
Arguments FP.fromFloat {T} _ _.
Arguments FP.fromString {T} _ _.
Arguments FP.toInt {T} _ _.
Arguments FP.add {T} _ _ _.
Arguments FP.sub {T} _ _ _.
Arguments FP.negate {T} _ _.
Arguments FP.mul {T} _ _ _.
Arguments FP.div {T} _ _ _.
Arguments FP.mod_ {T} _ _ _.
Arguments FP.abs {T} _ _.
Arguments FP.sin {T} _ _.
Arguments FP.cos {T} _ _.
Arguments FP.sqrt {T} _ _ _.
Arguments FP.eq {T} _ _ _.
Arguments FP.neq {T} _ _ _.
Arguments FP.gt {T} _ _ _.
Arguments FP.gte {T} _ _ _.
Arguments FP.lt {T} _ _ _.
Arguments FP.lte {T} _ _ _.

Definition DEFAULT_FRACTION_BITS : Z := 16.
Definition DEFAULT_TOTAL_BITS : Z := 32.
Definition TWO_PI_Q16 : Z := 411775.
Definition PI_HALF_Q16 : Z := 102944.

(** [xs[i]] for a number [i]: [undefined] unless [i] is an index of [xs]. *)
Definition array_get {A : Type} (xs : list A) (i : number) : option A :=
  match i with
  | NInt z => if z <? 0 then None else nth_error xs (Z.to_nat z)
  | _ => None
  end.

Fixpoint mapM {A B : Type} (f : A -> result B) (xs : list A)
  : result (list B) :=
  match xs with
  | [] => Return []
  | x :: r => y <- f x ;; ys <- mapM f r ;; Return (y :: ys)
  end.

(* ------------------------------------------------------------------ *)
(** *** Closures over the validated format *)

Section Format.

Variables fractionBits totalBits : Z.

(** [wrapBigInt(value)]. *)
Definition wrapBigInt (value : Z) : Z :=
  let bits := totalBits in
  let mask := Z.shiftl 1 bits - 1 in
  let signBit := Z.shiftl 1 (bits - 1) in
  let wrapped := Z.land value mask in
  if signBit <=? wrapped then wrapped - Z.shiftl 1 bits else wrapped.

(** [wrapNumber(value)]. *)
Definition wrapNumber (value : number) : result number :=
  if negb (JS.isFinite value) || negb (JS.isInteger value) then
    Throw (Error "Fixed-point values must be finite integers.")
  else if totalBits =? 32 then Return (JS.toInt32 value)
  else
    b <- JS.BigInt (JS.trunc value) ;;
    Return (JS.Number (wrapBigInt b)).

(** [scaleQ16(value)] when [useBigInt] holds. *)
Definition scaleQ16_bigint (value : number) : result Z :=
  let diff := fractionBits - DEFAULT_FRACTION_BITS in
  v <- JS.BigInt value ;;
  let v := if 0 <? diff then Z.shiftl v diff else v in
  let v := if diff <? 0 then Z.shiftr v (- diff) else v in
  Return (wrapBigInt v).

(** [scaleQ16(value)] when [useBigInt] does not hold. *)
Definition scaleQ16_number (value : number) : result number :=
  let diff := fractionBits - DEFAULT_FRACTION_BITS in
  v <- (if 0 <? diff then
          b <- JS.BigInt value ;; Return (JS.Number (Z.shiftl b diff))
        else Return value) ;;
  v <- (if diff <? 0 then
          b <- JS.BigInt value ;; Return (JS.Number (Z.shiftr b (- diff)))
        else Return v) ;;
  wrapNumber v.

(** [assertInteger(value, name)]. *)
Definition assertInteger (value : number) (name : string) : result unit :=
  if negb (JS.isFinite value) || negb (JS.isInteger value) then
    Throw (Error (name ++ " must be a finite integer fixed-point value."))
  else Return tt.

End Format.

Definition DIV_BY_ZERO : string := "Division by zero in fixed-point arithmetic".
Definition SQRT_NEGATIVE : string := "Sqrt of negative number".

(** Sequencing in [partial]. *)
Definition pbind {A B : Type} (p : partial A) (k : A -> partial B)
  : partial B :=
  match p with
  | Some (Return a) => k a
  | Some (Throw e) => Some (Throw e)
  | None => None
  end.

(* ------------------------------------------------------------------ *)
(** *** The BigInt branch of [createFixedPoint] *)

Module Big.
Section Ops.

Variables fractionBits totalBits : Z.
Variables (TWO_PI PI_HALF : Z) (sinLut : list Z) (LUT_SIZE : Z).

Local Abbreviation wrap := (wrapBigInt totalBits).

Definition ONE : Z := Z.shiftl 1 fractionBits.
Definition EPSILON : Z := 1.
Definition MAX : Z := Z.shiftl 1 (totalBits - 1) - 1.
Definition MIN : Z := - Z.shiftl 1 (totalBits - 1).

(** The local [idx] of [sin]: the table index before [% LUT_SIZE]. *)
Definition sin_index (theta : Z) : result Z :=
  t <- bigint_rem theta TWO_PI ;;
  let t := if t <? 0 then t + TWO_PI else t in
  bigint_div (t * LUT_SIZE) TWO_PI.

Definition sin (theta : Z) : result (option Z) :=
  idx <- sin_index theta ;;
  i <- bigint_rem idx LUT_SIZE ;;
  Return (array_get sinLut (JS.Number i)).

Definition cos (theta : Z) : result (option Z) :=
  sin (wrap (theta + PI_HALF)).

Definition fromInt (n : number) : result Z :=
  b <- JS.BigInt n ;; Return (wrap (Z.shiftl b fractionBits)).

Definition fromFloat (f : number) : result Z :=
  b <- JS.BigInt (JS.round (JS.mul f (JS.Number ONE))) ;; Return (wrap b).

Definition fromString (value : string) : result Z :=
  v <- parseFixedPointString value fractionBits ;; Return (wrap v).

(** [a / ONE]; [ONE] is a power of two and never [0n]. *)
Definition toInt (a : Z) : Z := Z.quot a ONE.

(** [Number(a) / Number(ONE)].  [Number(ONE)] is the power of two
    [2^fractionBits] while that is finite and [Infinity] from
    [fractionBits = 1024] on, where the quotient of a finite number is
    zero. *)
Definition toFloat (a : Z) : number :=
  let x := JS.Number a in
  if fractionBits <=? 1023 then JS.div_pow2 x fractionBits
  else match x with NInt _ | NFrac _ _ => NInt 0 | _ => NaN end.

Definition add (a b : Z) : result Z := Return (wrap (a + b)).
Definition sub (a b : Z) : result Z := Return (wrap (a - b)).
Definition negate (a : Z) : result Z := Return (wrap (- a)).

Definition mul (a b : Z) : result Z :=
  Return (wrap (Z.shiftr (a * b) fractionBits)).

Definition div (a b : Z) : result Z :=
  if b =? 0 then Throw (Error DIV_BY_ZERO)
  else q <- bigint_div (Z.shiftl a fractionBits) b ;; Return (wrap q).

Definition mod_ (a b : Z) : result Z :=
  if b =? 0 then Throw (Error DIV_BY_ZERO)
  else r <- bigint_rem a b ;; Return (wrap r).

Definition abs (a : Z) : result Z :=
  Return (if a <? 0 then wrap (- a) else a).

Definition sqrt (fuel : nat) (a : Z) : partial Z :=
  if a <? 0 then Some (Throw (Error SQRT_NEGATIVE))
  else
    let val := a * ONE in
    pbind (isqrt fuel val) (fun res => Some (Return (wrap res))).

Definition eq (a b : Z) : result bool := Return (a =? b).
Definition neq (a b : Z) : result bool := Return (negb (a =? b)).
Definition gt (a b : Z) : result bool := Return (a >? b).
Definition gte (a b : Z) : result bool := Return (a >=? b).
Definition lt (a b : Z) : result bool := Return (a <? b).
Definition lte (a b : Z) : result bool := Return (a <=? b).

Definition ops : FP.FixedPointOps Z := {|
  FP.SHIFT := fractionBits;
  FP.FRACTION_BITS := fractionBits;
  FP.TOTAL_BITS := totalBits;
  FP.ONE := ONE;
  FP.EPSILON := EPSILON;
  FP.MAX := MAX;
  FP.MIN := MIN;
  FP.fromInt := fromInt;
  FP.fromFloat := fromFloat;
  FP.fromString := fromString;
  FP.toInt := toInt;
  FP.add := add;
  FP.sub := sub;
  FP.negate := negate;
  FP.mul := mul;
  FP.div := div;
  FP.mod_ := mod_;
  FP.abs := abs;
  FP.sin := sin;
  FP.cos := cos;
  FP.sqrt := sqrt;
  FP.eq := eq;
  FP.neq := neq;
  FP.gt := gt;
  FP.gte := gte;
  FP.lt := lt;
  FP.lte := lte
|}.

End Ops.
End Big.

(* ------------------------------------------------------------------ *)
(** *** The number branch of [createFixedPoint] *)

Module Num.
Section Ops.

Variables fractionBits totalBits : Z.
Variables (TWO_PI PI_HALF : number) (sinLut : list number).
Variable LUT_SIZE : number.

Local Abbreviation wrap := (wrapNumber totalBits).

Definition ONE : number := JS.pow2 fractionBits.
Definition EPSILON : number := NInt 1.
Definition MAX : number := JS.sub (JS.pow2 (totalBits - 1)) (NInt 1).
Definition MIN : number := JS.neg (JS.pow2 (totalBits - 1)).

(** The local [idx] of [sin]: the table index before [% LUT_SIZE]. *)
Definition sin_index (theta : number) : result number :=
  assertInteger theta "theta" ;;;
  let t := JS.rem theta TWO_PI in
  let t := if JS.ltb t (NInt 0) then JS.add t TWO_PI else t in
  bt <- JS.BigInt t ;;
  bl <- JS.BigInt LUT_SIZE ;;
  bp <- JS.BigInt TWO_PI ;;
  q <- bigint_div (bt * bl) bp ;;
  Return (JS.Number q).

Definition sin (theta : number) : result (option number) :=
  idx <- sin_index theta ;;
  Return (array_get sinLut (JS.rem idx LUT_SIZE)).

Definition cos (theta : number) : result (option number) :=
  v <- wrap (JS.add theta PI_HALF) ;; sin v.

Definition fromInt (n : number) : result number :=
  assertInteger n "n" ;;; wrap (JS.mul n ONE).

Definition fromFloat (f : number) : result number :=
  wrap (JS.round (JS.mul f ONE)).

Definition fromString (value : string) : result number :=
  v <- parseFixedPointString value fractionBits ;; wrap (JS.Number v).

(** [Math.trunc(a / ONE)], with [ONE = 2 ** fractionBits]. *)
Definition toInt (a : number) : number :=
  JS.trunc (JS.div_pow2 a fractionBits).

(** [a / ONE], with [ONE = 2 ** fractionBits] as in [toInt]. *)
Definition toFloat (a : number) : number := JS.div_pow2 a fractionBits.

Definition add (a b : number) : result number :=
  assertInteger a "a" ;;; assertInteger b "b" ;;; wrap (JS.add a b).

Definition sub (a b : number) : result number :=
  assertInteger a "a" ;;; assertInteger b "b" ;;; wrap (JS.sub a b).

Definition negate (a : number) : result number :=
  assertInteger a "a" ;;; wrap (JS.neg a).

Definition mul (a b : number) : result number :=
  assertInteger a "a" ;;; assertInteger b "b" ;;;
  ba <- JS.BigInt a ;;
  bb <- JS.BigInt b ;;
  let res := Z.shiftr (ba * bb) fractionBits in
  wrap (JS.Number res).

Definition div (a b : number) : result number :=
  assertInteger a "a" ;;; assertInteger b "b" ;;;
  if JS.eqb b (NInt 0) then Throw (Error DIV_BY_ZERO)
  else
    ba <- JS.BigInt a ;;
    bb <- JS.BigInt b ;;
    res <- bigint_div (Z.shiftl ba fractionBits) bb ;;
    wrap (JS.Number res).

Definition mod_ (a b : number) : result number :=
  assertInteger a "a" ;;; assertInteger b "b" ;;;
  if JS.eqb b (NInt 0) then Throw (Error DIV_BY_ZERO)
  else
    ba <- JS.BigInt a ;;
    bb <- JS.BigInt b ;;
    res <- bigint_rem ba bb ;;
    wrap (JS.Number res).

Definition abs (a : number) : result number :=
  assertInteger a "a" ;;;
  if JS.ltb a (NInt 0) then wrap (JS.neg a) else Return a.

Definition sqrt (fuel : nat) (a : number) : partial number :=
  pbind (Some (assertInteger a "a")) (fun _ =>
  if JS.ltb a (NInt 0) then Some (Throw (Error SQRT_NEGATIVE))
  else
    pbind (Some (JS.BigInt a)) (fun ba =>
    pbind (Some (JS.BigInt ONE)) (fun bone =>
    let val := ba * bone in
    pbind (isqrt fuel val) (fun res =>
    Some (wrap (JS.Number res)))))).

Definition eq (a b : number) : result bool :=
  assertInteger a "a" ;;; assertInteger b "b" ;;; Return (JS.eqb a b).
Definition neq (a b : number) : result bool :=
  assertInteger a "a" ;;; assertInteger b "b" ;;; Return (JS.neqb a b).
Definition gt (a b : number) : result bool :=
  assertInteger a "a" ;;; assertInteger b "b" ;;; Return (JS.gtb a b).
Definition gte (a b : number) : result bool :=
  assertInteger a "a" ;;; assertInteger b "b" ;;; Return (JS.geb a b).
Definition lt (a b : number) : result bool :=
  assertInteger a "a" ;;; assertInteger b "b" ;;; Return (JS.ltb a b).
Definition lte (a b : number) : result bool :=
  assertInteger a "a" ;;; assertInteger b "b" ;;; Return (JS.leb a b).

Definition ops : FP.FixedPointOps number := {|
  FP.SHIFT := fractionBits;
  FP.FRACTION_BITS := fractionBits;
  FP.TOTAL_BITS := totalBits;
  FP.ONE := ONE;
  FP.EPSILON := EPSILON;
  FP.MAX := MAX;
  FP.MIN := MIN;
  FP.fromInt := fromInt;
  FP.fromFloat := fromFloat;
  FP.fromString := fromString;
  FP.toInt := toInt;
  FP.add := add;
  FP.sub := sub;
  FP.negate := negate;
  FP.mul := mul;
  FP.div := div;
  FP.mod_ := mod_;
  FP.abs := abs;
  FP.sin := sin;
  FP.cos := cos;
  FP.sqrt := sqrt;
  FP.eq := eq;
  FP.neq := neq;
  FP.gt := gt;
  FP.gte := gte;
  FP.lt := lt;
  FP.lte := lte
|}.

End Ops.
End Num.

(* ------------------------------------------------------------------ *)
(** *** [createFixedPoint] *)

(** [FixedPointOps<number> | FixedPointOps<bigint>]. *)
Inductive AnyOps : Type :=
| NumberOps (o : FP.FixedPointOps number)
| BigIntOps (o : FP.FixedPointOps Z).

Definition orElse {A : Type} (o : option A) (d : A) : A :=
  match o with Some a => a | None => d end.

(** [createFixedPoint(config)].  [SIN_LUT_Q16] is imported from
    [./sin-lut-q16], which is not part of the sources at hand: the table of
    Q16 sine samples is a parameter.  [F] and [T] are the integers the
    validated bit counts denote. *)
Definition createFixedPoint (SIN_LUT_Q16 : list Z) (config : FixedPointConfig)
  : result AnyOps :=
  let LUT_SIZE := Z.of_nat (List.length SIN_LUT_Q16) in
  let fractionBits := orElse config.(fractionBits) (NInt DEFAULT_FRACTION_BITS) in
  let totalBits := orElse config.(totalBits) (NInt DEFAULT_TOTAL_BITS) in
  if negb (JS.isInteger fractionBits) || negb (JS.isInteger totalBits) then
    Throw (Error "Fixed-point config must use integer bit sizes.")
  else if JS.leb fractionBits (NInt 0) then
    Throw (Error "fractionBits must be > 0.")
  else if JS.leb totalBits fractionBits then
    Throw (Error "totalBits must be greater than fractionBits.")
  else if match config.(useBigInt) with Some false => true | _ => false end
          && JS.gtb totalBits (NInt 32) then
    Throw (Error "useBigInt=false is not supported for totalBits > 32.")
  else
    let useBigInt :=
      orElse config.(useBigInt) (JS.gtb totalBits (NInt 32)) in
    F <- JS.BigInt fractionBits ;;
    T <- JS.BigInt totalBits ;;
    if useBigInt then
      TWO_PI <- scaleQ16_bigint F T (NInt TWO_PI_Q16) ;;
      PI_HALF <- scaleQ16_bigint F T (NInt PI_HALF_Q16) ;;
      sinLut <- mapM (scaleQ16_bigint F T) (map NInt SIN_LUT_Q16) ;;
      Return (BigIntOps (Big.ops F T TWO_PI PI_HALF sinLut LUT_SIZE))
    else
      TWO_PI <- scaleQ16_number F T (NInt TWO_PI_Q16) ;;
      PI_HALF <- scaleQ16_number F T (NInt PI_HALF_Q16) ;;
      sinLut <- mapM (scaleQ16_number F T) (map NInt SIN_LUT_Q16) ;;
      Return (NumberOps
                (Num.ops F T TWO_PI PI_HALF sinLut (NInt LUT_SIZE))).

(* ================================================================== *)
(** ** Vocabulary of the properties *)

(** The formats [createFixedPoint] accepts, and the representable range
    [[MIN, MAX]] of a [T]-bit format. *)
Definition valid_format (F T : Z) : Prop := 0 < F < T.

Definition in_range (T : Z) (v : Z) : Prop :=
  - 2 ^ (T - 1) <= v <= 2 ^ (T - 1) - 1.

(** The value [scaleQ16] computes on integers. *)
Definition scaled (F T v : Z) : Z :=
  let diff := F - DEFAULT_FRACTION_BITS in
  let v := if 0 <? diff then Z.shiftl v diff else v in
  let v := if diff <? 0 then Z.shiftr v (- diff) else v in
  wrapBigInt T v.

(** One step [x -> (x + n / x) >> 1] of the iteration of [isqrt]. *)
Definition newton (n x : Z) : Z := Z.shiftr (x + Z.quot n x) 1.

(** [add(MAX, EPSILON) = MIN] and [sub(MIN, EPSILON) = MAX]. *)
Definition wraps_around {A : Type} (o : FP.FixedPointOps A) : Prop :=
  FP.add o (FP.MAX o) (FP.EPSILON o) = Return (FP.MIN o) /\
  FP.sub o (FP.MIN o) (FP.EPSILON o) = Return (FP.MAX o).

(** [toInt(fromInt(n))], for [n] given as a number. *)
Definition roundtrip {A : Type} (o : FP.FixedPointOps A) (n : number)
  : result A :=
  v <- FP.fromInt o n ;; Return (FP.toInt o v).

(** The constants [TWO_PI] and [PI_HALF] that [createFixedPoint] scales for
    the format of an operation set (see [createFixedPoint_number] and
    [createFixedPoint_bigint]). *)
Definition TWO_PI_of {A : Type} (o : FP.FixedPointOps A) : Z :=
  scaled (FP.FRACTION_BITS o) (FP.TOTAL_BITS o) TWO_PI_Q16.

Definition PI_HALF_of {A : Type} (o : FP.FixedPointOps A) : Z :=
  scaled (FP.FRACTION_BITS o) (FP.TOTAL_BITS o) PI_HALF_Q16.

(** An array has fewer than [2^32] elements. *)
Definition array_sized {A : Type} (xs : list A) : Prop :=
  Z.of_nat (List.length xs) < 2 ^ 32.

(** *** The range invariant

    [inj] embeds the integers into the storage type of the backing ([NInt]
    for numbers, the identity for bigints); a stored value is in range when
    it is the image of an integer of [[MIN, MAX]]. *)
Section RangeInvariant.

Context {A : Type} (inj : Z -> A) (o : FP.FixedPointOps A).

Definition stored_in_range (v : A) : Prop :=
  exists z, v = inj z /\ in_range (FP.TOTAL_BITS o) z.

(** Every value-producing operation but [sin] and [cos]: constructors
    yield values of the range whenever they return, and on operands of the
    range the arithmetic returns a value of the range. *)
Definition range_closed : Prop :=
  let T := FP.TOTAL_BITS o in
  let F := FP.FRACTION_BITS o in
  (forall n v, FP.fromInt o n = Return v -> stored_in_range v) /\
  (forall f v, FP.fromFloat o f = Return v -> stored_in_range v) /\
  (forall s v, FP.fromString o s = Return v -> stored_in_range v) /\
  (forall a, in_range T a -> stored_in_range (FP.toInt o (inj a))) /\
  (forall a b, in_range T a -> in_range T b ->
     exists v, FP.add o (inj a) (inj b) = Return v /\ stored_in_range v) /\
  (forall a b, in_range T a -> in_range T b ->
     exists v, FP.sub o (inj a) (inj b) = Return v /\ stored_in_range v) /\
  (forall a, in_range T a ->
     exists v, FP.negate o (inj a) = Return v /\ stored_in_range v) /\
  (forall a, in_range T a ->
     exists v, FP.abs o (inj a) = Return v /\ stored_in_range v) /\
  (forall a b, in_range T a -> in_range T b ->
     exists v, FP.mul o (inj a) (inj b) = Return v /\ stored_in_range v) /\
  (forall a b, in_range T a -> in_range T b -> b <> 0 ->
     exists v, FP.div o (inj a) (inj b) = Return v /\ stored_in_range v) /\
  (forall a b, in_range T a -> in_range T b -> b <> 0 ->
     exists v, FP.mod_ o (inj a) (inj b) = Return v /\ stored_in_range v) /\
  (forall a fuel, in_range T a -> 0 <= a ->
     (isqrt_fuel (a * 2 ^ F) <= fuel)%nat ->
     exists v, FP.sqrt o fuel (inj a) = Some (Return v) /\ stored_in_range v).

(** [sin] and [cos] return a sample of the range. *)
Definition trig_closed : Prop :=
  forall theta, in_range (FP.TOTAL_BITS o) theta ->
    (exists v, FP.sin o (inj theta) = Return (Some v) /\ stored_in_range v)
    /\
    (exists v, FP.cos o (inj theta) = Return (Some v) /\ stored_in_range v).

(** Every sample [sin] and [cos] return is a value of the range, whatever
    the operand. *)
Definition trig_samples_in_range : Prop :=
  forall (x v : A),
    FP.sin o x = Return (Some v) \/ FP.cos o x = Return (Some v) ->
    stored_in_range v.

(** The range invariant of the values an operation set returns. *)
Definition range_invariant_laws : Prop :=
  range_closed /\ trig_samples_in_range.

End RangeInvariant.

(** *** Comparisons *)

(** What [assertInteger(value, name)] throws: an [Error], with the message
    naming the operand. *)
Definition operand_error {A : Type} (name : string) : result A :=
  Throw (Error (name ++ " must be a finite integer fixed-point value.")).

(** The six comparisons return, never throw. *)
Definition comparisons_total {A : Type} (o : FP.FixedPointOps A) : Prop :=
  forall a b,
    returns (FP.eq o a b) /\ returns (FP.neq o a b) /\
    returns (FP.gt o a b) /\ returns (FP.gte o a b) /\
    returns (FP.lt o a b) /\ returns (FP.lte o a b).

(** The six comparisons are the comparisons of the scaled integers. *)
Definition compares_scaled_integers {A : Type} (inj : Z -> A)
           (o : FP.FixedPointOps A) : Prop :=
  forall a b : Z,
    FP.eq o (inj a) (inj b) = Return (a =? b) /\
    FP.neq o (inj a) (inj b) = Return (negb (a =? b)) /\
    FP.gt o (inj a) (inj b) = Return (b <? a) /\
    FP.gte o (inj a) (inj b) = Return (b <=? a) /\
    FP.lt o (inj a) (inj b) = Return (a <? b) /\
    FP.lte o (inj a) (inj b) = Return (a <=? b).

(** The six comparisons reject an operand that is not a finite integer
    with the error of [assertInteger] naming it: [a] is checked first, [b]
    when [a] is an integer. *)
Definition rejects_non_integers (o : FP.FixedPointOps number) : Prop :=
  forall a b : number,
    (JS.isInteger a = false ->
     FP.eq o a b = operand_error "a" /\ FP.neq o a b = operand_error "a" /\
     FP.gt o a b = operand_error "a" /\ FP.gte o a b = operand_error "a" /\
     FP.lt o a b = operand_error "a" /\ FP.lte o a b = operand_error "a") /\
    (JS.isInteger a = true -> JS.isInteger b = false ->
     FP.eq o a b = operand_error "b" /\ FP.neq o a b = operand_error "b" /\
     FP.gt o a b = operand_error "b" /\ FP.gte o a b = operand_error "b" /\
     FP.lt o a b = operand_error "b" /\ FP.lte o a b = operand_error "b").

(** *** Decimal literals and rounding *)

(** The rational [p / q], [0 < q], rounded to the nearest integer with a
    tie going away from zero: the rounding the documentation of
    [parseFixedPointString] announces. *)
Definition round_half_away_from_zero (p q : Z) : Z :=
  Z.sgn p * ((2 * Z.abs p + q) / (2 * q)).

(** The same with a tie going up, toward plus infinity. *)
Definition round_half_up (p q : Z) : Z := (2 * p + q) / (2 * q).

(** The exact value [(N, D)], meaning [N / D], of a signed decimal literal
    [[sign]digits['.'digits]] with at least one digit, surrounded by white
    space; [None] for any other string. *)
Definition literal_value (s : string) : option (Z * Z) :=
  let trimmed := trim s in
  let '(sign, body) :=
    match trimmed with
    | String c r =>
        if Ascii.eqb c "+" then (1, r)
        else if Ascii.eqb c "-" then (-1, r)
        else (1, trimmed)
    | EmptyString => (1, trimmed)
    end in
  match split_dot body with
  | [i] =>
      if all_digits i && negb (is_empty i)
      then Some (sign * digits_value 0 i, 1) else None
  | [i; f] =>
      if all_digits i && all_digits f && negb (is_empty i && is_empty f)
      then
        let D := 10 ^ Z.of_nat (String.length f) in
        Some (sign * (digits_value 0 i * D + digits_value 0 f), D)
      else None
  | _ => None
  end.

(** *** The two backings side by side *)

(** A number-backed outcome and a BigInt-backed one are the same: the same
    integer, or an exception on both sides. *)
Definition agree (rn : result number) (rb : result Z) : Prop :=
  match rn, rb with
  | Return x, Return y => x = NInt y
  | Throw _, Throw _ => True
  | _, _ => False
  end.

(** *** Concrete formats used to exercise the statements *)

(** Four Q16 samples of one period of the sine: at 0, pi/2, pi, 3pi/2. *)
Definition sample_lut : list Z := [0; 65536; 0; -65536].

(** [createFixedPoint()]: every field left out. *)
Definition default_config : FixedPointConfig :=
  {| fractionBits := None; totalBits := None; useBigInt := None |}.

Definition config (F T : Z) (big : bool) : FixedPointConfig :=
  {| fractionBits := Some (NInt F); totalBits := Some (NInt T);
     useBigInt := Some big |}.

(** The operation sets [createFixedPoint] builds over [sample_lut]. *)
Definition number_ops (F T : Z) : FP.FixedPointOps number :=
  Num.ops F T (NInt (scaled F T TWO_PI_Q16)) (NInt (scaled F T PI_HALF_Q16))
    (map NInt (map (scaled F T) sample_lut))
    (NInt (Z.of_nat (List.length sample_lut))).

Definition bigint_ops (F T : Z) : FP.FixedPointOps Z :=
  Big.ops F T (scaled F T TWO_PI_Q16) (scaled F T PI_HALF_Q16)
    (map (scaled F T) sample_lut) (Z.of_nat (List.length sample_lut)).

(** *** Laws of the operations

    A property of an operation set is stated once, over the embedding [inj]
    of the integers into the storage type, and holds for a result of
    [createFixedPoint] when it holds for the operation set it carries. *)
Definition holds_for (r : AnyOps)
  (P : forall A : Type, (Z -> A) -> FP.FixedPointOps A -> Prop) : Prop :=
  match r with
  | NumberOps o => P number NInt o
  | BigIntOps o => P Z (fun z => z) o
  end.

Section Laws.

Context (A : Type) (inj : Z -> A) (o : FP.FixedPointOps A).

Let T := FP.TOTAL_BITS o.
Let F := FP.FRACTION_BITS o.

(** [add], [sub] and [negate] make [[MIN, MAX]] an abelian group. *)
Definition additive_laws : Prop :=
  forall a b c, in_range T a -> in_range T b -> in_range T c ->
    FP.add o (inj a) (inj b) = FP.add o (inj b) (inj a) /\
    (x <- FP.add o (inj a) (inj b) ;; FP.add o x (inj c))
      = (y <- FP.add o (inj b) (inj c) ;; FP.add o (inj a) y) /\
    FP.add o (inj a) (inj 0) = Return (inj a) /\
    (n <- FP.negate o (inj a) ;; FP.add o (inj a) n) = Return (inj 0) /\
    FP.sub o (inj a) (inj b)
      = (n <- FP.negate o (inj b) ;; FP.add o (inj a) n) /\
    (n <- FP.negate o (inj a) ;; FP.negate o n) = Return (inj a).

(** [negate] and [abs] at the ends of the range: [MIN] is its own negation
    and its own absolute value; every other value has a non-negative
    absolute value, its negation's. *)
Definition sign_laws : Prop :=
  FP.negate o (FP.MIN o) = Return (FP.MIN o) /\
  FP.abs o (FP.MIN o) = Return (FP.MIN o) /\
  forall a, in_range T a -> a <> - 2 ^ (T - 1) ->
    FP.negate o (inj a) = Return (inj (- a)) /\
    FP.abs o (inj a) = Return (inj (Z.abs a)) /\
    (n <- FP.negate o (inj a) ;; FP.abs o n) = FP.abs o (inj a).

End Laws.

Section ScaleLaws.

Context (A : Type) (inj : Z -> A) (o : FP.FixedPointOps A).

Let T := FP.TOTAL_BITS o.
Let F := FP.FRACTION_BITS o.

(** [mul] is commutative, [ONE] is a right identity of [mul] and [div],
    zero is absorbing, and a value divided by itself is [fromInt(1)]. *)
Definition scale_laws : Prop :=
  forall a b, in_range T a -> in_range T b ->
    FP.mul o (inj a) (inj b) = FP.mul o (inj b) (inj a) /\
    FP.mul o (inj a) (FP.ONE o) = Return (inj a) /\
    FP.mul o (inj a) (inj 0) = Return (inj 0) /\
    FP.div o (inj a) (FP.ONE o) = Return (inj a) /\
    (b <> 0 -> FP.div o (inj 0) (inj b) = Return (inj 0)) /\
    (a <> 0 -> FP.div o (inj a) (inj a) = FP.fromInt o (NInt 1)).

(** [mod] returns the remainder itself, never a wrapped one: the integer
    [r] of the sign of [a], smaller than [b] in magnitude, that differs
    from [a] by a multiple of [b]. *)
Definition mod_laws : Prop :=
  forall a b, in_range T a -> in_range T b -> b <> 0 ->
    exists r q,
      FP.mod_ o (inj a) (inj b) = Return (inj r) /\
      a = b * q + r /\ Z.abs r < Z.abs b /\ 0 <= r * a.

(** [toInt] drops the fraction toward zero: [q = toInt(a)] keeps the sign
    of [a], and [q * ONE] is within less than [ONE] of [a], on the side of
    zero. *)
Definition toInt_laws : Prop :=
  forall a, in_range T a ->
    exists q,
      FP.toInt o (inj a) = inj q /\
      Z.abs (q * 2 ^ F) <= Z.abs a < Z.abs (q * 2 ^ F) + 2 ^ F /\
      0 <= q * a.

(** [ONE] is [2^fractionBits].  It is a value of the format, and
    [fromInt(1)], when the format has an integer bit beside the sign bit;
    with [totalBits = fractionBits + 1] it exceeds [MAX] and [fromInt(1)]
    wraps to [MIN]. *)
Definition one_laws : Prop :=
  FP.ONE o = inj (2 ^ F) /\
  (F + 2 <= T ->
     in_range T (2 ^ F) /\ FP.fromInt o (NInt 1) = Return (FP.ONE o)) /\
  (T = F + 1 ->
     ~ in_range T (2 ^ F) /\ FP.fromInt o (NInt 1) = Return (FP.MIN o)).

(** [fromInt] carries sums to [add] (wrapping alike) and representable
    products to [mul]. *)
Definition fromInt_laws : Prop :=
  forall m n, in_range T (m * 2 ^ F) -> in_range T (n * 2 ^ F) ->
    FP.fromInt o (NInt m) = Return (inj (m * 2 ^ F)) /\
    (x <- FP.fromInt o (NInt m) ;; y <- FP.fromInt o (NInt n) ;;
     FP.add o x y) = FP.fromInt o (NInt (m + n)) /\
    (in_range T (m * n * 2 ^ F) ->
     (x <- FP.fromInt o (NInt m) ;; y <- FP.fromInt o (NInt n) ;;
      FP.mul o x y) = FP.fromInt o (NInt (m * n))).

End ScaleLaws.

(** *** Validation of a configuration *)

(** The bit counts a configuration asks for, defaults filled in. *)
Definition requested_fractionBits (cfg : FixedPointConfig) : number :=
  orElse cfg.(fractionBits) (NInt DEFAULT_FRACTION_BITS).

Definition requested_totalBits (cfg : FixedPointConfig) : number :=
  orElse cfg.(totalBits) (NInt DEFAULT_TOTAL_BITS).

(** A width whose BigInts an engine builds.  The integers of the model are
    unbounded; an engine refuses a BigInt beyond its size limit with a
    [RangeError], as [1n << BigInt(totalBits)] at [totalBits = 2^31].  The
    limits of the engines start at about a million bits, and the largest
    BigInt [createFixedPoint] builds has fewer than [totalBits + 40] bits
    over a table of samples below [2^38]. *)
Definition buildable_width (T : Z) : Prop := T <= 2 ^ 16.

(** The samples of the table are below [2^38] in magnitude (those of a Q16
    sine table are at most [2^16]), so that scaling them by up to 15 bits
    stays exact in a double. *)
Definition table_small (lut : list Z) : Prop :=
  Forall (fun v => Z.abs v < 2 ^ 38) lut.

(** The constants of the operation set of the format [(F, T)]. *)
Definition has_constants {A : Type} (inj : Z -> A) (o : FP.FixedPointOps A)
           (F T : Z) : Prop :=
  FP.SHIFT o = F /\ FP.FRACTION_BITS o = F /\ FP.TOTAL_BITS o = T /\
  FP.ONE o = inj (2 ^ F) /\ FP.EPSILON o = inj 1 /\
  FP.MAX o = inj (2 ^ (T - 1) - 1) /\ FP.MIN o = inj (- 2 ^ (T - 1)).

Section SqrtLaws.

Context (A : Type) (inj : Z -> A) (o : FP.FixedPointOps A).

Let T := FP.TOTAL_BITS o.
Let F := FP.FRACTION_BITS o.

(** [sqrt] of a non-negative value never wraps: it returns the
    non-negative [r] with [r^2 <= a * ONE < (r + 1)^2], a value of the
    format; in particular the root of a scaled perfect square
    [k^2 * ONE] is [k * ONE], what [fromInt(k)] returns. *)
Definition sqrt_laws : Prop :=
  forall a fuel, in_range T a -> 0 <= a ->
    (isqrt_fuel (a * 2 ^ F) <= fuel)%nat ->
    (exists r,
       FP.sqrt o fuel (inj a) = Some (Return (inj r)) /\
       0 <= r /\ r * r <= a * 2 ^ F < (r + 1) * (r + 1) /\
       in_range T r) /\
    (forall k, 0 <= k -> a = k * k * 2 ^ F ->
       FP.sqrt o fuel (inj a) = Some (Return (inj (k * 2 ^ F)))).

End SqrtLaws.

(** *** The period constant by format *)

(** [TWO_PI_Q16] moved to [F] fraction bits, before the wrap. *)
Definition shifted_TWO_PI (F : Z) : Z :=
  if 16 <=? F then TWO_PI_Q16 * 2 ^ (F - 16) else TWO_PI_Q16 / 2 ^ (16 - F).

Section TrigLaws.

Context (A : Type) (inj : Z -> A) (o : FP.FixedPointOps A).

Let T := FP.TOTAL_BITS o.
Let F := FP.FRACTION_BITS o.

(** With four bits or more above the fraction the period constant is the
    shifted Q16 constant, positive, and [sin] and [cos] return a sample of
    the range on every operand of the range; with two or three it wraps to
    a negative number. *)
Definition period_by_format : Prop :=
  (F + 4 <= T ->
     TWO_PI_of o = shifted_TWO_PI F /\ 2 ^ (F + 2) <= TWO_PI_of o /\
     trig_closed inj o) /\
  (T = F + 2 \/ T = F + 3 -> TWO_PI_of o < 0).

(** With a positive period constant [sin] has that period, on every
    integer operand: it depends on its operand modulo the constant only. *)
Definition sin_periodic : Prop :=
  0 < TWO_PI_of o ->
  (forall theta k,
     FP.sin o (inj (theta + k * TWO_PI_of o)) = FP.sin o (inj theta)) /\
  (forall theta,
     FP.sin o (inj theta) = FP.sin o (inj (theta mod TWO_PI_of o))).

End TrigLaws.

(** *** Pairs of operation sets of one format *)

(** The number-backed and the BigInt-backed operation set that
    [createFixedPoint] builds for the bit counts [(F, T)]. *)
Definition backings_of (lut : list Z) (F T : Z)
           (on : FP.FixedPointOps number) (ob : FP.FixedPointOps Z) : Prop :=
  createFixedPoint lut (config F T false) = Return (NumberOps on) /\
  createFixedPoint lut (config F T true) = Return (BigIntOps ob).

(** Outcomes of [sin] and [cos] that are the same: the same sample,
    [undefined] on both sides, or an exception on both sides. *)
Definition agree_sample (rn : result (option number))
           (rb : result (option Z)) : Prop :=
  match rn, rb with
  | Return (Some x), Return (Some y) => x = NInt y
  | Return None, Return None => True
  | Throw _, Throw _ => True
  | _, _ => False
  end.

(** Outcomes of [sqrt] that are the same, the budget being the same. *)
Definition agree_partial (pn : partial number) (pb : partial Z) : Prop :=
  match pn, pb with
  | Some rn, Some rb => agree rn rb
  | None, None => True
  | _, _ => False
  end.

(** *** The grammar of decimal literals

    The literals are described on the code units of the string, without
    the functions of the parser: optional white space, an optional sign,
    digits, and after an optional point more digits, with one digit at
    least, then optional white space. *)

(** The ten digits, in the order of their values. *)
Definition decimal_digits : list ascii :=
  ["0"; "1"; "2"; "3"; "4"; "5"; "6"; "7"; "8"; "9"]%char.

(** The code unit of the digit of value [d]. *)
Definition digit_char (d : nat) : ascii := nth d decimal_digits "0"%char.

Definition digits_text (ds : list nat) : list ascii := map digit_char ds.

Definition is_digits (ds : list nat) : Prop :=
  Forall (fun d => (d <= 9)%nat) ds.

(** The value of a sequence of digits, the most significant first. *)
Definition decimal (ds : list nat) : Z :=
  fold_left (fun acc d => 10 * acc + Z.of_nat d) ds 0.

(** The code units below 256 that [String.prototype.trim] strips: TAB, LF,
    VT, FF, CR, SP and NBSP. *)
Definition white_space : list ascii :=
  ["009"; "010"; "011"; "012"; "013"; " "; "160"]%char.

Definition is_white (l : list ascii) : Prop :=
  Forall (fun c => In c white_space) l.

(** The text of a sign and the factor it stands for. *)
Inductive sign_text : list ascii -> Z -> Prop :=
| sign_absent : sign_text [] 1
| sign_plus : sign_text ["+"%char] 1
| sign_minus : sign_text ["-"%char] (-1).

(** [s] is the literal of sign [sg], integer digits [ip] and fraction
    digits [fp]. *)
Definition is_literal (s : string) (sg : Z) (ip fp : list nat) : Prop :=
  exists ws1 ws2 st point,
    is_white ws1 /\ is_white ws2 /\ sign_text st sg /\
    is_digits ip /\ is_digits fp /\ (ip <> [] \/ fp <> []) /\
    (point = ["."%char] \/ point = [] /\ fp = []) /\
    list_ascii_of_string s
      = ws1 ++ st ++ digits_text ip ++ point ++ digits_text fp ++ ws2.

(** Strings joined by points, as code units. *)
Definition joined (parts : list string) : list ascii :=
  match parts with
  | [] => []
  | p :: rest =>
      list_ascii_of_string p
        ++ flat_map (fun q => "."%char :: list_ascii_of_string q) rest
  end.

(** The exact value of the literal is [numerator / denominator]. *)
Definition literal_denominator (fp : list nat) : Z :=
  10 ^ Z.of_nat (List.length fp).

Definition literal_numerator (sg : Z) (ip fp : list nat) : Z :=
  sg * (decimal ip * literal_denominator fp + decimal fp).

Section StringLaws.

Context (A : Type) (inj : Z -> A) (o : FP.FixedPointOps A).

Let T := FP.TOTAL_BITS o.
Let F := FP.FRACTION_BITS o.

(** [fromString] throws what the parser throws.  A literal whose scaled
    value, rounded to the nearest integer with a tie going up, is below
    [2^53] is converted to that integer wrapped to the word; on a literal
    without fraction digits this is [fromInt] of the integer. *)
Definition fromString_laws : Prop :=
  forall s,
    (forall e, parseFixedPointString s F = Throw e ->
       FP.fromString o s = Throw e) /\
    (forall sg ip fp, is_literal s sg ip fp ->
       let v := round_half_up (literal_numerator sg ip fp * 2 ^ F)
                  (literal_denominator fp) in
       Z.abs v < 2 ^ 53 ->
       FP.fromString o s = Return (inj (wrapBigInt T v)) /\
       (fp = [] -> FP.fromString o s = FP.fromInt o (NInt (sg * decimal ip)))).

End StringLaws.

Section FloatLaws.

Context (A : Type) (inj : Z -> A) (o : FP.FixedPointOps A).

Let T := FP.TOTAL_BITS o.
Let F := FP.FRACTION_BITS o.

(** [fromFloat] on the doubles: an integer [z] below [2^53] is scaled by
    [ONE]; a fraction [m / 2^k] is scaled by [ONE] and rounded to the
    nearest integer, a tie going up; the result is wrapped into the word.
    Infinities and NaN are rejected.  [fractionBits <= 971] keeps the
    scaled doubles finite. *)
Definition fromFloat_laws : Prop :=
  F <= 971 ->
  (forall z, Z.abs z < 2 ^ 53 ->
     FP.fromFloat o (NInt z) = Return (inj (wrapBigInt T (z * 2 ^ F)))) /\
  (forall m k, JS.is_double (NFrac m k) ->
     FP.fromFloat o (NFrac m k)
       = Return (inj (wrapBigInt T
                        (round_half_up (m * 2 ^ F) (2 ^ Z.pos k))))) /\
  (forall f, JS.isFinite f = false -> throws (FP.fromFloat o f)).

End FloatLaws.

(** *** Validation of operands *)

(** The number-backed operations check their operands before anything
    else, the first operand first; [x] is the operand that is not a finite
    integer and [y] is any operand, an integer where it precedes [x]. *)
Definition validates_operands (o : FP.FixedPointOps number) : Prop :=
  forall x y : number, JS.isInteger x = false ->
    (FP.add o x y = operand_error "a" /\ FP.sub o x y = operand_error "a" /\
     FP.mul o x y = operand_error "a" /\ FP.div o x y = operand_error "a" /\
     FP.mod_ o x y = operand_error "a") /\
    (FP.negate o x = operand_error "a" /\ FP.abs o x = operand_error "a" /\
     (forall fuel, FP.sqrt o fuel x = Some (operand_error "a")) /\
     FP.sin o x = operand_error "theta" /\
     FP.fromInt o x = operand_error "n") /\
    (JS.isInteger y = true ->
     FP.add o y x = operand_error "b" /\ FP.sub o y x = operand_error "b" /\
     FP.mul o y x = operand_error "b" /\ FP.div o y x = operand_error "b" /\
     FP.mod_ o y x = operand_error "b").

(* ================================================================== *)
(** * Properties *)

(* ------------------------------------------------------------------ *)
(** ** Two's-complement wrap *)

Lemma shiftl_1 (n : Z) : 0 <= n -> Z.shiftl 1 n = 2 ^ n.
Proof. intros H. rewrite Z.shiftl_mul_pow2 by assumption. lia. Qed.

Lemma pow2_split (T : Z) : 1 <= T -> 2 ^ T = 2 * 2 ^ (T - 1).
Proof.
  intros H. replace T with (Z.succ (T - 1)) at 1 by lia.
  rewrite Z.pow_succ_r by lia. reflexivity.
Qed.

Lemma pow2_pos (n : Z) : 0 <= n -> 0 < 2 ^ n.
Proof. intros. apply Z.pow_pos_nonneg; lia. Qed.

Lemma wrapBigInt_mod (T v : Z) :
  1 <= T ->
  wrapBigInt T v =
    if 2 ^ (T - 1) <=? v mod 2 ^ T then v mod 2 ^ T - 2 ^ T else v mod 2 ^ T.
Proof.
  intros HT. unfold wrapBigInt.
  rewrite !shiftl_1 by lia.
  replace (2 ^ T - 1) with (Z.ones T) by (rewrite Z.ones_equiv; lia).
  rewrite Z.land_ones by lia. reflexivity.
Qed.

Lemma wrapBigInt_range (T v : Z) : 1 <= T -> in_range T (wrapBigInt T v).
Proof.
  intros HT. rewrite wrapBigInt_mod by assumption. unfold in_range.
  pose proof (pow2_split T HT) as E.
  pose proof (pow2_pos (T - 1) ltac:(lia)) as P.
  pose proof (Z.mod_pos_bound v (2 ^ T) ltac:(lia)) as B.
  destruct (Z.leb_spec (2 ^ (T - 1)) (v mod 2 ^ T)); lia.
Qed.

Lemma wrapBigInt_id (T v : Z) : 1 <= T -> in_range T v -> wrapBigInt T v = v.
Proof.
  intros HT [Lo Hi]. rewrite wrapBigInt_mod by assumption.
  pose proof (pow2_split T HT) as E.
  pose proof (pow2_pos (T - 1) ltac:(lia)) as P.
  destruct (Z.le_gt_cases 0 v) as [Pos | Neg].
  - rewrite Z.mod_small by lia.
    destruct (Z.leb_spec (2 ^ (T - 1)) v); lia.
  - assert (M : v mod 2 ^ T = v + 2 ^ T).
    { symmetry. apply (Z.mod_unique v (2 ^ T) (-1)); lia. }
    rewrite M. destruct (Z.leb_spec (2 ^ (T - 1)) (v + 2 ^ T)); lia.
Qed.

(** Wrapping only adds a multiple of [2^T]. *)
Lemma wrapBigInt_congr (T v : Z) :
  1 <= T -> exists k, wrapBigInt T v = v + k * 2 ^ T.
Proof.
  intros HT. rewrite wrapBigInt_mod by assumption.
  pose proof (pow2_pos T ltac:(lia)) as P.
  pose proof (Z.div_mod v (2 ^ T) ltac:(lia)) as D.
  destruct (Z.leb_spec (2 ^ (T - 1)) (v mod 2 ^ T)).
  - exists (- (v / 2 ^ T) - 1). lia.
  - exists (- (v / 2 ^ T)). lia.
Qed.

Lemma wrapBigInt_max_succ (T : Z) :
  1 <= T -> wrapBigInt T (2 ^ (T - 1) - 1 + 1) = - 2 ^ (T - 1).
Proof.
  intros HT. rewrite wrapBigInt_mod by assumption.
  pose proof (pow2_split T HT) as E.
  pose proof (pow2_pos (T - 1) ltac:(lia)) as P.
  replace (2 ^ (T - 1) - 1 + 1) with (2 ^ (T - 1)) by lia.
  rewrite Z.mod_small by lia.
  rewrite Z.leb_refl. lia.
Qed.

Lemma wrapBigInt_min_pred (T : Z) :
  1 <= T -> wrapBigInt T (- 2 ^ (T - 1) - 1) = 2 ^ (T - 1) - 1.
Proof.
  intros HT. rewrite wrapBigInt_mod by assumption.
  pose proof (pow2_split T HT) as E.
  pose proof (pow2_pos (T - 1) ltac:(lia)) as P.
  assert (M : (- 2 ^ (T - 1) - 1) mod 2 ^ T = 2 ^ (T - 1) - 1).
  { symmetry. apply (Z.mod_unique _ (2 ^ T) (-1)); lia. }
  rewrite M. destruct (Z.leb_spec (2 ^ (T - 1)) (2 ^ (T - 1) - 1)); lia.
Qed.

(* ------------------------------------------------------------------ *)
(** ** Doubles that are integers *)

Lemma bitlen_le (a n : Z) : 0 <= a < 2 ^ n -> 0 <= n -> JS.bitlen a <= n.
Proof.
  intros [Ha Hlt] Hn. unfold JS.bitlen.
  destruct (Z.eqb_spec a 0) as [-> | Hne]; [lia |].
  assert (Z.log2 a < n) by (apply Z.log2_lt_pow2; lia). lia.
Qed.

(** Integers below [2^53] in magnitude are doubles: no rounding. *)
Lemma round_to_double_exact (z : Z) :
  Z.abs z < 2 ^ 53 -> JS.round_to_double z 0 = NInt z.
Proof.
  intros Hz. unfold JS.round_to_double.
  pose proof (bitlen_le (Z.abs z) 53 ltac:(lia) ltac:(lia)) as Hb.
  assert (HE : Z.max (0 + JS.bitlen (Z.abs z) - 53) (-1074) <= 0) by lia.
  apply Z.leb_le in HE. rewrite HE.
  assert (HO : (2 ^ 1024 <=? Z.abs z * 2 ^ 0) = false).
  { apply Z.leb_gt. change (2 ^ 0) with 1. rewrite Z.mul_1_r.
    eapply Z.lt_trans; [exact Hz | reflexivity]. }
  rewrite HO. unfold JS.dyadic. simpl (0 <=? 0).
  cbv iota. change (2 ^ 0) with 1. now rewrite Z.mul_1_r.
Qed.

Lemma Number_exact (z : Z) : Z.abs z < 2 ^ 53 -> JS.Number z = NInt z.
Proof. apply round_to_double_exact. Qed.

Lemma compare_int (a b : Z) : JS.compare (NInt a) (NInt b) = Some (a ?= b).
Proof.
  unfold JS.compare. simpl. change (2 ^ 0) with 1. now rewrite !Z.mul_1_r.
Qed.

Lemma eqb_int (a b : Z) : JS.eqb (NInt a) (NInt b) = (a =? b).
Proof. unfold JS.eqb. now rewrite compare_int, Z.eqb_compare. Qed.

Lemma ltb_int (a b : Z) : JS.ltb (NInt a) (NInt b) = (a <? b).
Proof. unfold JS.ltb. now rewrite compare_int. Qed.

Lemma leb_int (a b : Z) : JS.leb (NInt a) (NInt b) = (a <=? b).
Proof.
  unfold JS.leb, Z.leb. rewrite compare_int. now destruct (a ?= b).
Qed.

Lemma gtb_int (a b : Z) : JS.gtb (NInt a) (NInt b) = (a >? b).
Proof. unfold JS.gtb. now rewrite ltb_int, Z.gtb_ltb. Qed.

Lemma geb_int (a b : Z) : JS.geb (NInt a) (NInt b) = (a >=? b).
Proof. unfold JS.geb. now rewrite leb_int, Z.geb_leb. Qed.

Lemma add_int (a b : Z) :
  JS.add (NInt a) (NInt b) = JS.round_to_double (a + b) 0.
Proof.
  unfold JS.add. simpl. change (2 ^ 0) with 1. now rewrite !Z.mul_1_r.
Qed.

Lemma sub_int (a b : Z) :
  JS.sub (NInt a) (NInt b) = JS.round_to_double (a - b) 0.
Proof. unfold JS.sub. simpl JS.neg. now rewrite add_int. Qed.

Lemma add_int_exact (a b : Z) :
  Z.abs (a + b) < 2 ^ 53 -> JS.add (NInt a) (NInt b) = NInt (a + b).
Proof. intros. rewrite add_int. now apply round_to_double_exact. Qed.

Lemma sub_int_exact (a b : Z) :
  Z.abs (a - b) < 2 ^ 53 -> JS.sub (NInt a) (NInt b) = NInt (a - b).
Proof. intros. rewrite sub_int. now apply round_to_double_exact. Qed.

Lemma rem_int (a b : Z) :
  b <> 0 -> JS.rem (NInt a) (NInt b) = NInt (Z.rem a b).
Proof.
  intros Hb. unfold JS.rem. simpl. change (2 ^ 0) with 1.
  rewrite !Z.mul_1_r. apply Z.eqb_neq in Hb. rewrite Hb.
  unfold JS.dyadic. simpl. now rewrite Z.mul_1_r.
Qed.

(** [2 ** n] is exact up to the largest binade. *)
Lemma pow2_exact (n : Z) : 0 <= n <= 1023 -> JS.pow2 n = NInt (2 ^ n).
Proof.
  intros Hn. unfold JS.pow2, JS.round_to_double.
  change (JS.bitlen (Z.abs 1)) with 1.
  assert (HE : Z.max (n + 1 - 53) (-1074) <= n) by lia.
  apply Z.leb_le in HE. rewrite HE.
  change (Z.abs 1) with 1. rewrite Z.mul_1_l.
  assert (HO : (2 ^ 1024 <=? 2 ^ n) = false).
  { apply Z.leb_gt. apply Z.pow_lt_mono_r; lia. }
  rewrite HO. unfold JS.dyadic.
  assert (H0 : (0 <=? n) = true) by (apply Z.leb_le; lia).
  rewrite H0. now rewrite Z.mul_1_l.
Qed.

Lemma mul_int (a b : Z) :
  JS.mul (NInt a) (NInt b) = JS.round_to_double (a * b) 0.
Proof. reflexivity. Qed.

Lemma mul_int_exact (a b : Z) :
  Z.abs (a * b) < 2 ^ 53 -> JS.mul (NInt a) (NInt b) = NInt (a * b).
Proof. intros. rewrite mul_int. now apply round_to_double_exact. Qed.

(** [x | 0] on an integer double is the 32-bit wrap. *)
Lemma toInt32_int (z : Z) : JS.toInt32 (NInt z) = NInt (wrapBigInt 32 z).
Proof.
  unfold JS.toInt32. simpl JS.trunc. cbv iota.
  rewrite wrapBigInt_mod by lia. reflexivity.
Qed.

Lemma in_range_53 (T v : Z) :
  1 <= T <= 32 -> in_range T v -> Z.abs v < 2 ^ 53.
Proof.
  intros HT [Lo Hi].
  assert (2 ^ (T - 1) <= 2 ^ 31) by (apply Z.pow_le_mono_r; lia).
  assert (2 ^ 31 < 2 ^ 53) by reflexivity. lia.
Qed.

(** On an integer double [wrapNumber] is [wrapBigInt], for every width the
    number backing is offered at. *)
Lemma wrapNumber_int (T z : Z) :
  1 <= T <= 32 -> wrapNumber T (NInt z) = Return (NInt (wrapBigInt T z)).
Proof.
  intros HT. unfold wrapNumber. simpl.
  destruct (Z.eqb_spec T 32) as [-> | Hne].
  - now rewrite toInt32_int.
  - rewrite Number_exact; [reflexivity |].
    apply (in_range_53 T); [lia |]. apply wrapBigInt_range. lia.
Qed.

Lemma wrapNumber_nonint (T : Z) (x : number) :
  JS.isInteger x = false ->
  wrapNumber T x = Throw (Error "Fixed-point values must be finite integers.").
Proof.
  intros H. unfold wrapNumber. rewrite H.
  now rewrite Bool.orb_true_r.
Qed.

Lemma assertInteger_int (z : Z) (name : string) :
  assertInteger (NInt z) name = Return tt.
Proof. reflexivity. Qed.

Lemma assertInteger_nonint (x : number) (name : string) :
  JS.isInteger x = false ->
  assertInteger x name =
    Throw (Error (name ++ " must be a finite integer fixed-point value.")).
Proof.
  intros H. unfold assertInteger. rewrite H. now rewrite Bool.orb_true_r.
Qed.

(* ------------------------------------------------------------------ *)
(** ** What [createFixedPoint] returns *)

Lemma scaleQ16_bigint_int (F T v : Z) :
  scaleQ16_bigint F T (NInt v) = Return (scaled F T v).
Proof. reflexivity. Qed.

Lemma wrapNumber_inv (T : Z) (x y : number) :
  1 <= T <= 32 ->
  wrapNumber T x = Return y ->
  exists z, x = NInt z /\ y = NInt (wrapBigInt T z).
Proof.
  intros HT H. destruct x as [z | m k | s |]; try discriminate H.
  exists z. split; [reflexivity |].
  rewrite wrapNumber_int in H by assumption. now inversion H.
Qed.

Lemma scaleQ16_number_inv (F T v : Z) (y : number) :
  1 <= T <= 32 ->
  scaleQ16_number F T (NInt v) = Return y ->
  exists w, y = NInt w /\ in_range T w.
Proof.
  intros HT H. unfold scaleQ16_number in H.
  destruct (0 <? F - DEFAULT_FRACTION_BITS);
    destruct (F - DEFAULT_FRACTION_BITS <? 0); simpl in H;
    apply wrapNumber_inv in H; try assumption;
    destruct H as (z & _ & ->); eexists; split; try reflexivity;
    apply wrapBigInt_range; lia.
Qed.

Lemma mapM_inv {A B : Type} (f : A -> result B) (P : B -> Prop) :
  (forall a b, f a = Return b -> P b) ->
  forall xs ys, mapM f xs = Return ys ->
    Forall P ys /\ List.length ys = List.length xs.
Proof.
  intros Hf. induction xs as [| x r IH]; intros ys H; simpl in H.
  - inversion H. split; [constructor | reflexivity].
  - destruct (f x) as [y | e] eqn:Ex; [| discriminate H]. simpl in H.
    destruct (mapM f r) as [l | e] eqn:Er; [| discriminate H]. simpl in H.
    inversion H; subst. destruct (IH l eq_refl) as [Hall Hlen].
    split; [constructor; eauto | simpl; congruence].
Qed.

Lemma Forall_NInt (P : Z -> Prop) (ys : list number) :
  Forall (fun y => exists w, y = NInt w /\ P w) ys ->
  exists l, ys = map NInt l /\ Forall P l.
Proof.
  induction 1 as [| y r (w & -> & Hw) _ (l & -> & Hl)].
  - exists []. split; [reflexivity | constructor].
  - exists (w :: l). split; [reflexivity | now constructor].
Qed.

(** Constants below [2^38] are scaled without rounding. *)
Lemma scaleQ16_number_small (F T v : Z) :
  valid_format F T -> T <= 32 -> Z.abs v < 2 ^ 38 ->
  scaleQ16_number F T (NInt v) = Return (NInt (scaled F T v)).
Proof.
  intros [HF HT] HT32 Hv. unfold scaleQ16_number, scaled.
  assert (HD : -15 <= F - DEFAULT_FRACTION_BITS <= 15)
    by (unfold DEFAULT_FRACTION_BITS; lia).
  set (d := F - DEFAULT_FRACTION_BITS) in *.
  destruct (Z.ltb_spec 0 d) as [Hd | Hd];
    destruct (Z.ltb_spec d 0) as [Hd' | Hd']; try lia; cbn [JS.BigInt bind].
  - rewrite Number_exact; [apply wrapNumber_int; lia |].
    rewrite Z.shiftl_mul_pow2, Z.abs_mul by lia.
    assert (2 ^ d <= 2 ^ 15) by (apply Z.pow_le_mono_r; lia).
    pose proof (pow2_pos d ltac:(lia)).
    rewrite (Z.abs_eq (2 ^ d)) by lia.
    apply Z.le_lt_trans with ((2 ^ 38 - 1) * 2 ^ 15); [nia | reflexivity].
  - rewrite Number_exact; [apply wrapNumber_int; lia |].
    rewrite Z.shiftr_div_pow2 by lia.
    pose proof (pow2_pos (- d) ltac:(lia)) as P.
    assert (Z.abs (v / 2 ^ (- d)) <= Z.abs v).
    { destruct (Z.le_gt_cases 0 v) as [Hp | Hn].
      - rewrite !Z.abs_eq; try lia.
        + apply Z.div_le_upper_bound; nia.
        + apply Z.div_pos; lia.
      - assert (v <= v / 2 ^ (- d) < 0).
        { split; [apply Z.div_le_lower_bound; nia |].
          apply Z.div_lt_upper_bound; lia. }
        rewrite !Z.abs_neq; lia. }
    assert (2 ^ 38 < 2 ^ 53) by reflexivity. lia.
  - apply wrapNumber_int; lia.
Qed.

(** A number-backed operation set is built for [0 < F < T <= 32], over
    integer constants and samples already wrapped to [T] bits. *)
Lemma createFixedPoint_number (lut : list Z) (config : FixedPointConfig)
      (o : FP.FixedPointOps number) :
  createFixedPoint lut config = Return (NumberOps o) ->
  exists F T l,
    valid_format F T /\ T <= 32 /\
    Forall (in_range T) l /\ List.length l = List.length lut /\
    o = Num.ops F T (NInt (scaled F T TWO_PI_Q16))
          (NInt (scaled F T PI_HALF_Q16)) (map NInt l)
          (NInt (Z.of_nat (List.length lut))).
Proof.
  unfold createFixedPoint. intros H.
  destruct (orElse (fractionBits config) (NInt DEFAULT_FRACTION_BITS))
    as [F | | |]; try discriminate H.
  destruct (orElse (totalBits config) (NInt DEFAULT_TOTAL_BITS))
    as [T | | |]; try discriminate H.
  simpl negb in H. simpl orb in H. cbv iota in H.
  rewrite !leb_int, gtb_int in H.
  destruct (Z.leb_spec F 0) as [| HF]; [discriminate H |].
  destruct (Z.leb_spec T F) as [| HT]; [discriminate H |].
  assert (Hbig : orElse (useBigInt config) (T >? 32) = false -> T <= 32).
  { intros Hb. destruct (useBigInt config) as [[|] |]; simpl in *;
      try discriminate; destruct (Z.gtb_spec T 32); try discriminate; lia. }
  destruct ((match useBigInt config with Some false => true | _ => false end)
            && (T >? 32))%bool; [discriminate H |].
  cbn [JS.BigInt bind] in H.
  destruct (orElse (useBigInt config) (T >? 32)) eqn:Eu.
  { rewrite !scaleQ16_bigint_int in H. cbn [bind] in H.
    destruct (mapM _ _); simpl in H; discriminate H. }
  specialize (Hbig eq_refl).
  assert (HV : valid_format F T) by (split; lia).
  rewrite !scaleQ16_number_small in H
    by (try assumption; unfold TWO_PI_Q16, PI_HALF_Q16; reflexivity).
  cbn [bind] in H.
  destruct (mapM (scaleQ16_number F T) (map NInt lut)) as [sinLut | e] eqn:E3;
    [| discriminate H].
  cbn [bind] in H. inversion H; subst o; clear H.
  assert (HT32 : 1 <= T <= 32) by lia.
  apply (mapM_inv _ (fun y => exists w, y = NInt w /\ in_range T w)) in E3.
  2:{ intros a b Hab. destruct a as [v | | |];
        try (unfold scaleQ16_number in Hab;
             destruct (0 <? F - DEFAULT_FRACTION_BITS);
             destruct (F - DEFAULT_FRACTION_BITS <? 0);
             simpl in Hab; discriminate Hab).
      eapply scaleQ16_number_inv; eauto. }
  destruct E3 as [Hall Hlen]. rewrite length_map in Hlen.
  destruct (Forall_NInt _ _ Hall) as (l & -> & Hl).
  rewrite length_map in Hlen.
  exists F, T, l.
  repeat (split; [assumption || reflexivity |]). reflexivity.
Qed.

Lemma mapM_scaleQ16_bigint (F T : Z) (lut : list Z) :
  mapM (scaleQ16_bigint F T) (map NInt lut) = Return (map (scaled F T) lut).
Proof.
  induction lut as [| v r IH]; [reflexivity |].
  simpl map. cbn [mapM]. rewrite scaleQ16_bigint_int, IH. reflexivity.
Qed.

(** A BigInt-backed operation set is built for [0 < F < T], over the scaled
    constants and samples. *)
Lemma createFixedPoint_bigint (lut : list Z) (config : FixedPointConfig)
      (o : FP.FixedPointOps Z) :
  createFixedPoint lut config = Return (BigIntOps o) ->
  exists F T,
    valid_format F T /\
    o = Big.ops F T (scaled F T TWO_PI_Q16) (scaled F T PI_HALF_Q16)
          (map (scaled F T) lut) (Z.of_nat (List.length lut)).
Proof.
  unfold createFixedPoint. intros H.
  destruct (orElse (fractionBits config) (NInt DEFAULT_FRACTION_BITS))
    as [F | | |]; try discriminate H.
  destruct (orElse (totalBits config) (NInt DEFAULT_TOTAL_BITS))
    as [T | | |]; try discriminate H.
  simpl negb in H. simpl orb in H. cbv iota in H.
  rewrite !leb_int, gtb_int in H.
  destruct (Z.leb_spec F 0) as [| HF]; [discriminate H |].
  destruct (Z.leb_spec T F) as [| HT]; [discriminate H |].
  destruct ((match useBigInt config with Some false => true | _ => false end)
            && (T >? 32))%bool; [discriminate H |].
  cbn [JS.BigInt bind] in H.
  destruct (orElse (useBigInt config) (T >? 32)).
  - rewrite !scaleQ16_bigint_int, mapM_scaleQ16_bigint in H.
    cbn [bind] in H. inversion H; subst o.
    exists F, T. split; [split; lia | reflexivity].
  - destruct (scaleQ16_number F T (NInt TWO_PI_Q16)); [| discriminate H].
    destruct (scaleQ16_number F T (NInt PI_HALF_Q16)); [| discriminate H].
    destruct (mapM (scaleQ16_number F T) (map NInt lut)); discriminate H.
Qed.

(** Conversely, every format with [0 < F < T] is accepted under the BigInt
    backing, and under the number backing when [T <= 32] (the samples of
    the table being below [2^38] in magnitude, as Q16 samples are). *)
Lemma createFixedPoint_accepts_bigint (lut : list Z) (F T : Z) :
  valid_format F T ->
  createFixedPoint lut (config F T true)
    = Return (BigIntOps
                (Big.ops F T (scaled F T TWO_PI_Q16)
                   (scaled F T PI_HALF_Q16) (map (scaled F T) lut)
                   (Z.of_nat (List.length lut)))).
Proof.
  intros [HF HT]. unfold createFixedPoint, config.
  cbn [fractionBits totalBits useBigInt orElse JS.isInteger negb orb andb].
  rewrite !leb_int.
  destruct (Z.leb_spec F 0); [lia |]. destruct (Z.leb_spec T F); [lia |].
  cbn [JS.BigInt bind].
  rewrite !scaleQ16_bigint_int, mapM_scaleQ16_bigint. reflexivity.
Qed.

Lemma mapM_scaleQ16_number (F T : Z) (lut : list Z) :
  valid_format F T -> T <= 32 ->
  Forall (fun v => Z.abs v < 2 ^ 38) lut ->
  mapM (scaleQ16_number F T) (map NInt lut)
    = Return (map NInt (map (scaled F T) lut)).
Proof.
  intros HV HT32. induction 1 as [| v r Hv _ IH]; [reflexivity |].
  simpl map. cbn [mapM].
  rewrite scaleQ16_number_small by assumption. rewrite IH. reflexivity.
Qed.

Lemma createFixedPoint_accepts_number (lut : list Z) (F T : Z) :
  valid_format F T -> T <= 32 ->
  Forall (fun v => Z.abs v < 2 ^ 38) lut ->
  createFixedPoint lut (config F T false)
    = Return (NumberOps
                (Num.ops F T (NInt (scaled F T TWO_PI_Q16))
                   (NInt (scaled F T PI_HALF_Q16))
                   (map NInt (map (scaled F T) lut))
                   (NInt (Z.of_nat (List.length lut))))).
Proof.
  intros HV HT32 Hlut. pose proof HV as [HF HT].
  unfold createFixedPoint, config.
  cbn [fractionBits totalBits useBigInt orElse JS.isInteger negb orb].
  rewrite !leb_int, gtb_int.
  destruct (Z.leb_spec F 0); [lia |]. destruct (Z.leb_spec T F); [lia |].
  destruct (Z.gtb_spec T 32); [lia |].
  cbn [andb JS.BigInt bind].
  rewrite !scaleQ16_number_small
    by (try assumption; unfold TWO_PI_Q16, PI_HALF_Q16; reflexivity).
  cbn [bind]. rewrite mapM_scaleQ16_number by assumption. reflexivity.
Qed.

(** The values of a number-backed format are doubles. *)
Lemma in_range_is_double (T v : Z) :
  1 <= T <= 32 -> in_range T v -> JS.is_double (NInt v).
Proof.
  intros HT Hv. apply round_to_double_exact. now apply (in_range_53 T).
Qed.

Lemma scaled_range (F T v : Z) : 1 <= T -> in_range T (scaled F T v).
Proof. intros. apply wrapBigInt_range. assumption. Qed.

(* ------------------------------------------------------------------ *)
(** ** Newton iteration of [isqrt] *)

Section Newton.

Variable n : Z.
Hypothesis n_ge_2 : 2 <= n.

Let s := Z.sqrt n.

Lemma sqrt_bounds : 1 <= s /\ s * s <= n /\ n < (s + 1) * (s + 1).
Proof.
  pose proof (Z.sqrt_spec n ltac:(lia)) as H. cbv zeta in H.
  fold s in H. replace (Z.succ s) with (s + 1) in H by lia.
  assert (0 < s) by (apply Z.sqrt_pos; lia). lia.
Qed.

Lemma newton_div (x : Z) : 0 < x -> newton n x = (x + n / x) / 2.
Proof.
  intros Hx. unfold newton. rewrite Z.quot_div_nonneg by lia.
  rewrite Z.shiftr_div_pow2 by lia. reflexivity.
Qed.

(** The iterate never drops below the root. *)
Lemma newton_lower (x : Z) : 0 < x -> s <= newton n x.
Proof.
  intros Hx. rewrite newton_div by assumption.
  destruct sqrt_bounds as (Hs & Hlo & Hhi).
  apply Z.div_le_lower_bound; [lia |].
  assert (2 * s - x <= n / x); [| lia].
  apply Z.div_le_lower_bound; [lia |].
  pose proof (Z.square_nonneg (s - x)). nia.
Qed.

(** Above the root, the distance to it at least halves. *)
Lemma newton_halves (x : Z) : s < x -> newton n x - s <= (x - s) / 2.
Proof.
  intros Hx. destruct sqrt_bounds as (Hs & Hlo & Hhi).
  rewrite newton_div by lia.
  assert (Hq : n / x <= s).
  { apply Z.lt_succ_r. apply Z.div_lt_upper_bound; [lia |]. nia. }
  replace ((x + n / x) / 2 - s) with ((x + n / x - 2 * s) / 2).
  - apply Z.div_le_mono; lia.
  - replace (x + n / x - 2 * s) with (x + n / x + (- s) * 2) by lia.
    rewrite Z.div_add by lia. lia.
Qed.

Lemma newton_decreases (x : Z) : s < x -> newton n x < x.
Proof.
  intros Hx. pose proof (newton_halves x Hx) as H.
  assert ((x - s) / 2 < x - s); [| lia].
  apply Z.div_lt; lia.
Qed.

(** The loop started at [x0 >= s] with [x1 = newton n x0] returns the root
    as soon as [2^fuel] exceeds the distance of [x0] to it. *)
Lemma isqrt_loop_converges (fuel : nat) :
  forall x0, s <= x0 -> x0 - s < 2 ^ Z.of_nat fuel ->
  isqrt_loop (S fuel) n x0 (newton n x0) = Some (Return s).
Proof.
  destruct sqrt_bounds as (Hs & _ & _).
  induction fuel as [| k IH]; intros x0 Hlo Hd.
  - assert (x0 = s) by (simpl in Hd; lia). subst x0.
    simpl. pose proof (newton_lower s ltac:(lia)) as Hn.
    destruct (Z.ltb_spec (newton n s) s); [lia | reflexivity].
  - destruct (Z.eq_dec x0 s) as [-> | Hne].
    + cbn [isqrt_loop]. pose proof (newton_lower s ltac:(lia)) as Hn.
      destruct (Z.ltb_spec (newton n s) s); [lia | reflexivity].
    + assert (Hx : s < x0) by lia.
      pose proof (newton_decreases x0 Hx) as Hdec.
      pose proof (newton_lower x0 ltac:(lia)) as Hlow.
      pose proof (newton_halves x0 Hx) as Hh.
      change (isqrt_loop (S (S k)) n x0 (newton n x0)) with
        (if newton n x0 <? x0 then
           match bigint_div n (newton n x0) with
           | Return q =>
               isqrt_loop (S k) n (newton n x0) (Z.shiftr (newton n x0 + q) 1)
           | Throw e => Some (Throw e)
           end
         else Some (Return x0)).
      destruct (Z.ltb_spec (newton n x0) x0); [| lia].
      unfold bigint_div.
      destruct (Z.eqb_spec (newton n x0) 0); [lia |].
      apply IH; [assumption |].
      rewrite Nat2Z.inj_succ, Z.pow_succ_r in Hd by lia.
      assert ((x0 - s) / 2 < 2 ^ Z.of_nat k); [| lia].
      apply Z.div_lt_upper_bound; lia.
Qed.

Lemma n_lt_pow2 : n - s < 2 ^ Z.of_nat (Z.to_nat (Z.log2 n) + 1).
Proof.
  destruct sqrt_bounds as (Hs & _ & _).
  pose proof (Z.log2_spec n ltac:(lia)) as [_ Hub].
  pose proof (Z.log2_nonneg n).
  rewrite Nat2Z.inj_add, Z2Nat.id by lia.
  replace (Z.log2 n + Z.of_nat 1) with (Z.succ (Z.log2 n)) by lia. lia.
Qed.

End Newton.

(** [isqrt] terminates within [isqrt_fuel n] tests of its loop condition and
    returns the floor square root; a larger budget changes nothing. *)
Lemma isqrt_correct (n : Z) (fuel : nat) :
  0 <= n -> (isqrt_fuel n <= fuel)%nat ->
  isqrt fuel n = Some (Return (Z.sqrt n)).
Proof.
  intros Hn Hf. unfold isqrt.
  destruct (Z.ltb_spec n 2) as [Hlt | Hge].
  - assert (n = 0 \/ n = 1) as [-> | ->] by lia; reflexivity.
  - unfold bigint_div. destruct (Z.eqb_spec n 0); [lia |].
    unfold isqrt_fuel in Hf.
    destruct fuel as [| fuel]; [lia |].
    apply (isqrt_loop_converges n Hge fuel n).
    + apply Z.sqrt_le_lin. lia.
    + pose proof (n_lt_pow2 n Hge) as Hb.
      eapply Z.lt_le_trans; [exact Hb |].
      apply Z.pow_le_mono_r; lia.
Qed.

(* ------------------------------------------------------------------ *)
(** ** The number backing on integer operands *)

Lemma Num_ONE (F : Z) : 0 <= F <= 1023 -> Num.ONE F = NInt (2 ^ F).
Proof. apply pow2_exact. Qed.

Lemma pow2_le_31 (T : Z) : 1 <= T <= 32 -> 0 < 2 ^ (T - 1) <= 2 ^ 31.
Proof.
  intros HT. split; [apply pow2_pos; lia | apply Z.pow_le_mono_r; lia].
Qed.

Lemma Num_MAX (T : Z) : 1 <= T <= 32 -> Num.MAX T = NInt (2 ^ (T - 1) - 1).
Proof.
  intros HT. unfold Num.MAX. rewrite pow2_exact by lia.
  apply sub_int_exact. pose proof (pow2_le_31 T HT).
  assert (2 ^ 31 < 2 ^ 53) by reflexivity. lia.
Qed.

Lemma Num_MIN (T : Z) : 1 <= T <= 32 -> Num.MIN T = NInt (- 2 ^ (T - 1)).
Proof. intros HT. unfold Num.MIN. now rewrite pow2_exact by lia. Qed.

Lemma Big_MAX (T : Z) : 1 <= T -> Big.MAX T = 2 ^ (T - 1) - 1.
Proof. intros. unfold Big.MAX. now rewrite shiftl_1 by lia. Qed.

Lemma Big_MIN (T : Z) : 1 <= T -> Big.MIN T = - 2 ^ (T - 1).
Proof. intros. unfold Big.MIN. now rewrite shiftl_1 by lia. Qed.

Lemma Num_add_int (T a b : Z) :
  1 <= T <= 32 -> Z.abs (a + b) < 2 ^ 53 ->
  Num.add T (NInt a) (NInt b) = Return (NInt (wrapBigInt T (a + b))).
Proof.
  intros HT H. unfold Num.add. cbn [assertInteger JS.isFinite JS.isInteger
    negb orb bind]. rewrite add_int_exact by assumption.
  now apply wrapNumber_int.
Qed.

Lemma Num_sub_int (T a b : Z) :
  1 <= T <= 32 -> Z.abs (a - b) < 2 ^ 53 ->
  Num.sub T (NInt a) (NInt b) = Return (NInt (wrapBigInt T (a - b))).
Proof.
  intros HT H. unfold Num.sub. cbn [assertInteger JS.isFinite JS.isInteger
    negb orb bind]. rewrite sub_int_exact by assumption.
  now apply wrapNumber_int.
Qed.

Lemma Num_negate_int (T a : Z) :
  1 <= T <= 32 ->
  Num.negate T (NInt a) = Return (NInt (wrapBigInt T (- a))).
Proof. intros HT. unfold Num.negate. simpl. now apply wrapNumber_int. Qed.

Lemma Num_abs_int (T a : Z) :
  1 <= T <= 32 ->
  Num.abs T (NInt a) =
    Return (NInt (if a <? 0 then wrapBigInt T (- a) else a)).
Proof.
  intros HT. unfold Num.abs.
  cbn [assertInteger JS.isFinite JS.isInteger negb orb bind].
  rewrite ltb_int. destruct (a <? 0); [| reflexivity].
  simpl JS.neg. now apply wrapNumber_int.
Qed.

(** Sums and differences of two values of a format of at most 32 bits
    are far below [2^53]. *)
Lemma in_range_sum (T a b : Z) :
  1 <= T <= 32 -> in_range T a -> in_range T b ->
  Z.abs (a + b) < 2 ^ 53 /\ Z.abs (a - b) < 2 ^ 53.
Proof.
  intros HT [La Ha] [Lb Hb]. pose proof (pow2_le_31 T HT).
  assert (2 ^ 31 + 2 ^ 31 < 2 ^ 53) by reflexivity. lia.
Qed.

Lemma trunc_strip_aux (fuel : nat) :
  forall m k, 0 <= k -> (Z.to_nat k < fuel)%nat ->
  JS.trunc (JS.strip_aux fuel m k) = NInt (Z.quot m (2 ^ k)).
Proof.
  induction fuel as [| f IH]; intros m k Hk Hf; [lia |].
  cbn [JS.strip_aux].
  destruct (Z.leb_spec k 0) as [H0 | Hpos].
  - assert (k = 0) by lia. subst k. simpl. now rewrite Z.quot_1_r.
  - destruct (Z.even m) eqn:Ev.
    + rewrite IH by lia. f_equal.
      apply Z.even_spec in Ev. destruct Ev as [h ->].
      rewrite Z.mul_comm, Z.div_mul by lia.
      rewrite (pow2_split k) by lia.
      rewrite (Z.mul_comm h 2).
      pose proof (pow2_pos (k - 1) ltac:(lia)).
      rewrite Z.quot_mul_cancel_l by lia. reflexivity.
    + cbn [JS.trunc]. now rewrite Z2Pos.id by lia.
Qed.

(** [Math.trunc(a / ONE)] on an integer double is the truncated quotient. *)
Lemma Num_toInt_int (F a : Z) :
  0 < F <= 1000 -> Z.abs a < 2 ^ 53 ->
  Num.toInt F (NInt a) = NInt (Z.quot a (2 ^ F)).
Proof.
  intros HF Ha. unfold Num.toInt, JS.div_pow2, JS.round_to_double.
  pose proof (bitlen_le (Z.abs a) 53 ltac:(lia) ltac:(lia)) as Hb.
  assert (HE : Z.max (- F + JS.bitlen (Z.abs a) - 53) (-1074) <= - F) by lia.
  apply Z.leb_le in HE. rewrite HE.
  assert (HP : 2 ^ (- F) = 0) by (apply Z.pow_neg_r; lia).
  rewrite HP, Z.mul_0_r.
  change (2 ^ 1024 <=? 0) with false. cbv iota.
  unfold JS.dyadic.
  destruct (Z.leb_spec 0 (- F)); [lia |].
  destruct (Z.eqb_spec a 0) as [-> | Hne].
  - simpl. now rewrite Z.quot_0_l by (pose proof (pow2_pos F); lia).
  - rewrite trunc_strip_aux by lia. now rewrite Z.opp_involutive.
Qed.

(** [Number(b)] is an integer double unless it overflows. *)
Lemma Number_int (z : Z) :
  Z.abs z < 2 ^ 1000 -> exists z', JS.Number z = NInt z'.
Proof.
  intros Hz. unfold JS.Number, JS.round_to_double.
  set (a := Z.abs z) in *. set (bl := JS.bitlen a).
  assert (Hlt : 2 ^ 1000 < 2 ^ 1024) by (apply Z.pow_lt_mono_r; lia).
  destruct (Z.leb_spec (Z.max (0 + bl - 53) (-1074)) 0) as [HE | HE].
  - change (2 ^ 0) with 1. rewrite Z.mul_1_r.
    destruct (Z.leb_spec (2 ^ 1024) a); [lia |].
    unfold JS.dyadic. simpl. eauto.
  - set (E := Z.max (0 + bl - 53) (-1074)) in *.
    replace (E - 0) with E by lia.
    destruct (Z.leb_spec 0 E); [| lia].
    assert (Ha : 0 < a).
    { unfold bl, JS.bitlen in E. subst E.
      destruct (Z.eqb_spec a 0); lia. }
    assert (HEa : 2 ^ E <= a).
    { unfold bl, JS.bitlen in E. subst E.
      destruct (Z.eqb_spec a 0); [lia |].
      pose proof (Z.log2_spec a Ha) as [Hl _].
      eapply Z.le_trans; [| exact Hl]. apply Z.pow_le_mono_r; lia. }
    rewrite Z.shiftr_div_pow2 by lia.
    pose proof (pow2_pos E ltac:(lia)) as PE.
    assert (Hq : a / 2 ^ E * 2 ^ E <= a).
    { pose proof (Z.mul_div_le a (2 ^ E) PE). lia. }
    match goal with
    | |- context [if ?c then a / 2 ^ E + 1 else a / 2 ^ E] =>
        set (q' := if c then a / 2 ^ E + 1 else a / 2 ^ E)
    end.
    assert (Hq' : q' * 2 ^ E <= a + 2 ^ E).
    { subst q'. match goal with |- context [if ?c then _ else _] =>
        destruct c end; lia. }
    destruct (Z.leb_spec (2 ^ 1024) (q' * 2 ^ E)); [lia |].
    unfold JS.dyadic. destruct (Z.leb_spec 0 E); [eauto | lia].
Qed.

(** [wrapNumber] of a bigint result: always a value of the format. *)
Lemma wrapNumber_Number (T z : Z) :
  1 <= T <= 32 -> Z.abs z < 2 ^ 1000 ->
  exists w, wrapNumber T (JS.Number z) = Return (NInt w) /\ in_range T w.
Proof.
  intros HT Hz. destruct (Number_int z Hz) as [z' ->].
  rewrite wrapNumber_int by assumption.
  eexists; split; [reflexivity | apply wrapBigInt_range; lia].
Qed.

Lemma wrapNumber_Number_exact (T z : Z) :
  1 <= T <= 32 -> Z.abs z < 2 ^ 53 ->
  wrapNumber T (JS.Number z) = Return (NInt (wrapBigInt T z)).
Proof.
  intros HT Hz. rewrite Number_exact by assumption.
  now apply wrapNumber_int.
Qed.

Lemma pow2_1000 (n : Z) : 0 <= n <= 62 -> 2 ^ n < 2 ^ 1000.
Proof. intros. apply Z.pow_lt_mono_r; lia. Qed.

(** Products and shifted operands of a number-backed format fit 63 bits. *)
Lemma in_range_abs (T a : Z) :
  1 <= T <= 32 -> in_range T a -> Z.abs a <= 2 ^ 31.
Proof. intros HT [Lo Hi]. pose proof (pow2_le_31 T HT). lia. Qed.

Lemma shiftr_abs_le (m k : Z) : 0 <= k -> Z.abs (Z.shiftr m k) <= Z.abs m.
Proof.
  intros Hk. rewrite Z.shiftr_div_pow2 by assumption.
  pose proof (pow2_pos k Hk) as P.
  destruct (Z.le_gt_cases 0 m) as [Hp | Hn].
  - rewrite !Z.abs_eq; try lia.
    + apply Z.div_le_upper_bound; nia.
    + apply Z.div_pos; lia.
  - assert (m <= m / 2 ^ k < 0).
    { split; [apply Z.div_le_lower_bound; nia |].
      apply Z.div_lt_upper_bound; lia. }
    rewrite !Z.abs_neq; lia.
Qed.

Lemma quot_abs_le (m b : Z) : b <> 0 -> Z.abs (Z.quot m b) <= Z.abs m.
Proof.
  intros Hb. rewrite <- Z.quot_abs by assumption.
  pose proof (Z.abs_nonneg m). pose proof (Z.abs_pos b).
  apply Z.quot_le_upper_bound; [lia |]. nia.
Qed.

Lemma rem_abs_lt (m b : Z) : b <> 0 -> Z.abs (Z.rem m b) < Z.abs b.
Proof. intros Hb. apply Z.rem_bound_abs. assumption. Qed.

(* ------------------------------------------------------------------ *)
(** ** Wraparound at the ends of the range *)

Lemma Big_wraps_around (F T tp ph : Z) (l : list Z) (L : Z) :
  valid_format F T -> wraps_around (Big.ops F T tp ph l L).
Proof.
  intros [HF HT]. unfold wraps_around, Big.ops.
  cbn [FP.add FP.sub FP.MAX FP.MIN FP.EPSILON].
  unfold Big.add, Big.sub, Big.EPSILON.
  rewrite Big_MAX, Big_MIN by lia.
  now rewrite wrapBigInt_max_succ, wrapBigInt_min_pred by lia.
Qed.

Lemma Num_wraps_around (F T : Z) (tp ph : number) (l : list number)
      (L : number) :
  valid_format F T -> T <= 32 -> wraps_around (Num.ops F T tp ph l L).
Proof.
  intros [HF HT] HT32. unfold wraps_around, Num.ops.
  cbn [FP.add FP.sub FP.MAX FP.MIN FP.EPSILON].
  unfold Num.EPSILON. rewrite Num_MAX, Num_MIN by lia.
  pose proof (pow2_le_31 T ltac:(lia)) as P.
  assert (2 ^ 31 + 1 < 2 ^ 53) by reflexivity.
  rewrite Num_add_int, Num_sub_int by lia.
  now rewrite wrapBigInt_max_succ, wrapBigInt_min_pred by lia.
Qed.

(** C3. For every configuration [createFixedPoint] accepts, under either
    backing, [add(MAX, EPSILON)] returns [MIN] and [sub(MIN, EPSILON)]
    returns [MAX]: overflow wraps two's-complement at [totalBits], it does
    not saturate and does not throw. *)
Theorem wraparound_every_format
        (lut : list Z) (cfg : FixedPointConfig) (r : AnyOps) :
  createFixedPoint lut cfg = Return r ->
  match r with
  | NumberOps o => wraps_around o
  | BigIntOps o => wraps_around o
  end.
Proof.
  intros H. destruct r as [o | o].
  - apply createFixedPoint_number in H.
    destruct H as (F & T & l & HV & HT & _ & _ & ->).
    now apply Num_wraps_around.
  - apply createFixedPoint_bigint in H.
    destruct H as (F & T & HV & ->).
    now apply Big_wraps_around.
Qed.

Lemma wraparound_witness :
  createFixedPoint sample_lut default_config
    = Return (NumberOps (number_ops 16 32)) /\
  wraps_around (number_ops 16 32).
Proof.
  split; [reflexivity |].
  exact (wraparound_every_format sample_lut default_config
           (NumberOps (number_ops 16 32)) eq_refl).
Defined.

(** The same instance on the BigInt backing, at 64 bits. *)
Example wraparound_bigint_64 : wraps_around (bigint_ops 16 64).
Proof. apply Big_wraps_around. split; reflexivity. Qed.

(* ------------------------------------------------------------------ *)
(** ** Round trip through [fromInt] and [toInt] *)

Lemma Big_ONE (F : Z) : 0 <= F -> Big.ONE F = 2 ^ F.
Proof. apply shiftl_1. Qed.

Lemma Big_fromInt_int (F T n : Z) :
  valid_format F T ->
  Big.fromInt F T (NInt n) = Return (wrapBigInt T (n * 2 ^ F)).
Proof.
  intros [HF HT]. unfold Big.fromInt. cbn [JS.BigInt bind].
  now rewrite Z.shiftl_mul_pow2 by lia.
Qed.

Lemma Num_fromInt_int (F T n : Z) :
  valid_format F T -> T <= 32 -> Z.abs (n * 2 ^ F) < 2 ^ 53 ->
  Num.fromInt F T (NInt n) = Return (NInt (wrapBigInt T (n * 2 ^ F))).
Proof.
  intros [HF HT] HT32 Hn. unfold Num.fromInt.
  cbn [assertInteger JS.isFinite JS.isInteger negb orb bind].
  rewrite Num_ONE by lia. rewrite mul_int_exact by assumption.
  apply wrapNumber_int. lia.
Qed.

Lemma Big_roundtrip (F T tp ph : Z) (l : list Z) (L n : Z) :
  valid_format F T -> in_range T (n * 2 ^ F) ->
  roundtrip (Big.ops F T tp ph l L) (NInt n) = Return n.
Proof.
  intros HV Hn. unfold roundtrip, Big.ops. cbn [FP.fromInt FP.toInt].
  rewrite Big_fromInt_int by assumption. cbn [bind].
  destruct HV as [HF HT].
  rewrite wrapBigInt_id by (assumption || lia).
  unfold Big.toInt. rewrite Big_ONE by lia.
  pose proof (pow2_pos F ltac:(lia)).
  now rewrite Z.quot_mul by lia.
Qed.

Lemma Num_roundtrip (F T : Z) (tp ph : number) (l : list number)
      (L : number) (n : Z) :
  valid_format F T -> T <= 32 -> in_range T (n * 2 ^ F) ->
  roundtrip (Num.ops F T tp ph l L) (NInt n) = Return (NInt n).
Proof.
  intros HV HT32 Hn. unfold roundtrip, Num.ops. cbn [FP.fromInt FP.toInt].
  pose proof HV as [HF HT].
  pose proof (in_range_53 T _ ltac:(lia) Hn) as H53.
  rewrite Num_fromInt_int by assumption. cbn [bind].
  rewrite wrapBigInt_id by (assumption || lia).
  rewrite Num_toInt_int by (assumption || lia).
  pose proof (pow2_pos F ltac:(lia)).
  now rewrite Z.quot_mul by lia.
Qed.

(** C5. For every accepted format and every integer [n] whose scaled value
    [n * 2^fractionBits] lies in [[MIN, MAX]], [toInt(fromInt(n))] returns
    [n], under either backing. *)
Theorem toInt_fromInt_roundtrip
        (lut : list Z) (cfg : FixedPointConfig) (r : AnyOps) (n : Z) :
  createFixedPoint lut cfg = Return r ->
  match r with
  | NumberOps o =>
      in_range (FP.TOTAL_BITS o) (n * 2 ^ FP.FRACTION_BITS o) ->
      roundtrip o (NInt n) = Return (NInt n)
  | BigIntOps o =>
      in_range (FP.TOTAL_BITS o) (n * 2 ^ FP.FRACTION_BITS o) ->
      roundtrip o (NInt n) = Return n
  end.
Proof.
  intros H. destruct r as [o | o].
  - apply createFixedPoint_number in H.
    destruct H as (F & T & l & HV & HT & _ & _ & ->).
    cbn [FP.TOTAL_BITS FP.FRACTION_BITS Num.ops]. intros Hn.
    now apply Num_roundtrip.
  - apply createFixedPoint_bigint in H.
    destruct H as (F & T & HV & ->).
    cbn [FP.TOTAL_BITS FP.FRACTION_BITS Big.ops]. intros Hn.
    now apply Big_roundtrip.
Qed.

Lemma toInt_fromInt_roundtrip_witness :
  createFixedPoint sample_lut default_config
    = Return (NumberOps (number_ops 16 32)) /\
  in_range 32 (-1024 * 2 ^ 16) /\
  roundtrip (number_ops 16 32) (NInt (-1024)) = Return (NInt (-1024)).
Proof.
  assert (R : in_range 32 (-1024 * 2 ^ 16)) by (unfold in_range; simpl; lia).
  split; [reflexivity |]. split; [exact R |].
  exact (toInt_fromInt_roundtrip sample_lut default_config
           (NumberOps (number_ops 16 32)) (-1024) eq_refl R).
Defined.

(* ------------------------------------------------------------------ *)
(** ** Square root *)


Lemma Big_sqrt_nonneg (F T : Z) (fuel : nat) (a : Z) :
  valid_format F T -> 0 <= a -> (isqrt_fuel (a * 2 ^ F) <= fuel)%nat ->
  Big.sqrt F T fuel a = Some (Return (wrapBigInt T (Z.sqrt (a * 2 ^ F)))).
Proof.
  intros [HF HT] Ha Hfuel. unfold Big.sqrt.
  destruct (Z.ltb_spec a 0); [lia |].
  rewrite Big_ONE by lia.
  pose proof (pow2_pos F ltac:(lia)).
  rewrite isqrt_correct by (assumption || nia). reflexivity.
Qed.


Lemma Num_sqrt_nonneg (F T : Z) (fuel : nat) (a : Z) :
  valid_format F T -> T <= 32 -> in_range T a -> 0 <= a ->
  (isqrt_fuel (a * 2 ^ F) <= fuel)%nat ->
  Num.sqrt F T fuel (NInt a)
    = Some (Return (NInt (wrapBigInt T (Z.sqrt (a * 2 ^ F))))).
Proof.
  intros [HF HT] HT32 Hr Ha Hfuel. unfold Num.sqrt.
  cbn [assertInteger JS.isFinite JS.isInteger negb orb pbind].
  rewrite ltb_int. destruct (Z.ltb_spec a 0); [lia |].
  rewrite Num_ONE by lia. cbn [JS.BigInt pbind].
  pose proof (pow2_pos F ltac:(lia)) as PF.
  rewrite isqrt_correct by (assumption || nia). cbn [pbind].
  rewrite wrapNumber_Number_exact; [reflexivity | lia |].
  pose proof (in_range_abs T a ltac:(lia) Hr) as Habs.
  assert (HF31 : 2 ^ F <= 2 ^ 31) by (apply Z.pow_le_mono_r; lia).
  assert (Hs : Z.sqrt (a * 2 ^ F) <= a * 2 ^ F)
    by (apply Z.sqrt_le_lin; nia).
  pose proof (Z.sqrt_nonneg (a * 2 ^ F)).
  rewrite Z.abs_eq by assumption.
  assert (2 ^ 31 * 2 ^ 31 < 2 ^ 53 * 2 ^ 53) by reflexivity.
  apply Z.sqrt_lt_square; [nia | lia |]. nia.
Qed.







(* ------------------------------------------------------------------ *)
(** ** Sine and cosine *)

(** Normalising by [%] and one added period is the floor modulus. *)
Lemma rem_normalise (theta tp : Z) :
  0 < tp ->
  (if Z.rem theta tp <? 0 then Z.rem theta tp + tp else Z.rem theta tp)
    = theta mod tp.
Proof.
  intros Htp.
  pose proof (Z.quot_rem' theta tp) as E.
  pose proof (Z.rem_bound_abs theta tp ltac:(lia)) as B.
  destruct (Z.ltb_spec (Z.rem theta tp) 0).
  - apply (Z.mod_unique theta tp (Z.quot theta tp - 1)); lia.
  - apply (Z.mod_unique theta tp (Z.quot theta tp)); lia.
Qed.

Lemma index_bounds (t tp L : Z) :
  0 < tp -> 0 < L -> 0 <= t < tp -> 0 <= Z.quot (t * L) tp < L.
Proof.
  intros Htp HL Ht. rewrite Z.quot_div_nonneg by nia. split.
  - apply Z.div_pos; nia.
  - apply Z.div_lt_upper_bound; nia.
Qed.

Lemma Big_sin_index_pos (tp L theta : Z) :
  0 < tp -> 0 < L ->
  Big.sin_index tp L theta = Return (Z.quot (theta mod tp * L) tp).
Proof.
  intros Htp HL. unfold Big.sin_index, bigint_rem, bigint_div.
  destruct (Z.eqb_spec tp 0); [lia |]. cbn [bind].
  now rewrite rem_normalise by assumption.
Qed.

Lemma Num_sin_index_pos (tp L theta : Z) :
  0 < tp < 2 ^ 31 -> 0 < L < 2 ^ 32 ->
  Num.sin_index (NInt tp) (NInt L) (NInt theta)
    = Return (NInt (Z.quot (theta mod tp * L) tp)).
Proof.
  intros Htp HL. unfold Num.sin_index.
  cbn [assertInteger JS.isFinite JS.isInteger negb orb bind].
  rewrite rem_int by lia. rewrite ltb_int.
  pose proof (Z.rem_bound_abs theta tp ltac:(lia)) as B.
  assert (H53 : 2 ^ 31 + 2 ^ 31 < 2 ^ 53) by reflexivity.
  assert (Et : (if Z.rem theta tp <? 0
                then JS.add (NInt (Z.rem theta tp)) (NInt tp)
                else NInt (Z.rem theta tp)) = NInt (theta mod tp)).
  { rewrite <- rem_normalise by lia.
    destruct (Z.ltb_spec (Z.rem theta tp) 0); [| reflexivity].
    apply add_int_exact. lia. }
  rewrite Et. cbn [JS.BigInt bind]. unfold bigint_div.
  destruct (Z.eqb_spec tp 0); [lia |]. cbn [bind].
  rewrite Number_exact; [reflexivity |].
  pose proof (Z.mod_pos_bound theta tp ltac:(lia)) as M.
  pose proof (index_bounds (theta mod tp) tp L ltac:(lia) ltac:(lia) M).
  assert (2 ^ 32 < 2 ^ 53) by reflexivity. lia.
Qed.

Lemma array_get_map_NInt (l : list Z) (i : Z) :
  array_get (map NInt l) (NInt i) = option_map NInt (array_get l (NInt i)).
Proof.
  unfold array_get. destruct (i <? 0); [reflexivity |].
  apply nth_error_map.
Qed.

Lemma array_get_in_bounds {A : Type} (l : list A) (i : Z) :
  0 <= i < Z.of_nat (List.length l) ->
  exists v, array_get l (NInt i) = Some v /\ In v l.
Proof.
  intros Hi. unfold array_get. destruct (Z.ltb_spec i 0); [lia |].
  destruct (nth_error l (Z.to_nat i)) as [v |] eqn:E.
  - exists v. split; [reflexivity |]. eapply nth_error_In; eauto.
  - apply nth_error_None in E. lia.
Qed.

(** With a positive period the lookup of [sin] hits the table. *)
Lemma Big_sin_pos (tp : Z) (l : list Z) (theta : Z) :
  0 < tp -> l <> [] -> array_sized l ->
  exists v, Big.sin tp l (Z.of_nat (List.length l)) theta = Return (Some v)
            /\ In v l.
Proof.
  intros Htp Hne Hsz. unfold array_sized in Hsz.
  set (L := Z.of_nat (List.length l)) in *.
  assert (HL : 0 < L) by (destruct l; [congruence | subst L; simpl; lia]).
  unfold Big.sin. rewrite Big_sin_index_pos by assumption. cbn [bind].
  pose proof (Z.mod_pos_bound theta tp Htp) as M.
  pose proof (index_bounds _ tp L Htp HL M) as I.
  unfold bigint_rem. destruct (Z.eqb_spec L 0); [lia |]. cbn [bind].
  rewrite Z.rem_small by assumption.
  rewrite Number_exact
    by (assert (2 ^ 32 < 2 ^ 53) by reflexivity; lia).
  destruct (array_get_in_bounds l _ I) as (v & E & Hin).
  exists v. now rewrite E.
Qed.

Lemma Num_sin_pos (tp : Z) (l : list Z) (theta : Z) :
  0 < tp < 2 ^ 31 -> l <> [] -> array_sized l ->
  exists v,
    Num.sin (NInt tp) (map NInt l) (NInt (Z.of_nat (List.length l)))
      (NInt theta) = Return (Some (NInt v)) /\ In v l.
Proof.
  intros Htp Hne Hsz. unfold array_sized in Hsz.
  set (L := Z.of_nat (List.length l)) in *.
  assert (HL : 0 < L) by (destruct l; [congruence | subst L; simpl; lia]).
  unfold Num.sin. rewrite Num_sin_index_pos by lia. cbn [bind].
  pose proof (Z.mod_pos_bound theta tp ltac:(lia)) as M.
  pose proof (index_bounds _ tp L ltac:(lia) HL M) as I.
  rewrite rem_int by lia. rewrite Z.rem_small by assumption.
  rewrite array_get_map_NInt.
  destruct (array_get_in_bounds l _ I) as (v & E & Hin).
  exists v. now rewrite E.
Qed.

Lemma Big_cos_sin (F T tp ph : Z) (l : list Z) (L theta : Z) :
  Big.cos T tp ph l L theta = Big.sin tp l L (wrapBigInt T (theta + ph)).
Proof. reflexivity. Qed.

Lemma Num_cos_sin (T tp ph : Z) (l : list number) (L : number) (theta : Z) :
  1 <= T <= 32 -> in_range T theta -> in_range T ph ->
  Num.cos T (NInt tp) (NInt ph) l L (NInt theta)
    = Num.sin (NInt tp) l L (NInt (wrapBigInt T (theta + ph))).
Proof.
  intros HT Hth Hph. unfold Num.cos.
  rewrite add_int_exact by (apply (in_range_sum T); assumption).
  rewrite wrapNumber_int by assumption. reflexivity.
Qed.

(** C8. For every accepted format and every in-range [theta],
    [cos(theta)] is [sin] applied to [theta + PI_HALF] wrapped
    two's-complement to [totalBits]: the two calls agree in every outcome,
    value, [undefined] or exception.  When the sum does not overflow the
    wrap is the identity and [cos(theta) = sin(theta + PI_HALF)]. *)
Theorem cos_is_quarter_shifted_sin
        (lut : list Z) (cfg : FixedPointConfig) (r : AnyOps) (theta : Z) :
  createFixedPoint lut cfg = Return r ->
  match r with
  | NumberOps o =>
      in_range (FP.TOTAL_BITS o) theta ->
      FP.cos o (NInt theta)
        = FP.sin o (NInt (wrapBigInt (FP.TOTAL_BITS o)
                            (theta + PI_HALF_of o)))
      /\ (in_range (FP.TOTAL_BITS o) (theta + PI_HALF_of o) ->
          FP.cos o (NInt theta) = FP.sin o (NInt (theta + PI_HALF_of o)))
  | BigIntOps o =>
      in_range (FP.TOTAL_BITS o) theta ->
      FP.cos o theta
        = FP.sin o (wrapBigInt (FP.TOTAL_BITS o) (theta + PI_HALF_of o))
      /\ (in_range (FP.TOTAL_BITS o) (theta + PI_HALF_of o) ->
          FP.cos o theta = FP.sin o (theta + PI_HALF_of o))
  end.
Proof.
  intros H. destruct r as [o | o].
  - apply createFixedPoint_number in H.
    destruct H as (F & T & l & [HF HT] & HT32 & _ & _ & ->).
    unfold PI_HALF_of.
    cbn [FP.TOTAL_BITS FP.FRACTION_BITS FP.sin FP.cos Num.ops].
    intros Hth.
    assert (E : Num.cos T (NInt (scaled F T TWO_PI_Q16))
                  (NInt (scaled F T PI_HALF_Q16)) (map NInt l)
                  (NInt (Z.of_nat (List.length lut))) (NInt theta)
                = Num.sin (NInt (scaled F T TWO_PI_Q16)) (map NInt l)
                    (NInt (Z.of_nat (List.length lut)))
                    (NInt (wrapBigInt T (theta + scaled F T PI_HALF_Q16)))).
    { apply Num_cos_sin; [lia | assumption | apply scaled_range; lia]. }
    split; [exact E |].
    intros Hs. rewrite E. now rewrite wrapBigInt_id by (assumption || lia).
  - apply createFixedPoint_bigint in H.
    destruct H as (F & T & [HF HT] & ->).
    unfold PI_HALF_of.
    cbn [FP.TOTAL_BITS FP.FRACTION_BITS FP.sin FP.cos Big.ops].
    intros Hth. split; [reflexivity |].
    intros Hs. unfold Big.cos.
    now rewrite wrapBigInt_id by (assumption || lia).
Qed.

Lemma cos_is_quarter_shifted_sin_witness :
  createFixedPoint sample_lut default_config
    = Return (NumberOps (number_ops 16 32)) /\
  in_range 32 2147483647 /\
  FP.cos (number_ops 16 32) (NInt 2147483647)
    = FP.sin (number_ops 16 32) (NInt (-2147380705)).
Proof.
  assert (R : in_range 32 2147483647) by (unfold in_range; simpl; lia).
  split; [reflexivity |]. split; [exact R |].
  exact (proj1 (cos_is_quarter_shifted_sin sample_lut default_config
                  (NumberOps (number_ops 16 32)) 2147483647 eq_refl R)).
Defined.

(** The tables [createFixedPoint] builds are the table of Q16 samples
    mapped through [scaleQ16], sample by sample. *)
Lemma mapM_nth_error {A B : Type} (f : A -> result B) :
  forall xs ys i y, mapM f xs = Return ys -> nth_error ys i = Some y ->
  exists x, nth_error xs i = Some x /\ f x = Return y.
Proof.
  induction xs as [| x r IH]; intros ys i y H Hy; simpl in H.
  - inversion H; subst. destruct i; discriminate Hy.
  - destruct (f x) as [y0 | e] eqn:Ex; [| discriminate H]. simpl in H.
    destruct (mapM f r) as [l | e] eqn:Er; [| discriminate H]. simpl in H.
    inversion H; subst; clear H. destruct i as [| i]; simpl in Hy.
    + inversion Hy; subst. exists x. now split.
    + destruct (IH l i y eq_refl Hy) as (x' & Hx & Hf).
      exists x'. now split.
Qed.

Lemma createFixedPoint_number_table
      (lut : list Z) (config : FixedPointConfig)
      (o : FP.FixedPointOps number) :
  createFixedPoint lut config = Return (NumberOps o) ->
  exists F T l,
    valid_format F T /\ T <= 32 /\
    mapM (scaleQ16_number F T) (map NInt lut) = Return (map NInt l) /\
    List.length l = List.length lut /\
    o = Num.ops F T (NInt (scaled F T TWO_PI_Q16))
          (NInt (scaled F T PI_HALF_Q16)) (map NInt l)
          (NInt (Z.of_nat (List.length lut))).
Proof.
  unfold createFixedPoint. intros H.
  destruct (orElse (fractionBits config) (NInt DEFAULT_FRACTION_BITS))
    as [F | | |]; try discriminate H.
  destruct (orElse (totalBits config) (NInt DEFAULT_TOTAL_BITS))
    as [T | | |]; try discriminate H.
  simpl negb in H. simpl orb in H. cbv iota in H.
  rewrite !leb_int, gtb_int in H.
  destruct (Z.leb_spec F 0) as [| HF]; [discriminate H |].
  destruct (Z.leb_spec T F) as [| HT]; [discriminate H |].
  assert (Hbig : orElse (useBigInt config) (T >? 32) = false -> T <= 32).
  { intros Hb. destruct (useBigInt config) as [[|] |]; simpl in *;
      try discriminate; destruct (Z.gtb_spec T 32); try discriminate; lia. }
  destruct ((match useBigInt config with Some false => true | _ => false end)
            && (T >? 32))%bool; [discriminate H |].
  cbn [JS.BigInt bind] in H.
  destruct (orElse (useBigInt config) (T >? 32)) eqn:Eu.
  { rewrite !scaleQ16_bigint_int in H. cbn [bind] in H.
    destruct (mapM _ _); simpl in H; discriminate H. }
  specialize (Hbig eq_refl).
  assert (HV : valid_format F T) by (split; lia).
  rewrite !scaleQ16_number_small in H
    by (try assumption; unfold TWO_PI_Q16, PI_HALF_Q16; reflexivity).
  cbn [bind] in H.
  destruct (mapM (scaleQ16_number F T) (map NInt lut)) as [sinLut | e] eqn:E3;
    [| discriminate H].
  cbn [bind] in H. inversion H; subst o; clear H.
  assert (HT32 : 1 <= T <= 32) by lia.
  pose proof E3 as E4.
  apply (mapM_inv _ (fun y => exists w, y = NInt w /\ in_range T w)) in E4.
  2:{ intros a b Hab. destruct a as [v | | |];
        try (unfold scaleQ16_number in Hab;
             destruct (0 <? F - DEFAULT_FRACTION_BITS);
             destruct (F - DEFAULT_FRACTION_BITS <? 0);
             simpl in Hab; discriminate Hab).
      eapply scaleQ16_number_inv; eauto. }
  destruct E4 as [Hall Hlen]. rewrite length_map in Hlen.
  destruct (Forall_NInt _ _ Hall) as (l & -> & Hl).
  rewrite length_map in Hlen.
  exists F, T, l.
  repeat (split; [assumption || reflexivity |]). reflexivity.
Qed.

(** With a positive period, [sin] is the lookup at the index
    [floor((theta mod TWO_PI) * LUT_SIZE / TWO_PI)]. *)
Lemma Big_sin_at_index (tp L : Z) (l : list Z) (theta : Z) :
  0 < tp -> 0 < L < 2 ^ 32 ->
  Big.sin tp l L theta
    = Return (array_get l (NInt ((theta mod tp * L) / tp))).
Proof.
  intros Htp HL. unfold Big.sin.
  rewrite Big_sin_index_pos by lia. cbn [bind].
  pose proof (Z.mod_pos_bound theta tp Htp) as M.
  pose proof (index_bounds _ tp L Htp ltac:(lia) M) as I.
  unfold bigint_rem. destruct (Z.eqb_spec L 0); [lia |]. cbn [bind].
  rewrite Z.rem_small by assumption.
  rewrite Number_exact
    by (assert (2 ^ 32 < 2 ^ 53) by reflexivity; lia).
  now rewrite Z.quot_div_nonneg by nia.
Qed.

Lemma Num_sin_at_index (tp L : Z) (l : list number) (theta : Z) :
  0 < tp < 2 ^ 31 -> 0 < L < 2 ^ 32 ->
  Num.sin (NInt tp) l (NInt L) (NInt theta)
    = Return (array_get l (NInt ((theta mod tp * L) / tp))).
Proof.
  intros Htp HL. unfold Num.sin.
  rewrite Num_sin_index_pos by lia. cbn [bind].
  pose proof (Z.mod_pos_bound theta tp ltac:(lia)) as M.
  pose proof (index_bounds _ tp L ltac:(lia) ltac:(lia) M) as I.
  rewrite rem_int by lia. rewrite Z.rem_small by assumption.
  now rewrite Z.quot_div_nonneg by nia.
Qed.

(** C10. For every accepted format whose rescaled [TWO_PI] is positive,
    over a non-empty table, and for every integer [theta] (every argument
    [sin] accepts), the index [sin] computes is
    [idx = floor((theta mod TWO_PI) * LUT_SIZE / TWO_PI)]; it lies in
    [[0, LUT_SIZE)], the final [% LUT_SIZE] leaves it unchanged, and
    [sin(theta)] returns the sample at [idx] of the table of the format:
    [scaleQ16] of the sample at [idx] of the table of Q16 samples. *)
Theorem sin_index_within_table
        (lut : list Z) (cfg : FixedPointConfig) (r : AnyOps) (theta : Z) :
  createFixedPoint lut cfg = Return r ->
  lut <> [] -> array_sized lut ->
  let L := Z.of_nat (List.length lut) in
  match r with
  | NumberOps o =>
      0 < TWO_PI_of o ->
      exists idx,
        Num.sin_index (NInt (TWO_PI_of o)) (NInt L) (NInt theta)
          = Return (NInt idx) /\
        idx = (theta mod TWO_PI_of o * L) / TWO_PI_of o /\
        0 <= idx < L /\
        JS.rem (NInt idx) (NInt L) = NInt idx /\
        exists q v,
          nth_error lut (Z.to_nat idx) = Some q /\
          scaleQ16_number (FP.FRACTION_BITS o) (FP.TOTAL_BITS o) (NInt q)
            = Return v /\
          FP.sin o (NInt theta) = Return (Some v)
  | BigIntOps o =>
      0 < TWO_PI_of o ->
      exists idx,
        Big.sin_index (TWO_PI_of o) L theta = Return idx /\
        idx = (theta mod TWO_PI_of o * L) / TWO_PI_of o /\
        0 <= idx < L /\
        bigint_rem idx L = Return idx /\
        exists q v,
          nth_error lut (Z.to_nat idx) = Some q /\
          scaleQ16_bigint (FP.FRACTION_BITS o) (FP.TOTAL_BITS o) (NInt q)
            = Return v /\
          FP.sin o theta = Return (Some v)
  end.
Proof.
  intros H Hne Hsz L.
  assert (HL : 0 < L) by (destruct lut; [congruence | subst L; simpl; lia]).
  unfold array_sized in Hsz. fold L in Hsz.
  destruct r as [o | o].
  - apply createFixedPoint_number_table in H.
    destruct H as (F & T & l & [HF HT] & HT32 & Htab & Hlen & ->).
    unfold TWO_PI_of. cbn [FP.TOTAL_BITS FP.FRACTION_BITS FP.sin Num.ops].
    set (tp := scaled F T TWO_PI_Q16). intros Htp.
    assert (Htp31 : 0 < tp < 2 ^ 31).
    { pose proof (scaled_range F T TWO_PI_Q16 ltac:(lia)) as [_ Hi].
      fold tp in Hi. pose proof (pow2_le_31 T ltac:(lia)). lia. }
    pose proof (Z.mod_pos_bound theta tp ltac:(lia)) as M.
    pose proof (index_bounds _ tp L ltac:(lia) HL M) as I.
    rewrite Z.quot_div_nonneg in I by nia.
    exists ((theta mod tp * L) / tp).
    split; [rewrite <- Z.quot_div_nonneg by nia;
            apply Num_sin_index_pos; lia |].
    split; [reflexivity |].
    split; [exact I |].
    split; [rewrite rem_int by lia; now rewrite Z.rem_small |].
    fold L. rewrite Num_sin_at_index by lia.
    set (idx := (theta mod tp * L) / tp) in *.
    unfold array_get. destruct (Z.ltb_spec idx 0); [lia |].
    destruct (nth_error (map NInt l) (Z.to_nat idx)) as [v |] eqn:Ev.
    + destruct (mapM_nth_error _ _ _ _ _ Htab Ev) as (x & Hx & Hf).
      rewrite nth_error_map in Hx.
      destruct (nth_error lut (Z.to_nat idx)) as [q |]; [| discriminate Hx].
      inversion Hx; subst x. exists q, v. now repeat split.
    + apply nth_error_None in Ev. rewrite length_map, Hlen in Ev.
      subst L. lia.
  - apply createFixedPoint_bigint in H.
    destruct H as (F & T & [HF HT] & ->).
    unfold TWO_PI_of. cbn [FP.TOTAL_BITS FP.FRACTION_BITS FP.sin Big.ops].
    set (tp := scaled F T TWO_PI_Q16). intros Htp.
    pose proof (Z.mod_pos_bound theta tp ltac:(lia)) as M.
    pose proof (index_bounds _ tp L ltac:(lia) HL M) as I.
    rewrite Z.quot_div_nonneg in I by nia.
    exists ((theta mod tp * L) / tp).
    split; [rewrite <- Z.quot_div_nonneg by nia;
            apply Big_sin_index_pos; lia |].
    split; [reflexivity |].
    split; [exact I |].
    split.
    { unfold bigint_rem. destruct (Z.eqb_spec L 0); [lia |].
      now rewrite Z.rem_small. }
    fold L. rewrite Big_sin_at_index by lia.
    set (idx := (theta mod tp * L) / tp) in *.
    unfold array_get. destruct (Z.ltb_spec idx 0); [lia |].
    rewrite nth_error_map.
    destruct (nth_error lut (Z.to_nat idx)) as [q |] eqn:Eq.
    + exists q, (scaled F T q). repeat split.
    + apply nth_error_None in Eq. subst L. lia.
Qed.

Lemma sin_index_within_table_witness :
  createFixedPoint sample_lut default_config
    = Return (NumberOps (number_ops 16 32)) /\
  sample_lut <> [] /\ array_sized sample_lut /\
  0 < TWO_PI_of (number_ops 16 32) /\
  exists idx,
    Num.sin_index (NInt (TWO_PI_of (number_ops 16 32))) (NInt 4)
      (NInt (-102944)) = Return (NInt idx) /\
    idx = ((-102944) mod TWO_PI_of (number_ops 16 32) * 4)
          / TWO_PI_of (number_ops 16 32) /\
    0 <= idx < 4 /\
    JS.rem (NInt idx) (NInt 4) = NInt idx /\
    exists q v,
      nth_error sample_lut (Z.to_nat idx) = Some q /\
      scaleQ16_number 16 32 (NInt q) = Return v /\
      FP.sin (number_ops 16 32) (NInt (-102944)) = Return (Some v).
Proof.
  assert (N : sample_lut <> []) by discriminate.
  assert (S : array_sized sample_lut) by reflexivity.
  assert (P : 0 < TWO_PI_of (number_ops 16 32)) by reflexivity.
  split; [reflexivity |]. split; [exact N |]. split; [exact S |].
  split; [exact P |].
  exact (sin_index_within_table sample_lut default_config
           (NumberOps (number_ops 16 32)) (-102944) eq_refl N S P).
Defined.

(* ------------------------------------------------------------------ *)
(** ** The range invariant *)

Lemma quot_in_range (T a d : Z) :
  0 < d -> in_range T a -> in_range T (Z.quot a d).
Proof.
  intros Hd [Lo Hi]. unfold in_range.
  destruct (Z.le_gt_cases 0 a) as [Hp | Hn].
  - pose proof (Z.quot_pos a d Hp Hd).
    assert (Z.quot a d <= a); [| lia].
    rewrite Z.quot_div_nonneg by lia.
    apply Z.div_le_upper_bound; nia.
  - assert (E : Z.quot a d = - Z.quot (- a) d).
    { rewrite Z.quot_opp_l by lia. lia. }
    pose proof (Z.quot_pos (- a) d ltac:(lia) Hd).
    assert (Z.quot (- a) d <= - a).
    { rewrite Z.quot_div_nonneg by lia. apply Z.div_le_upper_bound; nia. }
    pose proof (pow2_pos (T - 1)).
    destruct (Z.le_gt_cases 0 (T - 1)).
    + lia.
    + rewrite Z.pow_neg_r in * by lia. lia.
Qed.

Lemma Big_range_closed (F T tp ph : Z) (l : list Z) (L : Z) :
  valid_format F T -> range_closed (fun z => z) (Big.ops F T tp ph l L).
Proof.
  intros [HF HT]. assert (HT1 : 1 <= T) by lia.
  assert (W : forall z, stored_in_range (fun z => z) (Big.ops F T tp ph l L)
                          (wrapBigInt T z)).
  { intros z. exists (wrapBigInt T z). split; [reflexivity |].
    now apply wrapBigInt_range. }
  unfold range_closed.
  cbn [FP.TOTAL_BITS FP.FRACTION_BITS FP.fromInt FP.fromFloat FP.fromString
       FP.toInt FP.add FP.sub FP.negate FP.abs FP.mul FP.div FP.mod_ FP.sqrt
       Big.ops].
  repeat split.
  - intros n v H. unfold Big.fromInt in H.
    destruct (JS.BigInt n); [| discriminate H]. inversion H. apply W.
  - intros f v H. unfold Big.fromFloat in H.
    destruct (JS.BigInt _); [| discriminate H]. inversion H. apply W.
  - intros s v H. unfold Big.fromString in H.
    destruct (parseFixedPointString s F); [| discriminate H].
    inversion H. apply W.
  - intros a Ha. exists (Big.toInt F a). split; [reflexivity |].
    unfold Big.toInt. rewrite Big_ONE by lia.
    apply quot_in_range; [apply pow2_pos; lia | exact Ha].
  - intros a b _ _. eexists; split; [reflexivity | apply W].
  - intros a b _ _. eexists; split; [reflexivity | apply W].
  - intros a _. eexists; split; [reflexivity | apply W].
  - intros a Ha. eexists; split; [reflexivity |].
    destruct (a <? 0); [apply W |]. exists a. now split.
  - intros a b _ _. eexists; split; [reflexivity | apply W].
  - intros a b _ _ Hb. unfold Big.div, bigint_div.
    destruct (Z.eqb_spec b 0); [contradiction |].
    eexists; split; [reflexivity | apply W].
  - intros a b _ _ Hb. unfold Big.mod_, bigint_rem.
    destruct (Z.eqb_spec b 0); [contradiction |].
    eexists; split; [reflexivity | apply W].
  - intros a fuel _ Ha Hfuel.
    rewrite Big_sqrt_nonneg by (assumption || split; lia).
    eexists; split; [reflexivity | apply W].
Qed.

Lemma wrapNumber_stored (T : Z) (o : FP.FixedPointOps number)
      (x v : number) :
  1 <= T <= 32 -> FP.TOTAL_BITS o = T ->
  wrapNumber T x = Return v -> stored_in_range NInt o v.
Proof.
  intros HT E H. apply wrapNumber_inv in H; [| assumption].
  destruct H as (z & _ & ->). exists (wrapBigInt T z).
  split; [reflexivity |]. rewrite E. apply wrapBigInt_range. lia.
Qed.

Lemma Num_range_closed (F T : Z) (tp ph : number) (l : list number)
      (L : number) :
  valid_format F T -> T <= 32 ->
  range_closed NInt (Num.ops F T tp ph l L).
Proof.
  intros [HF HT] HT32. assert (HT1 : 1 <= T <= 32) by lia.
  set (o := Num.ops F T tp ph l L).
  assert (W : forall x v, wrapNumber T x = Return v ->
                          stored_in_range NInt o v).
  { intros x v. now apply wrapNumber_stored. }
  assert (WI : forall z, exists v,
               wrapNumber T (NInt z) = Return v /\ stored_in_range NInt o v).
  { intros z. eexists. split; [now apply wrapNumber_int |].
    eexists; split; [reflexivity |]. apply wrapBigInt_range. lia. }
  assert (WN : forall z, Z.abs z < 2 ^ 1000 -> exists v,
               wrapNumber T (JS.Number z) = Return v
               /\ stored_in_range NInt o v).
  { intros z Hz. destruct (wrapNumber_Number T z HT1 Hz) as (w & E & R).
    exists (NInt w). split; [exact E |]. exists w. now split. }
  assert (B62 : forall a b, in_range T a -> Z.abs b <= 2 ^ 31 ->
                            Z.abs (a * b) < 2 ^ 1000).
  { intros a b Ha Hb. pose proof (in_range_abs T a HT1 Ha).
    rewrite Z.abs_mul. pose proof (pow2_1000 62 ltac:(lia)).
    assert (2 ^ 31 * 2 ^ 31 = 2 ^ 62) by reflexivity.
    pose proof (Z.abs_nonneg a). pose proof (Z.abs_nonneg b). nia. }
  unfold range_closed.
  cbn [FP.TOTAL_BITS FP.FRACTION_BITS FP.fromInt FP.fromFloat FP.fromString
       FP.toInt FP.add FP.sub FP.negate FP.abs FP.mul FP.div FP.mod_ FP.sqrt
       Num.ops o].
  repeat split.
  - intros n v H. unfold Num.fromInt in H.
    destruct (assertInteger n "n"); [| discriminate H]. eapply W, H.
  - intros f v H. eapply W, H.
  - intros s v H. unfold Num.fromString in H.
    destruct (parseFixedPointString s F); [| discriminate H]. eapply W, H.
  - intros a Ha. eexists. split.
    + apply Num_toInt_int; [lia | now apply (in_range_53 T)].
    + apply quot_in_range; [apply pow2_pos; lia | exact Ha].
  - intros a b Ha Hb. destruct (in_range_sum T a b HT1 Ha Hb) as [S _].
    rewrite Num_add_int by assumption. eexists; split; [reflexivity |].
    eexists; split; [reflexivity |]. apply wrapBigInt_range. lia.
  - intros a b Ha Hb. destruct (in_range_sum T a b HT1 Ha Hb) as [_ S].
    rewrite Num_sub_int by assumption. eexists; split; [reflexivity |].
    eexists; split; [reflexivity |]. apply wrapBigInt_range. lia.
  - intros a Ha. rewrite Num_negate_int by assumption.
    eexists; split; [reflexivity |].
    eexists; split; [reflexivity |]. apply wrapBigInt_range. lia.
  - intros a Ha. rewrite Num_abs_int by assumption.
    eexists; split; [reflexivity |].
    eexists; split; [reflexivity |].
    destruct (a <? 0); [apply wrapBigInt_range; lia | exact Ha].
  - intros a b Ha Hb. unfold Num.mul.
    cbn [assertInteger JS.isFinite JS.isInteger negb orb bind JS.BigInt].
    apply WN. eapply Z.le_lt_trans; [apply shiftr_abs_le; lia |].
    apply B62; [exact Ha | now apply (in_range_abs T)].
  - intros a b Ha Hb Hb0. unfold Num.div.
    cbn [assertInteger JS.isFinite JS.isInteger negb orb bind JS.BigInt].
    rewrite eqb_int. destruct (Z.eqb_spec b 0); [contradiction |].
    unfold bigint_div. destruct (Z.eqb_spec b 0); [contradiction |].
    cbn [bind]. apply WN.
    eapply Z.le_lt_trans; [apply quot_abs_le; assumption |].
    rewrite Z.shiftl_mul_pow2 by lia. apply B62; [exact Ha |].
    pose proof (pow2_pos F ltac:(lia)). rewrite Z.abs_eq by lia.
    apply Z.pow_le_mono_r; lia.
  - intros a b Ha Hb Hb0. unfold Num.mod_.
    cbn [assertInteger JS.isFinite JS.isInteger negb orb bind JS.BigInt].
    rewrite eqb_int. destruct (Z.eqb_spec b 0); [contradiction |].
    unfold bigint_rem. destruct (Z.eqb_spec b 0); [contradiction |].
    cbn [bind]. apply WN.
    pose proof (rem_abs_lt a b Hb0). pose proof (in_range_abs T b HT1 Hb).
    pose proof (pow2_1000 31 ltac:(lia)). lia.
  - intros a fuel Ha Hpos Hfuel.
    rewrite Num_sqrt_nonneg by (assumption || split; lia).
    eexists; split; [reflexivity |].
    eexists; split; [reflexivity |]. apply wrapBigInt_range. lia.
Qed.

Lemma Big_trig_closed (F T : Z) (lut : list Z) :
  valid_format F T -> lut <> [] -> array_sized lut ->
  0 < scaled F T TWO_PI_Q16 ->
  trig_closed (fun z => z)
    (Big.ops F T (scaled F T TWO_PI_Q16) (scaled F T PI_HALF_Q16)
       (map (scaled F T) lut) (Z.of_nat (List.length lut))).
Proof.
  intros [HF HT] Hne Hsz Htp.
  set (l := map (scaled F T) lut).
  assert (Hl : l <> []) by (subst l; destruct lut; simpl; congruence).
  assert (Hs : array_sized l)
    by (unfold array_sized, l; rewrite length_map; exact Hsz).
  assert (Hall : forall v, In v l -> in_range T v).
  { intros v Hin. unfold l in Hin. apply in_map_iff in Hin.
    destruct Hin as (x & <- & _). apply scaled_range. lia. }
  assert (S : forall theta, exists v,
             Big.sin (scaled F T TWO_PI_Q16) l
               (Z.of_nat (List.length lut)) theta = Return (Some v)
             /\ in_range T v).
  { intros theta.
    destruct (Big_sin_pos _ l theta Htp Hl Hs) as (v & E & Hin).
    exists v. unfold l in E at 2. rewrite length_map in E.
    split; [exact E | now apply Hall]. }
  intros theta _.
  cbn [FP.TOTAL_BITS FP.sin FP.cos Big.ops]. split.
  - destruct (S theta) as (v & E & R).
    exists v. split; [exact E |]. exists v. now split.
  - unfold Big.cos.
    destruct (S (wrapBigInt T (theta + scaled F T PI_HALF_Q16)))
      as (v & E & R).
    exists v. split; [exact E |]. exists v. now split.
Qed.

Lemma Num_trig_closed (F T : Z) (l : list Z) :
  valid_format F T -> T <= 32 -> l <> [] -> array_sized l ->
  Forall (in_range T) l ->
  0 < scaled F T TWO_PI_Q16 ->
  trig_closed NInt
    (Num.ops F T (NInt (scaled F T TWO_PI_Q16))
       (NInt (scaled F T PI_HALF_Q16)) (map NInt l)
       (NInt (Z.of_nat (List.length l)))).
Proof.
  intros [HF HT] HT32 Hl Hs Hall Htp.
  assert (Htp31 : 0 < scaled F T TWO_PI_Q16 < 2 ^ 31).
  { pose proof (scaled_range F T TWO_PI_Q16 ltac:(lia)) as [_ Hi].
    pose proof (pow2_le_31 T ltac:(lia)). lia. }
  assert (S : forall theta, exists v,
             Num.sin (NInt (scaled F T TWO_PI_Q16)) (map NInt l)
               (NInt (Z.of_nat (List.length l))) (NInt theta)
               = Return (Some (NInt v))
             /\ in_range T v).
  { intros theta.
    destruct (Num_sin_pos _ l theta Htp31 Hl Hs) as (v & E & Hin).
    exists v. split; [exact E |].
    rewrite Forall_forall in Hall. now apply Hall. }
  intros theta Hth. cbn [FP.TOTAL_BITS Num.ops] in Hth.
  cbn [FP.TOTAL_BITS FP.sin FP.cos Num.ops]. split.
  - destruct (S theta) as (v & E & R).
    exists (NInt v). split; [exact E |]. exists v. now split.
  - rewrite Num_cos_sin
      by (try lia; try assumption; apply scaled_range; lia).
    destruct (S (wrapBigInt T (theta + scaled F T PI_HALF_Q16)))
      as (v & E & R).
    exists (NInt v). split; [exact E |]. exists v. now split.
Qed.

(** At 16 fraction bits in a 19-bit format the rescaled [TWO_PI] wraps to
    a negative number; [sin] then indexes the table below zero and yields
    [undefined], on either backing and over every table of two samples or
    more. *)
Lemma Big_sin_undefined_16_19 (l : list Z) :
  (2 <= List.length l)%nat -> array_sized l ->
  Big.sin (scaled 16 19 TWO_PI_Q16) l (Z.of_nat (List.length l)) 112512
    = Return None.
Proof.
  intros Hlen Hsz. unfold array_sized in Hsz.
  set (L := Z.of_nat (List.length l)) in *.
  assert (HL : 2 <= L) by lia.
  change (scaled 16 19 TWO_PI_Q16) with (-112513).
  unfold Big.sin, Big.sin_index. cbn [bigint_rem Z.eqb bind].
  change (Z.rem 112512 (-112513)) with 112512. cbn [Z.ltb Z.compare].
  unfold bigint_div. cbn [Z.eqb bind].
  set (q := Z.quot (112512 * L) (-112513)).
  assert (Hq : - L < q < 0).
  { subst q. change (-112513) with (Z.opp 112513).
    rewrite Z.quot_opp_r by lia.
    rewrite Z.quot_div_nonneg by lia.
    assert (1 <= 112512 * L / 112513 < L); [| lia]. split.
    - apply Z.div_le_lower_bound; lia.
    - apply Z.div_lt_upper_bound; lia. }
  unfold bigint_rem. destruct (Z.eqb_spec L 0); [lia |]. cbn [bind].
  assert (Hr : Z.rem q L = q).
  { rewrite <- (Z.opp_involutive q) at 1.
    rewrite Z.rem_opp_l by lia. rewrite Z.rem_small by lia. lia. }
  rewrite Hr. rewrite Number_exact
    by (assert (2 ^ 32 < 2 ^ 53) by reflexivity; lia).
  unfold array_get. destruct (Z.ltb_spec q 0); [reflexivity | lia].
Qed.

(* ------------------------------------------------------------------ *)
(** ** Comparisons *)

Lemma Big_compares (F T tp ph : Z) (l : list Z) (L : Z) :
  compares_scaled_integers (fun z => z) (Big.ops F T tp ph l L).
Proof.
  intros a b.
  cbn [FP.eq FP.neq FP.gt FP.gte FP.lt FP.lte Big.ops].
  unfold Big.eq, Big.neq, Big.gt, Big.gte, Big.lt, Big.lte.
  rewrite Z.gtb_ltb, Z.geb_leb. repeat split.
Qed.

Lemma Num_compares (F T : Z) (tp ph : number) (l : list number)
      (L : number) :
  compares_scaled_integers NInt (Num.ops F T tp ph l L).
Proof.
  intros a b.
  cbn [FP.eq FP.neq FP.gt FP.gte FP.lt FP.lte Num.ops].
  unfold Num.eq, Num.neq, Num.gt, Num.gte, Num.lt, Num.lte.
  cbn [assertInteger JS.isFinite JS.isInteger negb orb bind].
  unfold JS.neqb. rewrite eqb_int, gtb_int, geb_int, ltb_int, leb_int.
  rewrite Z.gtb_ltb, Z.geb_leb. repeat split.
Qed.

Lemma Num_rejects (F T : Z) (tp ph : number) (l : list number)
      (L : number) :
  rejects_non_integers (Num.ops F T tp ph l L).
Proof.
  intros a b.
  cbn [FP.eq FP.neq FP.gt FP.gte FP.lt FP.lte Num.ops].
  unfold Num.eq, Num.neq, Num.gt, Num.gte, Num.lt, Num.lte, operand_error.
  split.
  - intros Ea. rewrite (assertInteger_nonint a "a" Ea). cbn [bind].
    repeat split.
  - intros Ea Eb. destruct a; try discriminate Ea.
    rewrite (assertInteger_nonint b "b" Eb).
    cbn [assertInteger JS.isFinite JS.isInteger negb orb bind].
    repeat split.
Qed.

(** C9, as amended.  The six comparisons compare the scaled integers
    directly.  Under the BigInt backing they return a boolean for every pair
    of operands.  Under the number backing they return that boolean for
    every pair of integer operands; when an operand is not a finite integer
    they throw the [Error] of [assertInteger] that names it,
    "a must be a finite integer fixed-point value." for the first operand
    and the same with [b] for the second when the first is an integer. *)
Theorem comparisons_compare_scaled_integers
        (lut : list Z) (cfg : FixedPointConfig) (r : AnyOps) :
  createFixedPoint lut cfg = Return r ->
  match r with
  | NumberOps o => compares_scaled_integers NInt o /\ rejects_non_integers o
  | BigIntOps o =>
      compares_scaled_integers (fun z => z) o /\ comparisons_total o
  end.
Proof.
  intros H. destruct r as [o | o].
  - apply createFixedPoint_number in H.
    destruct H as (F & T & l & _ & _ & _ & _ & ->).
    split; [apply Num_compares | apply Num_rejects].
  - apply createFixedPoint_bigint in H.
    destruct H as (F & T & _ & ->).
    split; [apply Big_compares |].
    intros a b. repeat split; eexists; reflexivity.
Qed.

Lemma comparisons_compare_scaled_integers_witness :
  createFixedPoint sample_lut default_config
    = Return (NumberOps (number_ops 16 32)) /\
  compares_scaled_integers NInt (number_ops 16 32) /\
  rejects_non_integers (number_ops 16 32).
Proof.
  split; [reflexivity |].
  exact (comparisons_compare_scaled_integers sample_lut default_config
           (NumberOps (number_ops 16 32)) eq_refl).
Defined.

(** C9 as stated fails: on the default number-backed format, [eq(1.5, 2)]
    throws. *)
Lemma comparisons_total_counterexample :
  createFixedPoint sample_lut default_config
    = Return (NumberOps (number_ops 16 32)) /\
  FP.eq (number_ops 16 32) (NFrac 3 1) (NInt 2)
    = Throw (Error "a must be a finite integer fixed-point value.") /\
  ~ comparisons_total (number_ops 16 32).
Proof.
  split; [reflexivity |]. split; [reflexivity |].
  intros C. destruct (C (NFrac 3 1) (NInt 2)) as ([v Hv] & _).
  discriminate Hv.
Qed.

(* ------------------------------------------------------------------ *)
(** ** Division and modulo *)

Lemma Big_div_spec (F T a b : Z) :
  valid_format F T ->
  Big.div F T a b =
    if b =? 0 then Throw (Error DIV_BY_ZERO)
    else Return (wrapBigInt T (Z.quot (a * 2 ^ F) b)).
Proof.
  intros [HF HT]. unfold Big.div, bigint_div.
  destruct (b =? 0); [reflexivity |]. cbn [bind].
  now rewrite Z.shiftl_mul_pow2 by lia.
Qed.

Lemma Big_mod_spec (T a b : Z) :
  Big.mod_ T a b =
    if b =? 0 then Throw (Error DIV_BY_ZERO)
    else Return (wrapBigInt T (Z.rem a b)).
Proof.
  unfold Big.mod_, bigint_rem. destruct (b =? 0); reflexivity.
Qed.

Lemma Num_mod_spec (T a b : Z) :
  1 <= T <= 32 -> in_range T b ->
  Num.mod_ T (NInt a) (NInt b) =
    if b =? 0 then Throw (Error DIV_BY_ZERO)
    else Return (NInt (wrapBigInt T (Z.rem a b))).
Proof.
  intros HT Hb. unfold Num.mod_.
  cbn [assertInteger JS.isFinite JS.isInteger negb orb bind JS.BigInt].
  rewrite eqb_int. unfold bigint_rem.
  destruct (Z.eqb_spec b 0) as [| Hb0]; [reflexivity |]. cbn [bind].
  apply wrapNumber_Number_exact; [assumption |].
  pose proof (rem_abs_lt a b Hb0). pose proof (in_range_abs T b HT Hb).
  assert (2 ^ 31 < 2 ^ 53) by reflexivity. lia.
Qed.

(** The number-backed [div] wraps [Number(q)], the quotient rounded to a
    double, not the quotient [q] itself. *)
Lemma Num_div_spec (F T a b : Z) :
  valid_format F T ->
  Num.div F T (NInt a) (NInt b) =
    if b =? 0 then Throw (Error DIV_BY_ZERO)
    else wrapNumber T (JS.Number (Z.quot (a * 2 ^ F) b)).
Proof.
  intros [HF HT]. unfold Num.div.
  cbn [assertInteger JS.isFinite JS.isInteger negb orb bind JS.BigInt].
  rewrite eqb_int. unfold bigint_div.
  destruct (b =? 0); [reflexivity |]. cbn [bind].
  now rewrite Z.shiftl_mul_pow2 by lia.
Qed.

(** Where the quotient is below [2^53] the number-backed [div] is the
    BigInt-backed one; this covers every operand pair of a format with
    [fractionBits + totalBits <= 54]. *)
Lemma Num_div_exact (F T a b : Z) :
  valid_format F T -> T <= 32 -> b <> 0 ->
  Z.abs (Z.quot (a * 2 ^ F) b) < 2 ^ 53 ->
  Num.div F T (NInt a) (NInt b)
    = Return (NInt (wrapBigInt T (Z.quot (a * 2 ^ F) b))).
Proof.
  intros HV HT32 Hb Hq. rewrite Num_div_spec by assumption.
  apply Z.eqb_neq in Hb. rewrite Hb.
  apply wrapNumber_Number_exact; [destruct HV; lia | assumption].
Qed.

(** Both backings throw the division-by-zero error exactly on [b = 0]. *)
Lemma div_mod_throw_iff (F T a b : Z) :
  valid_format F T -> T <= 32 -> in_range T a -> in_range T b ->
  (Big.div F T a b = Throw (Error DIV_BY_ZERO) <-> b = 0) /\
  (Big.mod_ T a b = Throw (Error DIV_BY_ZERO) <-> b = 0) /\
  (Num.div F T (NInt a) (NInt b) = Throw (Error DIV_BY_ZERO) <-> b = 0) /\
  (Num.mod_ T (NInt a) (NInt b) = Throw (Error DIV_BY_ZERO) <-> b = 0).
Proof.
  intros HV HT32 Ha Hb. pose proof HV as [HF HT].
  rewrite Big_div_spec, Big_mod_spec, Num_div_spec by assumption.
  rewrite Num_mod_spec by (assumption || lia).
  destruct (Z.eqb_spec b 0) as [-> | Hb0].
  - repeat split; intros; reflexivity.
  - assert (HN : exists w, wrapNumber T (JS.Number (Z.quot (a * 2 ^ F) b))
                           = Return (NInt w) /\ in_range T w).
    { apply wrapNumber_Number; [lia |].
      eapply Z.le_lt_trans; [apply quot_abs_le; assumption |].
      rewrite Z.abs_mul. pose proof (in_range_abs T a ltac:(lia) Ha).
      pose proof (pow2_pos F ltac:(lia)).
      assert (2 ^ F <= 2 ^ 31) by (apply Z.pow_le_mono_r; lia).
      rewrite (Z.abs_eq (2 ^ F)) by lia.
      pose proof (pow2_1000 62 ltac:(lia)).
      assert (2 ^ 31 * 2 ^ 31 = 2 ^ 62) by reflexivity.
      pose proof (Z.abs_nonneg a). nia. }
    destruct HN as (w & -> & _).
    repeat split; intros H; try discriminate H; contradiction.
Qed.

(** C6, failing input.  In the accepted format Q8.24 on the number backing,
    [div(100.0, 3 ulp)], that is [div(1677721600, 3)], returns 1431655764.
    The quotient [(a << 24) / 3 = 9382499223688533] truncated toward zero
    and wrapped to 32 bits is 1431655765, which is what the BigInt backing
    returns: the number backing converts the quotient to a double, which
    rounds it to 9382499223688532, before it wraps. *)
Theorem div_number_backing_rounds_quotient :
  createFixedPoint sample_lut (config 24 32 false)
    = Return (NumberOps (number_ops 24 32)) /\
  createFixedPoint sample_lut (config 24 32 true)
    = Return (BigIntOps (bigint_ops 24 32)) /\
  in_range 32 1677721600 /\ in_range 32 3 /\
  Z.quot (1677721600 * 2 ^ 24) 3 = 9382499223688533 /\
  JS.Number 9382499223688533 = NInt 9382499223688532 /\
  wrapBigInt 32 9382499223688533 = 1431655765 /\
  FP.div (bigint_ops 24 32) 1677721600 3 = Return 1431655765 /\
  FP.div (number_ops 24 32) (NInt 1677721600) (NInt 3)
    = Return (NInt 1431655764).
Proof.
  repeat split; try reflexivity; unfold in_range; simpl; lia.
Qed.

(* ------------------------------------------------------------------ *)
(** ** The two backings side by side *)

(** C1, failing input.  In the accepted format Q24.8 (32 bits) the operands
    2147483647 and 2147483391 are in range; the BigInt backing returns
    [mul = 2130706433], the number backing 2130706432.  The shifted product
    18014396345221121 exceeds [2^53]; the number backing converts it to a
    double, which rounds it to 18014396345221120, before it wraps. *)
Theorem mul_backings_disagree :
  createFixedPoint sample_lut (config 8 32 false)
    = Return (NumberOps (number_ops 8 32)) /\
  createFixedPoint sample_lut (config 8 32 true)
    = Return (BigIntOps (bigint_ops 8 32)) /\
  in_range 32 2147483647 /\ in_range 32 2147483391 /\
  Z.shiftr (2147483647 * 2147483391) 8 = 18014396345221121 /\
  JS.Number 18014396345221121 = NInt 18014396345221120 /\
  FP.mul (bigint_ops 8 32) 2147483647 2147483391 = Return 2130706433 /\
  FP.mul (number_ops 8 32) (NInt 2147483647) (NInt 2147483391)
    = Return (NInt 2130706432).
Proof.
  repeat split; try reflexivity; unfold in_range; simpl; lia.
Qed.

(* ------------------------------------------------------------------ *)
(** ** Rounding of [fromString] *)

(** [floorDiv] is the floor quotient for a positive divisor. *)
Lemma floorDiv_floor (a b : Z) : 0 < b -> floorDiv a b = Return (a / b).
Proof.
  intros Hb. unfold floorDiv, bigint_div, bigint_rem.
  destruct (Z.eqb_spec b 0); [lia |]. cbn [bind].
  pose proof (Z.quot_rem' a b) as E.
  pose proof (Z.rem_bound_abs a b ltac:(lia)) as B.
  destruct (Z.eqb_spec (Z.rem a b) 0) as [R0 | R0].
  - f_equal. apply (Z.div_unique a b _ 0); lia.
  - destruct (Z.ltb_spec a 0) as [Ha | Ha]; f_equal.
    + pose proof (Z.rem_nonpos a b ltac:(lia) ltac:(lia)).
      apply (Z.div_unique a b _ (Z.rem a b + b)); lia.
    + pose proof (Z.rem_nonneg a b ltac:(lia) Ha).
      apply (Z.div_unique a b _ (Z.rem a b)); lia.
Qed.

(** Adding half the denominator before the floor division rounds to the
    nearest integer, a tie going up. *)
Lemma add_half_floor (p k : Z) :
  0 <= k -> (p + Z.quot (10 ^ k) 2) / 10 ^ k = round_half_up p (10 ^ k).
Proof.
  intros Hk. unfold round_half_up.
  destruct (Z.eq_dec k 0) as [-> | Hk0].
  - change (10 ^ 0) with 1. change (Z.quot 1 2) with 0.
    rewrite Z.add_0_r, Z.div_1_r.
    apply (Z.div_unique _ _ _ 1); lia.
  - assert (E : 10 ^ k = 2 * (5 * 10 ^ (k - 1))).
    { replace k with (Z.succ (k - 1)) at 1 by lia.
      rewrite Z.pow_succ_r by lia. lia. }
    pose proof (pow2_pos 0 ltac:(lia)) as _.
    assert (P : 0 < 5 * 10 ^ (k - 1))
      by (assert (0 < 10 ^ (k - 1)) by (apply Z.pow_pos_nonneg; lia); lia).
    rewrite E. set (h := 5 * 10 ^ (k - 1)) in *.
    rewrite Z.quot_div_nonneg by lia.
    rewrite (Z.mul_comm 2 h) at 1. rewrite Z.div_mul by lia.
    replace (2 * p + 2 * h) with (2 * (p + h)) by lia.
    now rewrite Z.div_mul_cancel_l by lia.
Qed.

(** Half-up and half-away-from-zero differ exactly on the negative ties,
    where half-up gives the integer above. *)
Lemma round_half_up_vs_away (p q : Z) :
  0 < q ->
  round_half_up p q =
    round_half_away_from_zero p q
    + (if (p <? 0) && ((2 * p + q) mod (2 * q) =? 0) then 1 else 0).
Proof.
  intros Hq. unfold round_half_up, round_half_away_from_zero.
  destruct (Z.ltb_spec p 0) as [Hp | Hp]; cbn [andb].
  - rewrite Z.sgn_neg, Z.abs_neq by lia.
    pose proof (Z.div_mod (2 * - p + q) (2 * q) ltac:(lia)) as D.
    pose proof (Z.mod_pos_bound (2 * - p + q) (2 * q) ltac:(lia)) as B.
    set (m := (2 * - p + q) / (2 * q)) in *.
    set (r := (2 * - p + q) mod (2 * q)) in *.
    destruct (Z.eq_dec r 0) as [R0 | R0].
    + assert (M : (2 * p + q) mod (2 * q) = 0).
      { symmetry. apply (Z.mod_unique _ _ (1 - m)); lia. }
      rewrite M. cbn [Z.eqb].
      symmetry. apply (Z.div_unique _ _ _ 0); lia.
    + assert (M : (2 * p + q) mod (2 * q) = 2 * q - r).
      { symmetry. apply (Z.mod_unique _ _ (- m)); lia. }
      rewrite M. destruct (Z.eqb_spec (2 * q - r) 0); [lia |].
      symmetry. apply (Z.div_unique _ _ _ (2 * q - r)); lia.
  - rewrite Z.add_0_r. rewrite Z.abs_eq by assumption.
    destruct (Z.eq_dec p 0) as [-> | Hp0].
    + cbn [Z.sgn]. rewrite Z.mul_0_r, Z.add_0_l, Z.mul_0_l.
      apply Z.div_small. lia.
    + rewrite Z.sgn_pos by lia. lia.
Qed.

Lemma substring_all (s : string) : substring 0 (String.length s) s = s.
Proof. induction s as [| c r IH]; simpl; [reflexivity | now rewrite IH]. Qed.

Lemma substring_tail (c : ascii) (r : string) :
  substring 1 (String.length (String c r) - 1) (String c r) = r.
Proof. simpl. rewrite Nat.sub_0_r. apply substring_all. Qed.

Lemma substring_whole (s : string) :
  substring 0 (String.length s - 0) s = s.
Proof. rewrite Nat.sub_0_r. apply substring_all. Qed.

(** The arithmetic of [parseFixedPointString] on the lexed parts. *)
Lemma parse_arith (sign i f k F : Z) :
  0 <= k -> 0 <= F ->
  floorDiv (sign * Z.shiftl (i * 10 ^ k + f) F + Z.quot (10 ^ k) 2) (10 ^ k)
    = Return (round_half_up (sign * (i * 10 ^ k + f) * 2 ^ F) (10 ^ k)).
Proof.
  intros Hk HF.
  rewrite floorDiv_floor by (apply Z.pow_pos_nonneg; lia).
  rewrite add_half_floor by assumption.
  rewrite Z.shiftl_mul_pow2 by assumption. now rewrite Z.mul_assoc.
Qed.

(** What [parseFixedPointString] computes on a decimal literal of value
    [N / D]: [N * 2^fractionBits / D] rounded to the nearest integer, a tie
    going up. *)
Lemma parse_rounds_half_up (s : string) (F N D : Z) :
  0 <= F -> literal_value s = Some (N, D) ->
  parseFixedPointString s F = Return (round_half_up (N * 2 ^ F) D).
Proof.
  intros HF. unfold literal_value, parseFixedPointString.
  set (trimmed := trim s).
  assert (Hsplit : forall sign rest,
    match split_dot rest with
    | [i] =>
        if all_digits i && negb (is_empty i)
        then Some (sign * digits_value 0 i, 1) else None
    | [i; f] =>
        if all_digits i && all_digits f && negb (is_empty i && is_empty f)
        then Some (sign * (digits_value 0 i
                           * 10 ^ Z.of_nat (String.length f)
                           + digits_value 0 f),
                   10 ^ Z.of_nat (String.length f))
        else None
    | _ => None
    end = Some (N, D) ->
    (let parts := split_dot rest in
     if (2 <? List.length parts)%nat then
       Throw (Error "Invalid fixed-point string.")
     else
       let intPartStr := nth 0 parts EmptyString in
       let fracPartStr := nth 1 parts EmptyString in
       if is_empty intPartStr && is_empty fracPartStr then
         Throw (Error "Invalid fixed-point string.")
       else if negb (all_digits intPartStr) || negb (all_digits fracPartStr)
       then Throw (Error "Invalid fixed-point string.")
       else
         let intPart := digits_value 0 intPartStr in
         let fracPart := digits_value 0 fracPartStr in
         let denom :=
           if is_empty fracPartStr then 1
           else 10 ^ Z.of_nat (String.length fracPartStr) in
         let scaledBase := Z.shiftl (intPart * denom + fracPart) F in
         let half := Z.quot denom 2 in
         let signedNumerator := sign * scaledBase in
         floorDiv (signedNumerator + half) denom)
    = Return (round_half_up (N * 2 ^ F) D)).
  { intros sign rest H.
    destruct (split_dot rest) as [| i [| f [| x parts]]];
      try discriminate H; cbv zeta; cbn [List.length Nat.ltb Nat.leb nth].
    - destruct (all_digits i) eqn:Ai; [| discriminate H].
      destruct (is_empty i) eqn:Ei; [discriminate H |].
      cbn [andb negb] in H. inversion H; subst N D; clear H.
      cbn [is_empty andb negb orb all_digits digits_value].
      pose proof (parse_arith sign (digits_value 0 i) 0 0 F
                    ltac:(lia) HF) as P.
      change (10 ^ 0) with 1 in P.
      replace (sign * digits_value 0 i)
        with (sign * (digits_value 0 i * 1 + 0)) by lia.
      exact P.
    - destruct (all_digits i) eqn:Ai; [| discriminate H].
      destruct (all_digits f) eqn:Af; [| discriminate H].
      destruct (is_empty i && is_empty f)%bool eqn:Eif; [discriminate H |].
      cbn [andb negb] in H. inversion H; subst N D; clear H.
      cbn [negb orb].
      destruct (is_empty f) eqn:Ef.
      + destruct f; [| discriminate Ef].
        change (10 ^ Z.of_nat (String.length "")) with 1.
        pose proof (parse_arith sign (digits_value 0 i) 0 0 F
                      ltac:(lia) HF) as P.
        change (10 ^ 0) with 1 in P. exact P.
      + apply parse_arith; lia. }
  destruct trimmed as [| c r] eqn:Et.
  - cbn [split_dot all_digits is_empty andb negb]. discriminate.
  - cbn [is_empty String.get char_is].
    destruct (Ascii.eqb c "+") eqn:Eplus;
      [| destruct (Ascii.eqb c "-") eqn:Eminus].
    + rewrite substring_tail. apply Hsplit.
    + rewrite substring_tail. apply Hsplit.
    + rewrite substring_whole. apply Hsplit.
Qed.

Lemma Big_fromString_literal (F T : Z) (s : string) (N D : Z) :
  valid_format F T -> literal_value s = Some (N, D) ->
  Big.fromString F T s
    = Return (wrapBigInt T (round_half_up (N * 2 ^ F) D)).
Proof.
  intros [HF HT] H. unfold Big.fromString.
  now rewrite (parse_rounds_half_up s F N D) by (assumption || lia).
Qed.

Lemma Num_fromString_literal (F T : Z) (s : string) (N D : Z) :
  valid_format F T -> T <= 32 -> literal_value s = Some (N, D) ->
  Z.abs (round_half_up (N * 2 ^ F) D) < 2 ^ 53 ->
  Num.fromString F T s
    = Return (NInt (wrapBigInt T (round_half_up (N * 2 ^ F) D))).
Proof.
  intros [HF HT] HT32 H Hb. unfold Num.fromString.
  rewrite (parse_rounds_half_up s F N D) by (assumption || lia).
  cbn [bind]. apply wrapNumber_Number_exact; [lia | assumption].
Qed.

(** C2, failing input.  In the default format Q16.16 the literal
    "-0.00000762939453125" is exactly [-2^-17], so its scaled value is the
    negative tie [-1/2].  Rounding with ties away from zero gives [-1]; both
    backings return [0], the tie having gone up. *)
Theorem fromString_negative_tie_goes_up :
  createFixedPoint sample_lut default_config
    = Return (NumberOps (number_ops 16 32)) /\
  createFixedPoint sample_lut (config 16 32 true)
    = Return (BigIntOps (bigint_ops 16 32)) /\
  literal_value "-0.00000762939453125" = Some (-762939453125, 10 ^ 17) /\
  2 * (-762939453125 * 2 ^ 16) = - 10 ^ 17 /\
  round_half_away_from_zero (-762939453125 * 2 ^ 16) (10 ^ 17) = -1 /\
  wrapBigInt 32 (-1) = -1 /\
  FP.fromString (number_ops 16 32) "-0.00000762939453125"
    = Return (NInt 0) /\
  FP.fromString (bigint_ops 16 32) "-0.00000762939453125" = Return 0.
Proof.
  repeat split; reflexivity.
Qed.

(* ------------------------------------------------------------------ *)
(** ** Where the two backings agree *)

Section Agreement.

Variables F T : Z.
Hypothesis format_ok : valid_format F T.
Hypothesis number_width : T <= 32.

Let T_bounds : 1 <= T <= 32.
Proof. destruct format_ok. lia. Qed.

Lemma add_agree (a b : Z) :
  in_range T a -> in_range T b ->
  agree (Num.add T (NInt a) (NInt b)) (Big.add T a b).
Proof.
  intros Ha Hb. destruct (in_range_sum T a b T_bounds Ha Hb) as [S _].
  rewrite Num_add_int by (exact T_bounds || exact S). reflexivity.
Qed.

Lemma sub_agree (a b : Z) :
  in_range T a -> in_range T b ->
  agree (Num.sub T (NInt a) (NInt b)) (Big.sub T a b).
Proof.
  intros Ha Hb. destruct (in_range_sum T a b T_bounds Ha Hb) as [_ S].
  rewrite Num_sub_int by (exact T_bounds || exact S). reflexivity.
Qed.

Lemma negate_agree (a : Z) :
  agree (Num.negate T (NInt a)) (Big.negate T a).
Proof. rewrite Num_negate_int by exact T_bounds. reflexivity. Qed.

Lemma abs_agree (a : Z) : agree (Num.abs T (NInt a)) (Big.abs T a).
Proof. rewrite Num_abs_int by exact T_bounds. reflexivity. Qed.

Lemma toInt_agree (a : Z) :
  in_range T a -> Num.toInt F (NInt a) = NInt (Big.toInt F a).
Proof.
  intros Ha. destruct format_ok as [HF HT].
  rewrite Num_toInt_int by (try lia; now apply (in_range_53 T)).
  unfold Big.toInt. now rewrite Big_ONE by lia.
Qed.

Lemma mod_agree (a b : Z) :
  in_range T b -> agree (Num.mod_ T (NInt a) (NInt b)) (Big.mod_ T a b).
Proof.
  intros Hb. rewrite Num_mod_spec, Big_mod_spec by (exact T_bounds || exact Hb).
  destruct (b =? 0); reflexivity.
Qed.

(** [mul] agrees when the shifted product stays below [2^53], which holds
    for every operand pair once [2 * totalBits - fractionBits <= 54]. *)
Lemma mul_agree (a b : Z) :
  Z.abs (Z.shiftr (a * b) F) < 2 ^ 53 ->
  agree (Num.mul F T (NInt a) (NInt b)) (Big.mul F T a b).
Proof.
  intros H. unfold Num.mul, Big.mul.
  cbn [assertInteger JS.isFinite JS.isInteger negb orb bind JS.BigInt].
  rewrite wrapNumber_Number_exact by (exact T_bounds || exact H).
  reflexivity.
Qed.

(** [div] agrees when the quotient stays below [2^53], which holds for
    every operand pair once [fractionBits + totalBits <= 53]. *)
Lemma div_agree (a b : Z) :
  Z.abs (Z.quot (a * 2 ^ F) b) < 2 ^ 53 ->
  agree (Num.div F T (NInt a) (NInt b)) (Big.div F T a b).
Proof.
  intros H. rewrite Num_div_spec, Big_div_spec by exact format_ok.
  destruct (b =? 0); [reflexivity |].
  rewrite wrapNumber_Number_exact by (exact T_bounds || exact H).
  reflexivity.
Qed.

(** [fromFloat] agrees on every number: both backings wrap
    [Math.round(f * ONE)] and throw when it is not a finite integer. *)
Lemma fromFloat_agree (f : number) :
  agree (Num.fromFloat F T f) (Big.fromFloat F T f).
Proof.
  destruct format_ok as [HF HT].
  unfold Num.fromFloat, Big.fromFloat.
  rewrite Num_ONE, Big_ONE by lia.
  replace (JS.Number (2 ^ F)) with (NInt (2 ^ F)).
  2:{ symmetry. apply Number_exact. pose proof (pow2_pos F ltac:(lia)).
      rewrite Z.abs_eq by lia. apply Z.pow_lt_mono_r; lia. }
  destruct (JS.round (JS.mul f (NInt (2 ^ F)))) as [z | m k | sg |].
  - rewrite wrapNumber_int by exact T_bounds. reflexivity.
  - reflexivity.
  - reflexivity.
  - reflexivity.
Qed.

End Agreement.

(* ================================================================== *)
(** * Further properties of the code *)

(** A property proved for both branches of [createFixedPoint] holds for
    whatever it returns. *)
Lemma for_every_format
      (P : forall A : Type, (Z -> A) -> FP.FixedPointOps A -> Prop) :
  (forall F T tp ph l L, valid_format F T ->
     P Z (fun z => z) (Big.ops F T tp ph l L)) ->
  (forall F T tp ph l L, valid_format F T -> T <= 32 ->
     P number NInt (Num.ops F T tp ph l L)) ->
  forall lut cfg r, createFixedPoint lut cfg = Return r -> holds_for r P.
Proof.
  intros HB HN lut cfg r H. destruct r as [o | o]; cbn [holds_for].
  - apply createFixedPoint_number in H.
    destruct H as (F & T & l & HV & HT & _ & _ & ->). now apply HN.
  - apply createFixedPoint_bigint in H.
    destruct H as (F & T & HV & ->). now apply HB.
Qed.

(* ------------------------------------------------------------------ *)
(** ** The wrap as a choice of representative *)

Lemma wrapBigInt_mod_eq (T a b : Z) :
  1 <= T -> a mod 2 ^ T = b mod 2 ^ T -> wrapBigInt T a = wrapBigInt T b.
Proof. intros HT E. rewrite !wrapBigInt_mod by assumption. now rewrite E. Qed.

Lemma wrapBigInt_shift (T a k : Z) :
  1 <= T -> wrapBigInt T (a + k * 2 ^ T) = wrapBigInt T a.
Proof.
  intros HT. apply wrapBigInt_mod_eq; [assumption |].
  apply Z.mod_add. pose proof (pow2_pos T ltac:(lia)). lia.
Qed.

Lemma wrapBigInt_add_l (T a b : Z) :
  1 <= T -> wrapBigInt T (wrapBigInt T a + b) = wrapBigInt T (a + b).
Proof.
  intros HT. destruct (wrapBigInt_congr T a HT) as [k ->].
  replace (a + k * 2 ^ T + b) with (a + b + k * 2 ^ T) by lia.
  now apply wrapBigInt_shift.
Qed.

Lemma wrapBigInt_add_r (T a b : Z) :
  1 <= T -> wrapBigInt T (a + wrapBigInt T b) = wrapBigInt T (a + b).
Proof.
  intros HT. rewrite (Z.add_comm a), wrapBigInt_add_l by assumption.
  now rewrite Z.add_comm.
Qed.

Lemma wrapBigInt_opp (T a : Z) :
  1 <= T -> wrapBigInt T (- wrapBigInt T a) = wrapBigInt T (- a).
Proof.
  intros HT. destruct (wrapBigInt_congr T a HT) as [k ->].
  replace (- (a + k * 2 ^ T)) with (- a + (- k) * 2 ^ T) by lia.
  now apply wrapBigInt_shift.
Qed.

Lemma wrapBigInt_unique_representative_aux (T v w : Z) :
  1 <= T -> in_range T w -> (exists k, w = v + k * 2 ^ T) ->
  w = wrapBigInt T v.
Proof.
  intros HT Hr [k ->]. rewrite <- (wrapBigInt_shift T v k) by assumption.
  symmetry. now apply wrapBigInt_id.
Qed.

(** X3. [wrapBigInt] picks the one integer of [[MIN, MAX]] that differs from
    its argument by a multiple of [2^totalBits]. *)
Theorem wrapBigInt_unique_representative (T v w : Z) :
  1 <= T ->
  (w = wrapBigInt T v <-> in_range T w /\ exists k, w = v + k * 2 ^ T).
Proof.
  intros HT. split.
  - intros ->. split; [now apply wrapBigInt_range | now apply wrapBigInt_congr].
  - intros [Hr [k ->]]. rewrite <- (wrapBigInt_shift T v k) by assumption.
    symmetry. now apply wrapBigInt_id.
Qed.

Lemma wrapBigInt_unique_representative_witness :
  1 <= 8 /\ (-56 = wrapBigInt 8 200 <->
              in_range 8 (-56) /\ exists k, -56 = 200 + k * 2 ^ 8).
Proof.
  split; [lia |]. apply (wrapBigInt_unique_representative 8 200 (-56)). lia.
Defined.

(** X4. For every width the number backing is offered at, [wrapNumber]
    throws on a number that is not a finite integer and otherwise returns
    the two's-complement wrap of [wrapBigInt]: the [value | 0] shortcut of
    32-bit formats and the BigInt route of the narrower ones compute the
    same function. *)
Theorem wrapNumber_is_wrapBigInt (T : Z) (x : number) :
  1 <= T <= 32 ->
  wrapNumber T x =
    match x with
    | NInt z => Return (NInt (wrapBigInt T z))
    | _ => Throw (Error "Fixed-point values must be finite integers.")
    end.
Proof.
  intros HT. destruct x; [now apply wrapNumber_int | | |];
    now apply wrapNumber_nonint.
Qed.

Lemma wrapNumber_is_wrapBigInt_witness :
  1 <= 24 <= 32 /\
  wrapNumber 24 (NInt 8388608) = Return (NInt (-8388608)).
Proof.
  split; [lia |]. apply (wrapNumber_is_wrapBigInt 24 (NInt 8388608)). lia.
Defined.

(* ------------------------------------------------------------------ *)
(** ** Addition, subtraction, negation *)

Lemma wrap_additive_facts (T a b c : Z) :
  1 <= T -> in_range T a ->
  wrapBigInt T (wrapBigInt T (a + b) + c)
    = wrapBigInt T (a + wrapBigInt T (b + c)) /\
  wrapBigInt T (a + 0) = a /\
  wrapBigInt T (a + wrapBigInt T (- a)) = 0 /\
  wrapBigInt T (a - b) = wrapBigInt T (a + wrapBigInt T (- b)) /\
  wrapBigInt T (- wrapBigInt T (- a)) = a.
Proof.
  intros HT Ha.
  assert (H0 : in_range T 0).
  { unfold in_range. pose proof (pow2_pos (T - 1) ltac:(lia)). lia. }
  repeat split.
  - rewrite wrapBigInt_add_l, wrapBigInt_add_r by assumption.
    f_equal. lia.
  - rewrite Z.add_0_r. now apply wrapBigInt_id.
  - rewrite wrapBigInt_add_r by assumption.
    replace (a + - a) with 0 by lia. now apply wrapBigInt_id.
  - rewrite wrapBigInt_add_r by assumption. f_equal.
  - rewrite wrapBigInt_opp by assumption. rewrite Z.opp_involutive.
    now apply wrapBigInt_id.
Qed.

Lemma Big_additive_laws (F T tp ph : Z) (l : list Z) (L : Z) :
  valid_format F T ->
  additive_laws Z (fun z => z) (Big.ops F T tp ph l L).
Proof.
  intros [HF HT] a b c Ha Hb Hc.
  cbn [FP.TOTAL_BITS Big.ops] in Ha, Hb, Hc.
  cbn [FP.add FP.sub FP.negate Big.ops].
  unfold Big.add, Big.sub, Big.negate. cbn [bind].
  destruct (wrap_additive_facts T a b c ltac:(lia) Ha)
    as (E1 & E2 & E3 & E4 & E5).
  rewrite (Z.add_comm b a), E1, E2, E3, E4, E5. repeat split.
Qed.

Lemma Num_additive_laws (F T : Z) (tp ph : number) (l : list number)
      (L : number) :
  valid_format F T -> T <= 32 ->
  additive_laws number NInt (Num.ops F T tp ph l L).
Proof.
  intros [HF HT] HT32 a b c Ha Hb Hc.
  cbn [FP.TOTAL_BITS Num.ops] in Ha, Hb, Hc.
  cbn [FP.add FP.sub FP.negate Num.ops].
  assert (HT1 : 1 <= T <= 32) by lia.
  assert (H0 : in_range T 0).
  { unfold in_range. pose proof (pow2_pos (T - 1) ltac:(lia)). lia. }
  assert (W : forall z, in_range T (wrapBigInt T z))
    by (intros; apply wrapBigInt_range; lia).
  assert (S : forall x y, in_range T x -> in_range T y ->
                Num.add T (NInt x) (NInt y)
                  = Return (NInt (wrapBigInt T (x + y)))).
  { intros x y Hx Hy. apply Num_add_int; [assumption |].
    now apply (in_range_sum T). }
  rewrite !Num_negate_int by assumption.
  rewrite Num_sub_int by (try assumption; now apply (in_range_sum T)).
  rewrite !S by assumption. cbn [bind].
  rewrite !Num_negate_int by assumption.
  rewrite !S by (assumption || apply W).
  destruct (wrap_additive_facts T a b c ltac:(lia) Ha)
    as (E1 & E2 & E3 & E4 & E5).
  rewrite (Z.add_comm b a), E1, E2, E3, E4, E5. repeat split.
Qed.

(** X5. On the values of a format, under either backing, [add] is
    commutative and associative with [0] as identity, [negate] gives the
    inverse and is an involution, and [sub(a, b)] is [add(a, negate(b))]:
    wrapping keeps the arithmetic a group, that of the integers modulo
    [2^totalBits]. *)
Theorem additive_group
        (lut : list Z) (cfg : FixedPointConfig) (r : AnyOps) :
  createFixedPoint lut cfg = Return r -> holds_for r additive_laws.
Proof.
  apply for_every_format.
  - intros. now apply Big_additive_laws.
  - intros. now apply Num_additive_laws.
Qed.

Lemma additive_group_witness :
  createFixedPoint sample_lut default_config
    = Return (NumberOps (number_ops 16 32)) /\
  additive_laws number NInt (number_ops 16 32).
Proof.
  split; [reflexivity |].
  exact (additive_group sample_lut default_config
           (NumberOps (number_ops 16 32)) eq_refl).
Defined.

Lemma in_range_0 (T : Z) : 1 <= T -> in_range T 0.
Proof.
  intros HT. unfold in_range. pose proof (pow2_pos (T - 1) ltac:(lia)). lia.
Qed.

Lemma in_range_opp (T a : Z) :
  in_range T a -> a <> - 2 ^ (T - 1) -> in_range T (- a).
Proof. unfold in_range. lia. Qed.

Lemma wrapBigInt_neg_min (T : Z) :
  1 <= T -> wrapBigInt T (- - 2 ^ (T - 1)) = - 2 ^ (T - 1).
Proof.
  intros HT. rewrite Z.opp_involutive.
  rewrite <- (wrapBigInt_max_succ T HT). f_equal. lia.
Qed.

Lemma Big_sign_laws (F T tp ph : Z) (l : list Z) (L : Z) :
  valid_format F T -> sign_laws Z (fun z => z) (Big.ops F T tp ph l L).
Proof.
  intros [HF HT]. assert (HT1 : 1 <= T) by lia.
  pose proof (pow2_pos (T - 1) ltac:(lia)) as P.
  unfold sign_laws.
  cbn [FP.TOTAL_BITS FP.MIN FP.negate FP.abs Big.ops].
  unfold Big.negate, Big.abs. rewrite Big_MIN by assumption.
  rewrite wrapBigInt_neg_min by assumption.
  split; [reflexivity |]. split.
  { destruct (Z.ltb_spec (- 2 ^ (T - 1)) 0); [reflexivity | lia]. }
  intros a Ha Hne. cbn [bind].
  rewrite (wrapBigInt_id T (- a)) by (try lia; now apply in_range_opp).
  split; [reflexivity |].
  destruct (Z.ltb_spec a 0), (Z.ltb_spec (- a) 0); try lia.
  - rewrite Z.abs_neq by lia. split; reflexivity.
  - rewrite Z.opp_involutive, Z.abs_eq by lia.
    rewrite wrapBigInt_id by (assumption || lia). split; reflexivity.
  - assert (a = 0) by lia. subst a. split; reflexivity.
Qed.

Lemma Num_sign_laws (F T : Z) (tp ph : number) (l : list number)
      (L : number) :
  valid_format F T -> T <= 32 ->
  sign_laws number NInt (Num.ops F T tp ph l L).
Proof.
  intros [HF HT] HT32. assert (HT1 : 1 <= T <= 32) by lia.
  pose proof (pow2_pos (T - 1) ltac:(lia)) as P.
  unfold sign_laws.
  cbn [FP.TOTAL_BITS FP.MIN FP.negate FP.abs Num.ops].
  rewrite Num_MIN by assumption.
  rewrite !Num_negate_int, !Num_abs_int by assumption.
  rewrite wrapBigInt_neg_min by lia.
  split; [reflexivity |]. split.
  { destruct (Z.ltb_spec (- 2 ^ (T - 1)) 0); [reflexivity | lia]. }
  intros a Ha Hne.
  rewrite !Num_negate_int, !Num_abs_int by assumption. cbn [bind].
  rewrite Num_abs_int by assumption.
  rewrite (wrapBigInt_id T (- a)) by (try lia; now apply in_range_opp).
  split; [reflexivity |].
  destruct (Z.ltb_spec a 0), (Z.ltb_spec (- a) 0); try lia.
  - rewrite Z.abs_neq by lia. split; reflexivity.
  - rewrite Z.opp_involutive, Z.abs_eq by lia.
    rewrite wrapBigInt_id by (assumption || lia). split; reflexivity.
  - assert (a = 0) by lia. subst a. split; reflexivity.
Qed.

(** X6. Under either backing [negate(MIN)] and [abs(MIN)] return [MIN]
    itself (the wrap of [2^(totalBits-1)]), neither throws; for every other
    value [a] of the format [negate(a)] is [-a], [abs(a)] is [|a|], and
    [abs(negate(a)) = abs(a)]. *)
Theorem negate_abs_at_the_ends
        (lut : list Z) (cfg : FixedPointConfig) (r : AnyOps) :
  createFixedPoint lut cfg = Return r -> holds_for r sign_laws.
Proof.
  apply for_every_format.
  - intros. now apply Big_sign_laws.
  - intros. now apply Num_sign_laws.
Qed.

Lemma negate_abs_at_the_ends_witness :
  createFixedPoint sample_lut default_config
    = Return (NumberOps (number_ops 16 32)) /\
  sign_laws number NInt (number_ops 16 32).
Proof.
  split; [reflexivity |].
  exact (negate_abs_at_the_ends sample_lut default_config
           (NumberOps (number_ops 16 32)) eq_refl).
Defined.

(* ------------------------------------------------------------------ *)
(** ** Multiplication, division, modulo, integer part *)

Lemma shiftr_mul_pow2_cancel (a F : Z) : 0 <= F -> Z.shiftr (a * 2 ^ F) F = a.
Proof.
  intros HF. rewrite Z.shiftr_div_pow2 by assumption.
  apply Z.div_mul. pose proof (pow2_pos F HF). lia.
Qed.

Lemma quot_mul_pow2_cancel (a F : Z) : 0 <= F -> Z.quot (a * 2 ^ F) (2 ^ F) = a.
Proof. intros HF. apply Z.quot_mul. pose proof (pow2_pos F HF). lia. Qed.

Lemma Num_mul_exact (F T a b : Z) :
  1 <= T <= 32 -> Z.abs (Z.shiftr (a * b) F) < 2 ^ 53 ->
  Num.mul F T (NInt a) (NInt b)
    = Return (NInt (wrapBigInt T (Z.shiftr (a * b) F))).
Proof.
  intros HT H. unfold Num.mul.
  cbn [assertInteger JS.isFinite JS.isInteger negb orb bind JS.BigInt].
  now apply wrapNumber_Number_exact.
Qed.

Lemma Num_mul_comm (F T a b : Z) :
  Num.mul F T (NInt a) (NInt b) = Num.mul F T (NInt b) (NInt a).
Proof.
  unfold Num.mul.
  cbn [assertInteger JS.isFinite JS.isInteger negb orb bind JS.BigInt].
  now rewrite (Z.mul_comm a b).
Qed.

Lemma pow2_in_range_53 (F : Z) : 0 <= F <= 31 -> Z.abs (2 ^ F) < 2 ^ 53.
Proof.
  intros HF. pose proof (pow2_pos F ltac:(lia)).
  rewrite Z.abs_eq by lia. apply Z.pow_lt_mono_r; lia.
Qed.

Lemma Big_scale_laws (F T tp ph : Z) (l : list Z) (L : Z) :
  valid_format F T -> scale_laws Z (fun z => z) (Big.ops F T tp ph l L).
Proof.
  intros [HF HT] a b Ha Hb. assert (HT1 : 1 <= T) by lia.
  cbn [FP.TOTAL_BITS Big.ops] in Ha, Hb.
  cbn [FP.mul FP.div FP.ONE FP.fromInt Big.ops].
  pose proof (pow2_pos F ltac:(lia)) as P.
  pose proof (in_range_0 T HT1) as H0.
  rewrite Big_ONE by lia.
  rewrite !Big_div_spec by (split; lia).
  rewrite Big_fromInt_int by (split; lia).
  split; [unfold Big.mul; now rewrite (Z.mul_comm b a) |].
  split.
  { unfold Big.mul. rewrite shiftr_mul_pow2_cancel by lia.
    now rewrite wrapBigInt_id. }
  split.
  { unfold Big.mul. rewrite Z.mul_0_r, Z.shiftr_0_l.
    now rewrite wrapBigInt_id. }
  split.
  { destruct (Z.eqb_spec (2 ^ F) 0); [lia |].
    rewrite quot_mul_pow2_cancel by lia. now rewrite wrapBigInt_id. }
  split.
  - intros Hb0. destruct (Z.eqb_spec b 0); [contradiction |].
    rewrite Z.mul_0_l, Z.quot_0_l by assumption. now rewrite wrapBigInt_id.
  - intros Ha0. destruct (Z.eqb_spec a 0); [contradiction |].
    rewrite (Z.mul_comm a), Z.quot_mul by assumption.
    now rewrite Z.mul_1_l.
Qed.

Lemma Num_scale_laws (F T : Z) (tp ph : number) (l : list number)
      (L : number) :
  valid_format F T -> T <= 32 ->
  scale_laws number NInt (Num.ops F T tp ph l L).
Proof.
  intros [HF HT] HT32 a b Ha Hb. assert (HT1 : 1 <= T <= 32) by lia.
  cbn [FP.TOTAL_BITS Num.ops] in Ha, Hb.
  cbn [FP.mul FP.div FP.ONE FP.fromInt Num.ops].
  pose proof (pow2_pos F ltac:(lia)) as P.
  pose proof (in_range_0 T ltac:(lia)) as H0.
  pose proof (in_range_53 T a HT1 Ha) as Ha53.
  rewrite Num_ONE by lia.
  rewrite !Num_div_spec by (split; lia).
  rewrite Num_fromInt_int
    by (try split; try lia; rewrite Z.mul_1_l; apply pow2_in_range_53; lia).
  split; [apply Num_mul_comm |].
  split.
  { rewrite Num_mul_exact
      by (try assumption; now rewrite shiftr_mul_pow2_cancel by lia).
    rewrite shiftr_mul_pow2_cancel by lia. now rewrite wrapBigInt_id by (assumption || lia). }
  split.
  { rewrite Num_mul_exact
      by (try assumption; rewrite Z.mul_0_r, Z.shiftr_0_l; reflexivity).
    rewrite Z.mul_0_r, Z.shiftr_0_l. now rewrite wrapBigInt_id by (assumption || lia). }
  split.
  { destruct (Z.eqb_spec (2 ^ F) 0); [lia |].
    rewrite quot_mul_pow2_cancel by lia.
    rewrite wrapNumber_Number_exact by assumption.
    now rewrite wrapBigInt_id by (assumption || lia). }
  split.
  - intros Hb0. destruct (Z.eqb_spec b 0); [contradiction |].
    rewrite Z.mul_0_l, Z.quot_0_l by assumption.
    rewrite wrapNumber_Number_exact by (try assumption; reflexivity).
    now rewrite wrapBigInt_id by (assumption || lia).
  - intros Ha0. destruct (Z.eqb_spec a 0); [contradiction |].
    rewrite (Z.mul_comm a), Z.quot_mul by assumption.
    rewrite wrapNumber_Number_exact
      by (try assumption; apply pow2_in_range_53; lia).
    now rewrite Z.mul_1_l.
Qed.

(** X7. Under either backing, on the values of a format: [mul] is
    commutative; [mul(a, ONE)] and [div(a, ONE)] return [a]; [mul(a, 0)]
    returns [0]; [div(0, b)] returns [0] for [b <> 0]; and [div(a, a)]
    returns what [fromInt(1)] returns for [a <> 0]. *)
Theorem mul_div_identities
        (lut : list Z) (cfg : FixedPointConfig) (r : AnyOps) :
  createFixedPoint lut cfg = Return r -> holds_for r scale_laws.
Proof.
  apply for_every_format.
  - intros. now apply Big_scale_laws.
  - intros. now apply Num_scale_laws.
Qed.

Lemma mul_div_identities_witness :
  createFixedPoint sample_lut default_config
    = Return (NumberOps (number_ops 16 32)) /\
  scale_laws number NInt (number_ops 16 32).
Proof.
  split; [reflexivity |].
  exact (mul_div_identities sample_lut default_config
           (NumberOps (number_ops 16 32)) eq_refl).
Defined.

Lemma rem_facts (T a b : Z) :
  1 <= T -> in_range T b -> b <> 0 ->
  a = b * Z.quot a b + Z.rem a b /\
  Z.abs (Z.rem a b) < Z.abs b /\ 0 <= Z.rem a b * a /\
  in_range T (Z.rem a b).
Proof.
  intros HT Hb Hb0.
  pose proof (Z.quot_rem' a b) as E.
  pose proof (Z.rem_bound_abs a b Hb0) as B.
  pose proof (Z.rem_sign_mul a b Hb0) as S.
  repeat split; try assumption;
    destruct Hb as [Lo Hi]; pose proof (pow2_pos (T - 1) ltac:(lia)); lia.
Qed.

Lemma Big_mod_laws (F T tp ph : Z) (l : list Z) (L : Z) :
  valid_format F T -> mod_laws Z (fun z => z) (Big.ops F T tp ph l L).
Proof.
  intros [HF HT] a b Ha Hb Hb0. cbn [FP.TOTAL_BITS Big.ops] in Ha, Hb.
  cbn [FP.mod_ Big.ops]. rewrite Big_mod_spec.
  destruct (Z.eqb_spec b 0); [contradiction |].
  destruct (rem_facts T a b ltac:(lia) Hb Hb0) as (E & B & S & R).
  exists (Z.rem a b), (Z.quot a b).
  rewrite wrapBigInt_id by (assumption || lia). repeat split; assumption.
Qed.

Lemma Num_mod_laws (F T : Z) (tp ph : number) (l : list number)
      (L : number) :
  valid_format F T -> T <= 32 ->
  mod_laws number NInt (Num.ops F T tp ph l L).
Proof.
  intros [HF HT] HT32 a b Ha Hb Hb0. cbn [FP.TOTAL_BITS Num.ops] in Ha, Hb.
  cbn [FP.mod_ Num.ops]. rewrite Num_mod_spec by (assumption || lia).
  destruct (Z.eqb_spec b 0); [contradiction |].
  destruct (rem_facts T a b ltac:(lia) Hb Hb0) as (E & B & S & R).
  exists (Z.rem a b), (Z.quot a b).
  rewrite wrapBigInt_id by (assumption || lia). repeat split; assumption.
Qed.

(** X8. Under either backing, for values [a] and [b <> 0] of a format,
    [mod(a, b)] returns the remainder [r] itself, which needs no wrapping:
    [a = b * q + r] for an integer [q], [|r| < |b|], and [r] is zero or has
    the sign of [a]. *)
Theorem mod_is_truncated_remainder
        (lut : list Z) (cfg : FixedPointConfig) (r : AnyOps) :
  createFixedPoint lut cfg = Return r -> holds_for r mod_laws.
Proof.
  apply for_every_format.
  - intros. now apply Big_mod_laws.
  - intros. now apply Num_mod_laws.
Qed.

Lemma mod_is_truncated_remainder_witness :
  createFixedPoint sample_lut default_config
    = Return (NumberOps (number_ops 16 32)) /\
  mod_laws number NInt (number_ops 16 32).
Proof.
  split; [reflexivity |].
  exact (mod_is_truncated_remainder sample_lut default_config
           (NumberOps (number_ops 16 32)) eq_refl).
Defined.

Lemma quot_pow2_facts (a F : Z) :
  0 <= F ->
  Z.abs (Z.quot a (2 ^ F) * 2 ^ F) <= Z.abs a
    < Z.abs (Z.quot a (2 ^ F) * 2 ^ F) + 2 ^ F /\
  0 <= Z.quot a (2 ^ F) * a.
Proof.
  intros HF. pose proof (pow2_pos F HF) as P.
  set (d := 2 ^ F) in *.
  pose proof (Z.quot_rem' a d) as E.
  pose proof (Z.rem_bound_abs a d ltac:(lia)) as B.
  pose proof (Z.rem_sign_mul a d ltac:(lia)) as S.
  destruct (Z.le_gt_cases 0 a) as [Ha | Ha].
  - pose proof (Z.quot_pos a d Ha P).
    pose proof (Z.rem_nonneg a d ltac:(lia) Ha). nia.
  - pose proof (Z.rem_nonpos a d ltac:(lia) ltac:(lia)).
    assert (Z.quot a d <= 0).
    { rewrite <- (Z.opp_involutive a), Z.quot_opp_l by lia.
      pose proof (Z.quot_pos (- a) d ltac:(lia) P). lia. }
    nia.
Qed.

Lemma Big_toInt_laws (F T tp ph : Z) (l : list Z) (L : Z) :
  valid_format F T -> toInt_laws Z (fun z => z) (Big.ops F T tp ph l L).
Proof.
  intros [HF HT] a Ha.
  cbn [FP.TOTAL_BITS FP.FRACTION_BITS FP.toInt Big.ops].
  exists (Z.quot a (2 ^ F)). unfold Big.toInt. rewrite Big_ONE by lia.
  split; [reflexivity |]. apply quot_pow2_facts. lia.
Qed.

Lemma Num_toInt_laws (F T : Z) (tp ph : number) (l : list number)
      (L : number) :
  valid_format F T -> T <= 32 ->
  toInt_laws number NInt (Num.ops F T tp ph l L).
Proof.
  intros [HF HT] HT32 a Ha. cbn [FP.TOTAL_BITS Num.ops] in Ha.
  cbn [FP.TOTAL_BITS FP.FRACTION_BITS FP.toInt Num.ops].
  exists (Z.quot a (2 ^ F)).
  pose proof (in_range_53 T a ltac:(lia) Ha) as H53.
  rewrite Num_toInt_int by (assumption || lia).
  split; [reflexivity |]. apply quot_pow2_facts. lia.
Qed.

(** X9. Under either backing, for a value [a] of a format, [toInt(a)] is
    the integer part of [a / ONE] truncated toward zero: [q * ONE] lies
    between zero and [a], less than [ONE] away from [a].  On the number
    backing the float division [a / ONE] and [Math.trunc] lose nothing. *)
Theorem toInt_truncates_toward_zero
        (lut : list Z) (cfg : FixedPointConfig) (r : AnyOps) :
  createFixedPoint lut cfg = Return r -> holds_for r toInt_laws.
Proof.
  apply for_every_format.
  - intros. now apply Big_toInt_laws.
  - intros. now apply Num_toInt_laws.
Qed.

Lemma toInt_truncates_toward_zero_witness :
  createFixedPoint sample_lut default_config
    = Return (NumberOps (number_ops 16 32)) /\
  toInt_laws number NInt (number_ops 16 32).
Proof.
  split; [reflexivity |].
  exact (toInt_truncates_toward_zero sample_lut default_config
           (NumberOps (number_ops 16 32)) eq_refl).
Defined.

(* ------------------------------------------------------------------ *)
(** ** [ONE] and [fromInt] *)

Lemma pow2_vs_range (F T : Z) :
  0 < F < T ->
  (F + 2 <= T -> in_range T (2 ^ F)) /\
  (T = F + 1 -> ~ in_range T (2 ^ F) /\ wrapBigInt T (2 ^ F) = - 2 ^ (T - 1)).
Proof.
  intros [HF HT]. pose proof (pow2_pos F ltac:(lia)) as P. split.
  - intros H2. unfold in_range.
    assert (2 ^ F < 2 ^ (T - 1)) by (apply Z.pow_lt_mono_r; lia). lia.
  - intros ->. unfold in_range. replace (F + 1 - 1) with F by lia. split.
    + lia.
    + pose proof (wrapBigInt_max_succ (F + 1) ltac:(lia)) as W.
      replace (F + 1 - 1) with F in W by lia.
      replace (2 ^ F - 1 + 1) with (2 ^ F) in W by lia. exact W.
Qed.

Lemma Big_one_laws (F T tp ph : Z) (l : list Z) (L : Z) :
  valid_format F T -> one_laws Z (fun z => z) (Big.ops F T tp ph l L).
Proof.
  intros HV. pose proof HV as [HF HT]. unfold one_laws.
  cbn [FP.TOTAL_BITS FP.FRACTION_BITS FP.ONE FP.MIN FP.fromInt Big.ops].
  rewrite Big_ONE, Big_MIN by lia.
  rewrite Big_fromInt_int by assumption. rewrite Z.mul_1_l.
  destruct (pow2_vs_range F T HV) as [Hin Hout].
  split; [reflexivity |]. split.
  - intros H2. split; [now apply Hin |].
    rewrite wrapBigInt_id by (try lia; now apply Hin). reflexivity.
  - intros H1. destruct (Hout H1) as [Hn Hw]. split; [exact Hn |].
    now rewrite Hw.
Qed.

Lemma Num_one_laws (F T : Z) (tp ph : number) (l : list number)
      (L : number) :
  valid_format F T -> T <= 32 ->
  one_laws number NInt (Num.ops F T tp ph l L).
Proof.
  intros HV HT32. pose proof HV as [HF HT]. unfold one_laws.
  cbn [FP.TOTAL_BITS FP.FRACTION_BITS FP.ONE FP.MIN FP.fromInt Num.ops].
  rewrite Num_ONE, Num_MIN by lia.
  rewrite Num_fromInt_int
    by (try assumption; rewrite Z.mul_1_l; apply pow2_in_range_53; lia).
  rewrite Z.mul_1_l.
  destruct (pow2_vs_range F T HV) as [Hin Hout].
  split; [reflexivity |]. split.
  - intros H2. split; [now apply Hin |].
    rewrite wrapBigInt_id by (try lia; now apply Hin). reflexivity.
  - intros H1. destruct (Hout H1) as [Hn Hw]. split; [exact Hn |].
    now rewrite Hw.
Qed.

(** X10. Under either backing the constant [ONE] is [2^fractionBits],
    unwrapped.  When [totalBits >= fractionBits + 2] it is a value of the
    format and [fromInt(1)] returns it.  When [totalBits = fractionBits + 1],
    a format the constructor accepts, [ONE] is [MAX + 1], outside the
    range, and [fromInt(1)] returns [MIN]. *)
Theorem ONE_and_fromInt_1
        (lut : list Z) (cfg : FixedPointConfig) (r : AnyOps) :
  createFixedPoint lut cfg = Return r -> holds_for r one_laws.
Proof.
  apply for_every_format.
  - intros. now apply Big_one_laws.
  - intros. now apply Num_one_laws.
Qed.

Lemma ONE_and_fromInt_1_witness :
  createFixedPoint sample_lut (config 31 32 false)
    = Return (NumberOps (number_ops 31 32)) /\
  one_laws number NInt (number_ops 31 32).
Proof.
  split; [reflexivity |].
  exact (ONE_and_fromInt_1 sample_lut (config 31 32 false)
           (NumberOps (number_ops 31 32)) eq_refl).
Defined.

Lemma Big_fromInt_laws (F T tp ph : Z) (l : list Z) (L : Z) :
  valid_format F T -> fromInt_laws Z (fun z => z) (Big.ops F T tp ph l L).
Proof.
  intros HV m n Hm Hn. pose proof HV as [HF HT].
  cbn [FP.TOTAL_BITS FP.FRACTION_BITS Big.ops] in Hm, Hn.
  cbn [FP.TOTAL_BITS FP.FRACTION_BITS FP.fromInt FP.add FP.mul Big.ops].
  rewrite !Big_fromInt_int by assumption. cbn [bind].
  rewrite (wrapBigInt_id T (m * 2 ^ F)), (wrapBigInt_id T (n * 2 ^ F))
    by (assumption || lia).
  split; [reflexivity |]. split.
  - unfold Big.add. do 2 f_equal. lia.
  - intros Hmn. unfold Big.mul. do 2 f_equal.
    replace (m * 2 ^ F * (n * 2 ^ F)) with (m * n * 2 ^ F * 2 ^ F) by lia.
    apply shiftr_mul_pow2_cancel. lia.
Qed.

Lemma Num_fromInt_laws (F T : Z) (tp ph : number) (l : list number)
      (L : number) :
  valid_format F T -> T <= 32 ->
  fromInt_laws number NInt (Num.ops F T tp ph l L).
Proof.
  intros HV HT32 m n Hm Hn. pose proof HV as [HF HT].
  assert (HT1 : 1 <= T <= 32) by lia.
  cbn [FP.TOTAL_BITS FP.FRACTION_BITS Num.ops] in Hm, Hn.
  cbn [FP.TOTAL_BITS FP.FRACTION_BITS FP.fromInt FP.add FP.mul Num.ops].
  pose proof (in_range_53 T _ HT1 Hm) as Hm53.
  pose proof (in_range_53 T _ HT1 Hn) as Hn53.
  destruct (in_range_sum T _ _ HT1 Hm Hn) as [Hs _].
  rewrite (Num_fromInt_int F T m), (Num_fromInt_int F T n) by assumption.
  cbn [bind].
  rewrite (wrapBigInt_id T (m * 2 ^ F)), (wrapBigInt_id T (n * 2 ^ F))
    by (assumption || lia).
  assert (Es : (m + n) * 2 ^ F = m * 2 ^ F + n * 2 ^ F) by lia.
  split; [reflexivity |]. split.
  - rewrite Num_add_int by assumption.
    rewrite Num_fromInt_int by (try assumption; now rewrite Es).
    now rewrite Es.
  - intros Hmn. pose proof (in_range_53 T _ HT1 Hmn) as Hmn53.
    assert (Ep : Z.shiftr (m * 2 ^ F * (n * 2 ^ F)) F = m * n * 2 ^ F).
    { replace (m * 2 ^ F * (n * 2 ^ F)) with (m * n * 2 ^ F * 2 ^ F) by lia.
      apply shiftr_mul_pow2_cancel. lia. }
    rewrite Num_mul_exact by (try assumption; now rewrite Ep).
    rewrite Ep. now rewrite Num_fromInt_int by assumption.
Qed.

(** X11. Under either backing, for integers [m] and [n] whose scaled values
    are values of the format, [fromInt(m)] returns [m * 2^fractionBits]
    unwrapped, [add(fromInt(m), fromInt(n))] returns what
    [fromInt(m + n)] returns, wrapped alike when the sum overflows, and
    [mul(fromInt(m), fromInt(n))] returns what [fromInt(m * n)] returns
    when the scaled product is a value of the format. *)
Theorem fromInt_preserves_sums_and_products
        (lut : list Z) (cfg : FixedPointConfig) (r : AnyOps) :
  createFixedPoint lut cfg = Return r -> holds_for r fromInt_laws.
Proof.
  apply for_every_format.
  - intros. now apply Big_fromInt_laws.
  - intros. now apply Num_fromInt_laws.
Qed.

Lemma fromInt_preserves_sums_and_products_witness :
  createFixedPoint sample_lut default_config
    = Return (NumberOps (number_ops 16 32)) /\
  fromInt_laws number NInt (number_ops 16 32).
Proof.
  split; [reflexivity |].
  exact (fromInt_preserves_sums_and_products sample_lut default_config
           (NumberOps (number_ops 16 32)) eq_refl).
Defined.

(* ------------------------------------------------------------------ *)
(** ** Validation and construction *)

(** [createFixedPoint] on integer bit counts, check by check. *)
Lemma createFixedPoint_on_integers (lut : list Z) (cfg : FixedPointConfig)
      (F T : Z) :
  requested_fractionBits cfg = NInt F -> requested_totalBits cfg = NInt T ->
  createFixedPoint lut cfg =
    if F <=? 0 then Throw (Error "fractionBits must be > 0.")
    else if T <=? F then
      Throw (Error "totalBits must be greater than fractionBits.")
    else if match useBigInt cfg with Some false => true | _ => false end
            && (T >? 32) then
      Throw (Error "useBigInt=false is not supported for totalBits > 32.")
    else if orElse (useBigInt cfg) (T >? 32) then
      Return (BigIntOps
                (Big.ops F T (scaled F T TWO_PI_Q16)
                   (scaled F T PI_HALF_Q16) (map (scaled F T) lut)
                   (Z.of_nat (List.length lut))))
    else
      TWO_PI <- scaleQ16_number F T (NInt TWO_PI_Q16) ;;
      PI_HALF <- scaleQ16_number F T (NInt PI_HALF_Q16) ;;
      sinLut <- mapM (scaleQ16_number F T) (map NInt lut) ;;
      Return (NumberOps
                (Num.ops F T TWO_PI PI_HALF sinLut
                   (NInt (Z.of_nat (List.length lut))))).
Proof.
  unfold requested_fractionBits, requested_totalBits, createFixedPoint.
  intros -> ->. cbn [JS.isInteger negb orb]. rewrite !leb_int, gtb_int.
  destruct (F <=? 0); [reflexivity |].
  destruct (T <=? F); [reflexivity |].
  destruct (_ && _)%bool; [reflexivity |].
  cbn [JS.BigInt bind].
  destruct (orElse (useBigInt cfg) (T >? 32)); [| reflexivity].
  now rewrite !scaleQ16_bigint_int, mapM_scaleQ16_bigint.
Qed.

Lemma createFixedPoint_not_integers (lut : list Z) (cfg : FixedPointConfig) :
  JS.isInteger (requested_fractionBits cfg) = false \/
  JS.isInteger (requested_totalBits cfg) = false ->
  createFixedPoint lut cfg
    = Throw (Error "Fixed-point config must use integer bit sizes.").
Proof.
  unfold requested_fractionBits, requested_totalBits, createFixedPoint.
  intros [H | H]; rewrite H; cbn [negb orb]; [reflexivity |].
  now rewrite Bool.orb_true_r.
Qed.

(** X1. [createFixedPoint] reports the first check that fails, in this
    order: a bit count that is not an integer; [fractionBits <= 0];
    [totalBits <= fractionBits]; [useBigInt: false] with [totalBits > 32]
    (defaults 16 and 32 standing in for the bit counts left out).  A
    configuration that passes the four checks is accepted, an operation set
    is returned, when [totalBits] is at most [2^16]; for wider formats the
    model, whose integers are unbounded, settles nothing. *)
Theorem createFixedPoint_validation
        (lut : list Z) (cfg : FixedPointConfig) :
  table_small lut ->
  (JS.isInteger (requested_fractionBits cfg) = false \/
   JS.isInteger (requested_totalBits cfg) = false ->
   createFixedPoint lut cfg
     = Throw (Error "Fixed-point config must use integer bit sizes.")) /\
  forall F T,
    requested_fractionBits cfg = NInt F ->
    requested_totalBits cfg = NInt T ->
    (F <= 0 ->
     createFixedPoint lut cfg = Throw (Error "fractionBits must be > 0.")) /\
    (0 < F -> T <= F ->
     createFixedPoint lut cfg
       = Throw (Error "totalBits must be greater than fractionBits.")) /\
    (0 < F < T -> useBigInt cfg = Some false -> 32 < T ->
     createFixedPoint lut cfg
       = Throw (Error "useBigInt=false is not supported for totalBits > 32."))
    /\
    (0 < F < T -> ~ (useBigInt cfg = Some false /\ 32 < T) ->
     buildable_width T ->
     returns (createFixedPoint lut cfg)).
Proof.
  intros Hlut. split; [apply createFixedPoint_not_integers |].
  intros F T EF ET.
  rewrite (createFixedPoint_on_integers lut cfg F T EF ET).
  repeat split.
  - intros H. now destruct (Z.leb_spec F 0); [| lia].
  - intros H1 H2. destruct (Z.leb_spec F 0); [lia |].
    now destruct (Z.leb_spec T F); [| lia].
  - intros [H1 H2] -> H3. destruct (Z.leb_spec F 0); [lia |].
    destruct (Z.leb_spec T F); [lia |].
    now destruct (Z.gtb_spec T 32); [| lia].
  - intros [H1 H2] Hn _. destruct (Z.leb_spec F 0); [lia |].
    destruct (Z.leb_spec T F); [lia |].
    destruct (useBigInt cfg) as [[|] |] eqn:Eu; cbn [andb orElse].
    + eexists; reflexivity.
    + destruct (Z.gtb_spec T 32); [exfalso; apply Hn; now split |].
      cbn [andb]. assert (HV : valid_format F T) by (split; lia).
      rewrite !scaleQ16_number_small
        by (try assumption; unfold TWO_PI_Q16, PI_HALF_Q16; reflexivity).
      cbn [bind]. rewrite mapM_scaleQ16_number by assumption.
      eexists; reflexivity.
    + destruct (Z.gtb_spec T 32); [eexists; reflexivity |].
      assert (HV : valid_format F T) by (split; lia).
      rewrite !scaleQ16_number_small
        by (try assumption; unfold TWO_PI_Q16, PI_HALF_Q16; reflexivity).
      cbn [bind]. rewrite mapM_scaleQ16_number by assumption.
      eexists; reflexivity.
Qed.

Lemma createFixedPoint_validation_witness :
  table_small sample_lut /\
  createFixedPoint sample_lut (config 16 16 false)
    = Throw (Error "totalBits must be greater than fractionBits.").
Proof.
  assert (S : table_small sample_lut)
    by (repeat constructor; reflexivity).
  split; [exact S |].
  exact (proj1 (proj2 (proj2 (createFixedPoint_validation sample_lut
                                (config 16 16 false) S) 16 16
                               eq_refl eq_refl))
           ltac:(lia) ltac:(lia)).
Defined.

Lemma Big_has_constants (F T tp ph : Z) (l : list Z) (L : Z) :
  valid_format F T ->
  has_constants (fun z => z) (Big.ops F T tp ph l L) F T.
Proof.
  intros [HF HT]. unfold has_constants.
  cbn [FP.SHIFT FP.FRACTION_BITS FP.TOTAL_BITS FP.ONE FP.EPSILON FP.MAX
       FP.MIN Big.ops].
  rewrite Big_ONE, Big_MAX, Big_MIN by lia. repeat split.
Qed.

Lemma Num_has_constants (F T : Z) (tp ph : number) (l : list number)
      (L : number) :
  valid_format F T -> T <= 32 ->
  has_constants NInt (Num.ops F T tp ph l L) F T.
Proof.
  intros [HF HT] HT32. unfold has_constants.
  cbn [FP.SHIFT FP.FRACTION_BITS FP.TOTAL_BITS FP.ONE FP.EPSILON FP.MAX
       FP.MIN Num.ops].
  rewrite Num_ONE, Num_MAX, Num_MIN by lia. repeat split.
Qed.

(** X2. What [createFixedPoint] returns.  The bit counts are integers
    [0 < F < T]; the operation set is number-backed exactly when [useBigInt]
    is [false], or is left out with [T <= 32], and then [T <= 32]; it is
    BigInt-backed when [useBigInt] is [true], or is left out with [T > 32].
    Either way [SHIFT = FRACTION_BITS = F], [TOTAL_BITS = T], [ONE = 2^F],
    [EPSILON = 1], [MAX = 2^(T-1) - 1] and [MIN = -2^(T-1)], the doubles of
    the number backing being exact. *)
Theorem createFixedPoint_backing_and_constants
        (lut : list Z) (cfg : FixedPointConfig) (r : AnyOps) :
  createFixedPoint lut cfg = Return r ->
  exists F T,
    requested_fractionBits cfg = NInt F /\
    requested_totalBits cfg = NInt T /\
    valid_format F T /\
    match r with
    | NumberOps o =>
        T <= 32 /\ useBigInt cfg <> Some true /\ has_constants NInt o F T
    | BigIntOps o =>
        (useBigInt cfg = Some true \/ (useBigInt cfg = None /\ 32 < T)) /\
        has_constants (fun z => z) o F T
    end.
Proof.
  intros H.
  destruct (requested_fractionBits cfg) as [F | | |] eqn:EF;
    try (rewrite createFixedPoint_not_integers in H
           by (left; rewrite EF; reflexivity); discriminate H).
  destruct (requested_totalBits cfg) as [T | | |] eqn:ET;
    try (rewrite createFixedPoint_not_integers in H
           by (right; rewrite ET; reflexivity); discriminate H).
  rewrite (createFixedPoint_on_integers lut cfg F T EF ET) in H.
  destruct (Z.leb_spec F 0); [discriminate H |].
  destruct (Z.leb_spec T F); [discriminate H |].
  assert (HV : valid_format F T) by (split; lia).
  exists F, T. repeat (split; [reflexivity || assumption |]).
  destruct (useBigInt cfg) as [[|] |] eqn:Eu; cbn [andb orElse] in H.
  - inversion H; subst r. split; [now left |]. now apply Big_has_constants.
  - destruct (Z.gtb_spec T 32); [discriminate H |]. cbn [andb] in H.
    destruct (scaleQ16_number F T (NInt TWO_PI_Q16)); [| discriminate H].
    destruct (scaleQ16_number F T (NInt PI_HALF_Q16)); [| discriminate H].
    destruct (mapM _ _); [| discriminate H].
    cbn [bind] in H. inversion H; subst r.
    split; [assumption |]. split; [discriminate |].
    now apply Num_has_constants.
  - destruct (Z.gtb_spec T 32).
    + inversion H; subst r. split; [now right |].
      now apply Big_has_constants.
    + destruct (scaleQ16_number F T (NInt TWO_PI_Q16)); [| discriminate H].
      destruct (scaleQ16_number F T (NInt PI_HALF_Q16)); [| discriminate H].
      destruct (mapM _ _); [| discriminate H].
      cbn [bind] in H. inversion H; subst r.
      split; [assumption |]. split; [discriminate |].
      now apply Num_has_constants.
Qed.

Lemma createFixedPoint_backing_and_constants_witness :
  createFixedPoint sample_lut default_config
    = Return (NumberOps (number_ops 16 32)) /\
  exists F T,
    requested_fractionBits default_config = NInt F /\
    requested_totalBits default_config = NInt T /\
    valid_format F T /\
    T <= 32 /\ useBigInt default_config <> Some true /\
    has_constants NInt (number_ops 16 32) F T.
Proof.
  split; [reflexivity |].
  exact (createFixedPoint_backing_and_constants sample_lut default_config
           (NumberOps (number_ops 16 32)) eq_refl).
Defined.

(* ------------------------------------------------------------------ *)
(** ** Square root, once more *)

Lemma sqrt_scaled_facts (F T a : Z) :
  valid_format F T -> in_range T a -> 0 <= a ->
  let r := Z.sqrt (a * 2 ^ F) in
  0 <= r /\ r * r <= a * 2 ^ F < (r + 1) * (r + 1) /\ in_range T r.
Proof.
  intros [HF HT] [_ Hi] Ha r.
  pose proof (pow2_pos F ltac:(lia)) as PF.
  pose proof (pow2_pos (T - 1) ltac:(lia)) as PT.
  assert (Hn : 0 <= a * 2 ^ F) by nia.
  pose proof (Z.sqrt_spec (a * 2 ^ F) Hn) as S. cbv zeta in S. fold r in S.
  pose proof (Z.sqrt_nonneg (a * 2 ^ F)) as N. fold r in N.
  split; [exact N |]. split; [lia |].
  split; [lia |].
  assert (HFT : 2 ^ F <= 2 ^ (T - 1)) by (apply Z.pow_le_mono_r; lia).
  assert (r < 2 ^ (T - 1)); [| lia].
  apply Z.sqrt_lt_square; [lia | lia |]. nia.
Qed.

Lemma sqrt_of_square (k F : Z) :
  0 <= k -> 0 <= F -> Z.sqrt (k * k * 2 ^ F * 2 ^ F) = k * 2 ^ F.
Proof.
  intros Hk HF. pose proof (pow2_pos F HF).
  replace (k * k * 2 ^ F * 2 ^ F) with (k * 2 ^ F * (k * 2 ^ F)) by lia.
  apply Z.sqrt_square. nia.
Qed.

Lemma Big_sqrt_laws (F T tp ph : Z) (l : list Z) (L : Z) :
  valid_format F T -> sqrt_laws Z (fun z => z) (Big.ops F T tp ph l L).
Proof.
  intros HV a fuel Ha Hpos Hfuel. pose proof HV as [HF HT].
  cbn [FP.TOTAL_BITS FP.FRACTION_BITS Big.ops] in Ha, Hfuel.
  cbn [FP.TOTAL_BITS FP.FRACTION_BITS FP.sqrt Big.ops].
  destruct (sqrt_scaled_facts F T a HV Ha Hpos) as (N & S & R).
  rewrite Big_sqrt_nonneg by assumption.
  rewrite wrapBigInt_id by (assumption || lia). split.
  - eexists. split; [reflexivity |]. split; [exact N |]. split; [exact S | exact R].
  - intros k Hk ->. now rewrite sqrt_of_square by lia.
Qed.

Lemma Num_sqrt_laws (F T : Z) (tp ph : number) (l : list number)
      (L : number) :
  valid_format F T -> T <= 32 ->
  sqrt_laws number NInt (Num.ops F T tp ph l L).
Proof.
  intros HV HT32 a fuel Ha Hpos Hfuel. pose proof HV as [HF HT].
  cbn [FP.TOTAL_BITS FP.FRACTION_BITS Num.ops] in Ha, Hfuel.
  cbn [FP.TOTAL_BITS FP.FRACTION_BITS FP.sqrt Num.ops].
  destruct (sqrt_scaled_facts F T a HV Ha Hpos) as (N & S & R).
  rewrite Num_sqrt_nonneg by assumption.
  rewrite wrapBigInt_id by (assumption || lia). split.
  - eexists. split; [reflexivity |]. split; [exact N |]. split; [exact S | exact R].
  - intros k Hk ->. now rewrite sqrt_of_square by lia.
Qed.

(** X12. Under either backing, for a value [a >= 0] of a format, [sqrt(a)]
    never overflows: it returns the non-negative [r] with
    [r^2 <= a * ONE < (r + 1)^2], itself a value of the format, so the wrap
    changes nothing.  The root of a scaled perfect square is exact:
    [sqrt(k^2 * ONE) = k * ONE]. *)
Theorem sqrt_is_exact_floor_root
        (lut : list Z) (cfg : FixedPointConfig) (r : AnyOps) :
  createFixedPoint lut cfg = Return r -> holds_for r sqrt_laws.
Proof.
  apply for_every_format.
  - intros. now apply Big_sqrt_laws.
  - intros. now apply Num_sqrt_laws.
Qed.

Lemma sqrt_is_exact_floor_root_witness :
  createFixedPoint sample_lut default_config
    = Return (NumberOps (number_ops 16 32)) /\
  in_range 32 262144 /\ 0 <= 262144 /\
  (isqrt_fuel (262144 * 2 ^ 16) <= 36)%nat /\ 0 <= 2 /\
  262144 = 2 * 2 * 2 ^ 16 /\
  FP.sqrt (number_ops 16 32) 36 (NInt 262144)
    = Some (Return (NInt (2 * 2 ^ 16))).
Proof.
  assert (R : in_range 32 262144) by (unfold in_range; simpl; lia).
  assert (P : 0 <= 262144) by lia.
  assert (B : (isqrt_fuel (262144 * 2 ^ 16) <= 36)%nat)
    by (vm_compute; lia).
  assert (K : 0 <= 2) by lia.
  assert (E : 262144 = 2 * 2 * 2 ^ 16) by reflexivity.
  repeat (split; [reflexivity || assumption |]).
  exact (proj2 (sqrt_is_exact_floor_root sample_lut default_config
                  (NumberOps (number_ops 16 32)) eq_refl
                  262144 36%nat R P B) 2 K E).
Defined.

Section NewtonLoop.

Variable n : Z.
Hypothesis n_ge_2 : 2 <= n.

(** From a start at or above the root the loop never divides by zero, and
    whatever it returns is the root. *)
Lemma isqrt_loop_sound (fuel : nat) :
  forall x0 res, Z.sqrt n <= x0 ->
  isqrt_loop fuel n x0 (newton n x0) = Some res -> res = Return (Z.sqrt n).
Proof.
  destruct (sqrt_bounds n n_ge_2) as (Hs & _ & _).
  induction fuel as [| k IH]; intros x0 res Hlo H; [discriminate H |].
  cbn [isqrt_loop] in H.
  pose proof (newton_lower n n_ge_2 x0 ltac:(lia)) as Hlow.
  destruct (Z.ltb_spec (newton n x0) x0) as [Hlt | Hge].
  - unfold bigint_div in H.
    destruct (Z.eqb_spec (newton n x0) 0); [lia |].
    now apply (IH (newton n x0)).
  - inversion H. f_equal.
    destruct (Z.eq_dec x0 (Z.sqrt n)) as [-> | Hne]; [reflexivity |].
    pose proof (newton_decreases n n_ge_2 x0 ltac:(lia)). lia.
Qed.

End NewtonLoop.

(** X13. [isqrt] never throws: its loop never divides by zero.  Below 2 it
    returns its argument at once, a negative one included; from 2 on,
    whatever it returns within any budget is the floor square root, and it
    does return within [isqrt_fuel n] tests of the loop condition. *)
Theorem isqrt_total_and_sound (n : Z) (fuel : nat) :
  (forall e, isqrt fuel n <> Some (Throw e)) /\
  (n < 2 -> isqrt fuel n = Some (Return n)) /\
  (2 <= n -> forall res, isqrt fuel n = Some res ->
     res = Return (Z.sqrt n)) /\
  (2 <= n -> (isqrt_fuel n <= fuel)%nat ->
     isqrt fuel n = Some (Return (Z.sqrt n))).
Proof.
  assert (Small : n < 2 -> isqrt fuel n = Some (Return n)).
  { intros H. unfold isqrt. now destruct (Z.ltb_spec n 2); [| lia]. }
  assert (Sound : 2 <= n -> forall res, isqrt fuel n = Some res ->
                   res = Return (Z.sqrt n)).
  { intros Hn res H. unfold isqrt, bigint_div in H.
    destruct (Z.ltb_spec n 2); [lia |].
    destruct (Z.eqb_spec n 0); [lia |].
    apply (isqrt_loop_sound n Hn fuel n res); [| exact H].
    apply Z.sqrt_le_lin. lia. }
  split; [| split; [exact Small | split; [exact Sound |]]].
  - intros e H. destruct (Z.lt_ge_cases n 2) as [Hn | Hn].
    + rewrite (Small Hn) in H. discriminate H.
    + apply (Sound Hn) in H. discriminate H.
  - intros Hn Hf. apply isqrt_correct; [lia | exact Hf].
Qed.

Lemma isqrt_total_and_sound_witness :
  2 <= 17 /\ (isqrt_fuel 17 <= 6)%nat /\ isqrt 6 17 = Some (Return 4) /\
  -3 < 2 /\ isqrt 0 (-3) = Some (Return (-3)).
Proof.
  assert (H2 : 2 <= 17) by lia.
  assert (Hf : (isqrt_fuel 17 <= 6)%nat) by (vm_compute; lia).
  assert (Hn : -3 < 2) by lia.
  split; [exact H2 |]. split; [exact Hf |]. split.
  - exact (proj2 (proj2 (proj2 (isqrt_total_and_sound 17 6))) H2 Hf).
  - split; [exact Hn |].
    exact (proj1 (proj2 (isqrt_total_and_sound (-3) 0)) Hn).
Defined.

(* ------------------------------------------------------------------ *)
(** ** The period constant and the periodicity of [sin] *)

Lemma shifted_TWO_PI_bounds (F : Z) :
  0 < F ->
  2 ^ (F + 2) <= shifted_TWO_PI F < 2 ^ (F + 3) /\
  6 * 2 ^ F <= shifted_TWO_PI F.
Proof.
  intros HF. unfold shifted_TWO_PI, TWO_PI_Q16.
  destruct (Z.leb_spec 16 F) as [H16 | H16].
  - assert (E2 : 2 ^ (F + 2) = 2 ^ 18 * 2 ^ (F - 16)).
    { rewrite <- Z.pow_add_r by lia. f_equal. lia. }
    assert (E3 : 2 ^ (F + 3) = 2 ^ 19 * 2 ^ (F - 16)).
    { rewrite <- Z.pow_add_r by lia. f_equal. lia. }
    assert (E0 : 2 ^ F = 2 ^ 16 * 2 ^ (F - 16)).
    { rewrite <- Z.pow_add_r by lia. f_equal. lia. }
    pose proof (pow2_pos (F - 16) ltac:(lia)) as P.
    rewrite E2, E3, E0.
    change (2 ^ 18) with 262144. change (2 ^ 19) with 524288.
    change (2 ^ 16) with 65536. nia.
  - set (d := 2 ^ (16 - F)).
    assert (P : 0 < d) by (apply pow2_pos; lia).
    assert (E2 : 2 ^ (F + 2) * d = 2 ^ 18).
    { unfold d. rewrite <- Z.pow_add_r by lia. f_equal. lia. }
    assert (E3 : 2 ^ (F + 3) * d = 2 ^ 19).
    { unfold d. rewrite <- Z.pow_add_r by lia. f_equal. lia. }
    assert (E0 : 2 ^ F * d = 2 ^ 16).
    { unfold d. rewrite <- Z.pow_add_r by lia. f_equal. lia. }
    change (2 ^ 18) with 262144 in E2. change (2 ^ 19) with 524288 in E3.
    change (2 ^ 16) with 65536 in E0.
    repeat split.
    + apply Z.div_le_lower_bound; lia.
    + apply Z.div_lt_upper_bound; lia.
    + apply Z.div_le_lower_bound; lia.
Qed.

Lemma scaled_TWO_PI (F T : Z) :
  scaled F T TWO_PI_Q16 = wrapBigInt T (shifted_TWO_PI F).
Proof.
  unfold scaled, shifted_TWO_PI, DEFAULT_FRACTION_BITS. f_equal.
  destruct (Z.leb_spec 16 F) as [H16 | H16].
  - destruct (Z.ltb_spec (F - 16) 0); [lia |].
    destruct (Z.ltb_spec 0 (F - 16)).
    + now rewrite Z.shiftl_mul_pow2 by lia.
    + replace (F - 16) with 0 by lia. change (2 ^ 0) with 1. lia.
  - destruct (Z.ltb_spec 0 (F - 16)); [lia |].
    destruct (Z.ltb_spec (F - 16) 0); [| lia].
    rewrite Z.shiftr_div_pow2 by lia. do 2 f_equal. lia.
Qed.

Lemma TWO_PI_sign (F T : Z) :
  valid_format F T ->
  (F + 4 <= T ->
     scaled F T TWO_PI_Q16 = shifted_TWO_PI F /\
     2 ^ (F + 2) <= scaled F T TWO_PI_Q16) /\
  (T = F + 2 \/ T = F + 3 -> scaled F T TWO_PI_Q16 < 0).
Proof.
  intros [HF HT]. rewrite scaled_TWO_PI.
  destruct (shifted_TWO_PI_bounds F HF) as ([Lo Hi] & H6).
  set (v := shifted_TWO_PI F) in *.
  pose proof (pow2_pos F ltac:(lia)) as PF.
  assert (E1 : 2 ^ (F + 1) = 2 * 2 ^ F)
    by (rewrite Z.pow_add_r by lia; change (2 ^ 1) with 2; lia).
  assert (E2 : 2 ^ (F + 2) = 4 * 2 ^ F)
    by (rewrite Z.pow_add_r by lia; change (2 ^ 2) with 4; lia).
  assert (E3 : 2 ^ (F + 3) = 8 * 2 ^ F)
    by (rewrite Z.pow_add_r by lia; change (2 ^ 3) with 8; lia).
  split.
  - intros H4.
    assert (2 ^ (F + 3) <= 2 ^ (T - 1)) by (apply Z.pow_le_mono_r; lia).
    rewrite wrapBigInt_id; [split; [reflexivity | lia] | lia |].
    unfold in_range. lia.
  - intros [-> | ->].
    + (* T = F + 2: the wrap subtracts 2^(T+1) *)
      assert (W : wrapBigInt (F + 2) v = v - 2 * 2 ^ (F + 2)).
      { symmetry. apply wrapBigInt_unique_representative_aux; [lia | |].
        - unfold in_range. replace (F + 2 - 1) with (F + 1) by lia. lia.
        - exists (-2). lia. }
      rewrite W. lia.
    + assert (W : wrapBigInt (F + 3) v = v - 2 ^ (F + 3)).
      { symmetry. apply wrapBigInt_unique_representative_aux; [lia | |].
        - unfold in_range. replace (F + 3 - 1) with (F + 2) by lia. lia.
        - exists (-1). lia. }
      rewrite W. lia.
Qed.

(** The same principle, with the constants and the table each branch of
    [createFixedPoint] builds. *)
Lemma for_every_format_and_table (lut : list Z)
      (P : forall A : Type, (Z -> A) -> FP.FixedPointOps A -> Prop) :
  (forall F T, valid_format F T ->
     P Z (fun z => z)
       (Big.ops F T (scaled F T TWO_PI_Q16) (scaled F T PI_HALF_Q16)
          (map (scaled F T) lut) (Z.of_nat (List.length lut)))) ->
  (forall F T l, valid_format F T -> T <= 32 ->
     Forall (in_range T) l -> List.length l = List.length lut ->
     P number NInt
       (Num.ops F T (NInt (scaled F T TWO_PI_Q16))
          (NInt (scaled F T PI_HALF_Q16)) (map NInt l)
          (NInt (Z.of_nat (List.length l))))) ->
  forall cfg r, createFixedPoint lut cfg = Return r -> holds_for r P.
Proof.
  intros HB HN cfg r H. destruct r as [o | o]; cbn [holds_for].
  - apply createFixedPoint_number in H.
    destruct H as (F & T & l & HV & HT & Hall & Hlen & ->).
    rewrite <- Hlen. now apply HN.
  - apply createFixedPoint_bigint in H.
    destruct H as (F & T & HV & ->). now apply HB.
Qed.

(** X14. Whether [sin] and [cos] work is decided by the format.  When
    [totalBits >= fractionBits + 4] the rescaled [TWO_PI] is the Q16
    constant shifted to [fractionBits], at least [2^(fractionBits+2)], and
    over a non-empty table [sin] and [cos] return a sample of [[MIN, MAX]]
    on every operand of [[MIN, MAX]], under either backing.  When
    [totalBits] is [fractionBits + 2] or [fractionBits + 3], formats the
    constructor accepts, [TWO_PI] wraps to a negative number. *)
Theorem period_constant_by_format
        (lut : list Z) (cfg : FixedPointConfig) (r : AnyOps) :
  lut <> [] -> array_sized lut ->
  createFixedPoint lut cfg = Return r -> holds_for r period_by_format.
Proof.
  intros Hne Hsz. apply for_every_format_and_table.
  - intros F T HV. unfold period_by_format, TWO_PI_of.
    cbn [FP.TOTAL_BITS FP.FRACTION_BITS Big.ops].
    destruct (TWO_PI_sign F T HV) as [Hpos Hneg]. split; [| exact Hneg].
    intros H4. destruct (Hpos H4) as [E Lo].
    split; [exact E |]. split; [exact Lo |].
    apply Big_trig_closed; try assumption.
    destruct HV. pose proof (pow2_pos (F + 2) ltac:(lia)). lia.
  - intros F T l HV HT32 Hall Hlen. unfold period_by_format, TWO_PI_of.
    cbn [FP.TOTAL_BITS FP.FRACTION_BITS Num.ops].
    destruct (TWO_PI_sign F T HV) as [Hpos Hneg]. split; [| exact Hneg].
    intros H4. destruct (Hpos H4) as [E Lo].
    split; [exact E |]. split; [exact Lo |].
    apply Num_trig_closed; try assumption.
    + destruct l, lut; simpl in *; congruence.
    + unfold array_sized. rewrite Hlen. exact Hsz.
    + destruct HV. pose proof (pow2_pos (F + 2) ltac:(lia)). lia.
Qed.

Lemma period_constant_by_format_witness :
  sample_lut <> [] /\ array_sized sample_lut /\
  createFixedPoint sample_lut default_config
    = Return (NumberOps (number_ops 16 32)) /\
  period_by_format number NInt (number_ops 16 32).
Proof.
  assert (N : sample_lut <> []) by discriminate.
  assert (S : array_sized sample_lut) by reflexivity.
  split; [exact N |]. split; [exact S |]. split; [reflexivity |].
  exact (period_constant_by_format sample_lut default_config
           (NumberOps (number_ops 16 32)) N S eq_refl).
Defined.

Lemma Big_sin_index_mod (tp L theta : Z) :
  0 < tp ->
  Big.sin_index tp L theta = Return (Z.quot (theta mod tp * L) tp).
Proof.
  intros Htp. unfold Big.sin_index, bigint_rem, bigint_div.
  destruct (Z.eqb_spec tp 0); [lia |]. cbn [bind].
  now rewrite rem_normalise by assumption.
Qed.

Lemma Num_sin_index_mod (tp : Z) (L : number) (theta : Z) :
  0 < tp < 2 ^ 31 ->
  Num.sin_index (NInt tp) L (NInt theta) =
    bl <- JS.BigInt L ;;
    q <- bigint_div (theta mod tp * bl) tp ;;
    Return (JS.Number q).
Proof.
  intros Htp. unfold Num.sin_index.
  cbn [assertInteger JS.isFinite JS.isInteger negb orb bind].
  rewrite rem_int by lia. rewrite ltb_int.
  pose proof (Z.rem_bound_abs theta tp ltac:(lia)) as B.
  assert (H53 : 2 ^ 31 + 2 ^ 31 < 2 ^ 53) by reflexivity.
  assert (Et : (if Z.rem theta tp <? 0
                then JS.add (NInt (Z.rem theta tp)) (NInt tp)
                else NInt (Z.rem theta tp)) = NInt (theta mod tp)).
  { rewrite <- rem_normalise by lia.
    destruct (Z.ltb_spec (Z.rem theta tp) 0); [| reflexivity].
    apply add_int_exact. lia. }
  rewrite Et. reflexivity.
Qed.

(** X15. Under either backing, when the rescaled [TWO_PI] is positive,
    [sin] has period [TWO_PI] on every integer operand, in range or not:
    [sin(theta + k * TWO_PI) = sin(theta)], since [sin(theta)] is
    [sin(theta mod TWO_PI)], the two calls agreeing in every outcome. *)
Theorem sin_has_period_TWO_PI
        (lut : list Z) (cfg : FixedPointConfig) (r : AnyOps) :
  createFixedPoint lut cfg = Return r -> holds_for r sin_periodic.
Proof.
  apply for_every_format_and_table.
  - intros F T HV. unfold sin_periodic, TWO_PI_of.
    cbn [FP.TOTAL_BITS FP.FRACTION_BITS FP.sin Big.ops].
    set (tp := scaled F T TWO_PI_Q16). intros Htp.
    assert (M : forall theta,
              Big.sin tp (map (scaled F T) lut)
                (Z.of_nat (List.length lut)) theta
              = Big.sin tp (map (scaled F T) lut)
                  (Z.of_nat (List.length lut)) (theta mod tp)).
    { intros theta. unfold Big.sin.
      rewrite !Big_sin_index_mod by assumption.
      now rewrite Z.mod_mod by lia. }
    split; [| exact M].
    intros theta k. rewrite M, (M theta). now rewrite Z.mod_add by lia.
  - intros F T l [HF HT] HT32 _ _. unfold sin_periodic, TWO_PI_of.
    cbn [FP.TOTAL_BITS FP.FRACTION_BITS FP.sin Num.ops].
    set (tp := scaled F T TWO_PI_Q16). intros Htp.
    assert (Htp31 : 0 < tp < 2 ^ 31).
    { pose proof (scaled_range F T TWO_PI_Q16 ltac:(lia)) as [_ Hi].
      fold tp in Hi. pose proof (pow2_le_31 T ltac:(lia)). lia. }
    assert (M : forall theta,
              Num.sin (NInt tp) (map NInt l)
                (NInt (Z.of_nat (List.length l))) (NInt theta)
              = Num.sin (NInt tp) (map NInt l)
                  (NInt (Z.of_nat (List.length l))) (NInt (theta mod tp))).
    { intros theta. unfold Num.sin.
      rewrite !Num_sin_index_mod by assumption.
      now rewrite Z.mod_mod by lia. }
    split; [| exact M].
    intros theta k. rewrite M, (M theta). now rewrite Z.mod_add by lia.
Qed.

Lemma sin_has_period_TWO_PI_witness :
  createFixedPoint sample_lut default_config
    = Return (NumberOps (number_ops 16 32)) /\
  0 < TWO_PI_of (number_ops 16 32) /\
  FP.sin (number_ops 16 32) (NInt (102944 + 5 * 411775))
    = FP.sin (number_ops 16 32) (NInt 102944).
Proof.
  assert (P : 0 < TWO_PI_of (number_ops 16 32)) by reflexivity.
  split; [reflexivity |]. split; [exact P |].
  exact (proj1 (sin_has_period_TWO_PI sample_lut default_config
                  (NumberOps (number_ops 16 32)) eq_refl P) 102944 5).
Defined.

(* ------------------------------------------------------------------ *)
(** ** Where the two backings return the same *)

Lemma backings_of_inv (lut : list Z) (F T : Z)
      (on : FP.FixedPointOps number) (ob : FP.FixedPointOps Z) :
  table_small lut -> backings_of lut F T on ob ->
  valid_format F T /\ T <= 32 /\
  on = Num.ops F T (NInt (scaled F T TWO_PI_Q16))
         (NInt (scaled F T PI_HALF_Q16)) (map NInt (map (scaled F T) lut))
         (NInt (Z.of_nat (List.length lut))) /\
  ob = Big.ops F T (scaled F T TWO_PI_Q16) (scaled F T PI_HALF_Q16)
         (map (scaled F T) lut) (Z.of_nat (List.length lut)).
Proof.
  intros Hlut [HN HB].
  rewrite (createFixedPoint_on_integers lut (config F T false) F T
             eq_refl eq_refl) in HN.
  rewrite (createFixedPoint_on_integers lut (config F T true) F T
             eq_refl eq_refl) in HB.
  cbn [config useBigInt orElse andb] in HN, HB.
  destruct (Z.leb_spec F 0); [discriminate HN |].
  destruct (Z.leb_spec T F); [discriminate HN |].
  destruct (Z.gtb_spec T 32); [discriminate HN |]. cbn [andb] in HN.
  assert (HV : valid_format F T) by (split; lia).
  rewrite !scaleQ16_number_small in HN
    by (try assumption; unfold TWO_PI_Q16, PI_HALF_Q16; reflexivity).
  cbn [bind] in HN. rewrite mapM_scaleQ16_number in HN by assumption.
  cbn [bind] in HN. inversion HN. inversion HB.
  repeat split; try assumption; lia.
Qed.

Lemma isqrt_small_or_root (fuel : nat) (n res : Z) :
  0 <= n -> isqrt fuel n = Some (Return res) ->
  0 <= res /\ res * res <= Z.max n 1.
Proof.
  intros Hn H. destruct (Z.lt_ge_cases n 2) as [Hs | Hb].
  - unfold isqrt in H. destruct (Z.ltb_spec n 2); [| lia].
    inversion H. subst res. split; [lia |].
    assert (n = 0 \/ n = 1) as [-> | ->] by lia; simpl; lia.
  - unfold isqrt, bigint_div in H.
    destruct (Z.ltb_spec n 2); [lia |].
    destruct (Z.eqb_spec n 0); [lia |].
    apply (isqrt_loop_sound n Hb fuel n) in H;
      [| apply Z.sqrt_le_lin; lia].
    injection H as ->. split; [apply Z.sqrt_nonneg |].
    pose proof (Z.sqrt_spec n Hn) as S. cbv zeta in S. lia.
Qed.

Lemma isqrt_no_throw (fuel : nat) (n : Z) (e : exn) :
  isqrt fuel n <> Some (Throw e).
Proof.
  intros H. destruct (Z.lt_ge_cases n 2) as [Hs | Hb].
  - unfold isqrt in H. destruct (Z.ltb_spec n 2); [discriminate H | lia].
  - unfold isqrt, bigint_div in H.
    destruct (Z.ltb_spec n 2); [lia |].
    destruct (Z.eqb_spec n 0); [lia |].
    apply (isqrt_loop_sound n Hb fuel n) in H;
      [discriminate H | apply Z.sqrt_le_lin; lia].
Qed.

Lemma sqrt_agree (F T : Z) (fuel : nat) (a : Z) :
  valid_format F T -> T <= 32 -> in_range T a ->
  agree_partial (Num.sqrt F T fuel (NInt a)) (Big.sqrt F T fuel a).
Proof.
  intros [HF HT] HT32 Ha. unfold Num.sqrt, Big.sqrt.
  cbn [assertInteger JS.isFinite JS.isInteger negb orb pbind].
  rewrite ltb_int. destruct (Z.ltb_spec a 0); [exact I |].
  rewrite Num_ONE, Big_ONE by lia. cbn [JS.BigInt pbind].
  pose proof (pow2_pos F ltac:(lia)) as PF.
  destruct (isqrt fuel (a * 2 ^ F)) as [[res | e] |] eqn:E; cbn [pbind].
  - apply isqrt_small_or_root in E; [| nia].
    rewrite wrapNumber_Number_exact; [reflexivity | lia |].
    pose proof (in_range_abs T a ltac:(lia) Ha).
    assert (2 ^ F <= 2 ^ 31) by (apply Z.pow_le_mono_r; lia).
    assert (a * 2 ^ F <= 2 ^ 31 * 2 ^ 31) by nia.
    change (2 ^ 31) with 2147483648 in *.
    change (2 ^ 53) with 9007199254740992.
    rewrite Z.abs_eq by lia. nia.
  - exact I.
  - exact I.
Qed.

(** X16. For every format the number backing is offered at, the two
    backings return the same on [add], [sub], [negate], [abs], [mod],
    [toInt], [sqrt] and the six comparisons for all operands of the format
    (the same integer or boolean, or an exception on both sides, [sqrt]
    with the same budget), and their constants [ONE], [EPSILON], [MAX] and
    [MIN] are the same integers. *)
Theorem backings_agree_on_exact_operations
        (lut : list Z) (F T : Z)
        (on : FP.FixedPointOps number) (ob : FP.FixedPointOps Z) :
  table_small lut -> backings_of lut F T on ob ->
  (FP.ONE on = NInt (FP.ONE ob) /\ FP.EPSILON on = NInt (FP.EPSILON ob) /\
   FP.MAX on = NInt (FP.MAX ob) /\ FP.MIN on = NInt (FP.MIN ob)) /\
  forall a b, in_range T a -> in_range T b ->
    agree (FP.add on (NInt a) (NInt b)) (FP.add ob a b) /\
    agree (FP.sub on (NInt a) (NInt b)) (FP.sub ob a b) /\
    agree (FP.negate on (NInt a)) (FP.negate ob a) /\
    agree (FP.abs on (NInt a)) (FP.abs ob a) /\
    agree (FP.mod_ on (NInt a) (NInt b)) (FP.mod_ ob a b) /\
    FP.toInt on (NInt a) = NInt (FP.toInt ob a) /\
    (forall fuel,
       agree_partial (FP.sqrt on fuel (NInt a)) (FP.sqrt ob fuel a)) /\
    FP.eq on (NInt a) (NInt b) = FP.eq ob a b /\
    FP.neq on (NInt a) (NInt b) = FP.neq ob a b /\
    FP.gt on (NInt a) (NInt b) = FP.gt ob a b /\
    FP.gte on (NInt a) (NInt b) = FP.gte ob a b /\
    FP.lt on (NInt a) (NInt b) = FP.lt ob a b /\
    FP.lte on (NInt a) (NInt b) = FP.lte ob a b.
Proof.
  intros Hlut HP.
  destruct (backings_of_inv lut F T on ob Hlut HP) as (HV & HT32 & -> & ->).
  pose proof HV as [HF HT].
  set (bo := Big.ops _ _ _ _ _ _). set (no := Num.ops _ _ _ _ _ _).
  destruct (Big_has_constants F T (scaled F T TWO_PI_Q16)
              (scaled F T PI_HALF_Q16) (map (scaled F T) lut)
              (Z.of_nat (List.length lut)) HV)
    as (_ & _ & _ & B1 & B2 & B3 & B4).
  destruct (Num_has_constants F T (NInt (scaled F T TWO_PI_Q16))
              (NInt (scaled F T PI_HALF_Q16))
              (map NInt (map (scaled F T) lut))
              (NInt (Z.of_nat (List.length lut))) HV HT32)
    as (_ & _ & _ & N1 & N2 & N3 & N4).
  fold bo in B1, B2, B3, B4. fold no in N1, N2, N3, N4.
  split.
  { rewrite B1, B2, B3, B4, N1, N2, N3, N4. repeat split. }
  intros a b Ha Hb.
  destruct (Num_compares F T (NInt (scaled F T TWO_PI_Q16))
              (NInt (scaled F T PI_HALF_Q16))
              (map NInt (map (scaled F T) lut))
              (NInt (Z.of_nat (List.length lut))) a b)
    as (C1 & C2 & C3 & C4 & C5 & C6).
  destruct (Big_compares F T (scaled F T TWO_PI_Q16)
              (scaled F T PI_HALF_Q16) (map (scaled F T) lut)
              (Z.of_nat (List.length lut)) a b)
    as (D1 & D2 & D3 & D4 & D5 & D6).
  fold no in C1, C2, C3, C4, C5, C6. fold bo in D1, D2, D3, D4, D5, D6.
  rewrite C1, C2, C3, C4, C5, C6, D1, D2, D3, D4, D5, D6.
  subst no bo.
  cbn [FP.add FP.sub FP.negate FP.abs FP.mod_ FP.toInt FP.sqrt
       Num.ops Big.ops].
  split; [now apply (add_agree F T) |].
  split; [now apply (sub_agree F T) |].
  split; [now apply (negate_agree F T) |].
  split; [now apply (abs_agree F T) |].
  split; [now apply (mod_agree F T) |].
  split; [now apply (toInt_agree F T) |].
  split; [intros fuel; now apply sqrt_agree |].
  repeat split.
Qed.

Lemma backings_agree_on_exact_operations_witness :
  table_small sample_lut /\
  backings_of sample_lut 16 32 (number_ops 16 32) (bigint_ops 16 32) /\
  in_range 32 (-327680000) /\ in_range 32 458752 /\
  agree (FP.mod_ (number_ops 16 32) (NInt (-327680000)) (NInt 458752))
        (FP.mod_ (bigint_ops 16 32) (-327680000) 458752).
Proof.
  assert (S : table_small sample_lut) by (repeat constructor; reflexivity).
  assert (B : backings_of sample_lut 16 32 (number_ops 16 32)
                (bigint_ops 16 32)) by (split; reflexivity).
  assert (Ra : in_range 32 (-327680000)) by (unfold in_range; simpl; lia).
  assert (Rb : in_range 32 458752) by (unfold in_range; simpl; lia).
  repeat (split; [assumption |]).
  pose proof (proj2 (backings_agree_on_exact_operations sample_lut 16 32
                       (number_ops 16 32) (bigint_ops 16 32) S B)
                (-327680000) 458752 Ra Rb) as H.
  exact (proj1 (proj2 (proj2 (proj2 (proj2 H))))).
Defined.

Lemma in_range_abs_pow (T a : Z) :
  1 <= T -> in_range T a -> Z.abs a <= 2 ^ (T - 1).
Proof. intros HT [Lo Hi]. lia. Qed.

Lemma mul_shift_bound (F T a b : Z) :
  valid_format F T -> in_range T a -> in_range T b ->
  Z.abs (Z.shiftr (a * b) F) <= 2 ^ (2 * T - F - 2).
Proof.
  intros [HF HT] Ha Hb.
  apply in_range_abs_pow in Ha; [| lia]. apply in_range_abs_pow in Hb; [| lia].
  pose proof (pow2_pos F ltac:(lia)) as PF.
  pose proof (pow2_pos (2 * T - F - 2) ltac:(lia)) as PP.
  assert (E : 2 ^ (T - 1) * 2 ^ (T - 1) = 2 ^ (2 * T - F - 2) * 2 ^ F).
  { rewrite <- !Z.pow_add_r by lia. f_equal. lia. }
  assert (B : Z.abs (a * b) <= 2 ^ (2 * T - F - 2) * 2 ^ F).
  { rewrite Z.abs_mul, <- E.
    apply Z.mul_le_mono_nonneg; try apply Z.abs_nonneg; assumption. }
  rewrite Z.shiftr_div_pow2 by lia.
  assert (- 2 ^ (2 * T - F - 2) <= a * b / 2 ^ F <= 2 ^ (2 * T - F - 2)).
  { split.
    - apply Z.div_le_lower_bound; lia.
    - apply Z.div_le_upper_bound; lia. }
  lia.
Qed.

Lemma div_quot_bound (F T a b : Z) :
  valid_format F T -> in_range T a ->
  Z.abs (Z.quot (a * 2 ^ F) b) <= 2 ^ (F + T - 1).
Proof.
  intros [HF HT] Ha. apply in_range_abs_pow in Ha; [| lia].
  pose proof (pow2_pos F ltac:(lia)) as PF.
  pose proof (pow2_pos (F + T - 1) ltac:(lia)) as PQ.
  destruct (Z.eq_dec b 0) as [-> | Hb].
  { destruct (a * 2 ^ F); simpl; lia. }
  etransitivity; [apply quot_abs_le; exact Hb |].
  rewrite Z.abs_mul, (Z.abs_eq (2 ^ F)) by lia.
  replace (F + T - 1) with ((T - 1) + F) by lia.
  rewrite Z.pow_add_r by lia.
  apply Z.mul_le_mono_nonneg_r; lia.
Qed.

(** X17. [mul] and [div] on narrow formats.  When
    [2 * totalBits - fractionBits <= 54] the shifted product of two values
    of the format is below [2^53], and the two backings return the same
    product for all operands; when [fractionBits + totalBits <= 53] the
    same holds of the quotients (a zero divisor throws on both sides).  The
    default Q16.16 format meets both bounds. *)
Theorem backings_agree_on_mul_div_in_narrow_formats
        (lut : list Z) (F T : Z)
        (on : FP.FixedPointOps number) (ob : FP.FixedPointOps Z) :
  table_small lut -> backings_of lut F T on ob ->
  (2 * T - F <= 54 ->
   forall a b, in_range T a -> in_range T b ->
     agree (FP.mul on (NInt a) (NInt b)) (FP.mul ob a b)) /\
  (F + T <= 53 ->
   forall a b, in_range T a -> in_range T b ->
     agree (FP.div on (NInt a) (NInt b)) (FP.div ob a b)).
Proof.
  intros Hlut HP.
  destruct (backings_of_inv lut F T on ob Hlut HP) as (HV & HT32 & -> & ->).
  pose proof HV as [HF HT].
  cbn [FP.mul FP.div Num.ops Big.ops]. split.
  - intros HN a b Ha Hb. apply (mul_agree F T HV HT32).
    eapply Z.le_lt_trans; [now apply (mul_shift_bound F T) |].
    apply Z.pow_lt_mono_r; lia.
  - intros HN a b Ha Hb. apply (div_agree F T HV HT32).
    eapply Z.le_lt_trans; [now apply (div_quot_bound F T) |].
    apply Z.pow_lt_mono_r; lia.
Qed.

Lemma backings_agree_on_mul_div_in_narrow_formats_witness :
  table_small sample_lut /\
  backings_of sample_lut 16 32 (number_ops 16 32) (bigint_ops 16 32) /\
  2 * 32 - 16 <= 54 /\ 16 + 32 <= 53 /\
  in_range 32 2147483647 /\ in_range 32 3 /\
  agree (FP.mul (number_ops 16 32) (NInt 2147483647) (NInt 2147483647))
        (FP.mul (bigint_ops 16 32) 2147483647 2147483647) /\
  agree (FP.div (number_ops 16 32) (NInt 2147483647) (NInt 3))
        (FP.div (bigint_ops 16 32) 2147483647 3).
Proof.
  assert (S : table_small sample_lut) by (repeat constructor; reflexivity).
  assert (B : backings_of sample_lut 16 32 (number_ops 16 32)
                (bigint_ops 16 32)) by (split; reflexivity).
  assert (N1 : 2 * 32 - 16 <= 54) by lia.
  assert (N2 : 16 + 32 <= 53) by lia.
  assert (Ra : in_range 32 2147483647) by (unfold in_range; simpl; lia).
  assert (Rb : in_range 32 3) by (unfold in_range; simpl; lia).
  repeat (split; [assumption |]).
  pose proof (backings_agree_on_mul_div_in_narrow_formats sample_lut 16 32
                (number_ops 16 32) (bigint_ops 16 32) S B) as [HM HD].
  split.
  - exact (HM N1 2147483647 2147483647 Ra Ra).
  - exact (HD N2 2147483647 3 Ra Rb).
Defined.

(** X18. The conversions into the format.  [fromFloat] returns the same on
    both backings for every number (a value, or an exception on both
    sides); [fromInt] does so for every argument that is not an integer
    (both throw) and for every integer [n] with [|n * ONE| < 2^53];
    [fromString] does so for every string that is rejected (both throw) or
    whose parsed value is below [2^53] in magnitude. *)
Theorem backings_agree_on_conversions
        (lut : list Z) (F T : Z)
        (on : FP.FixedPointOps number) (ob : FP.FixedPointOps Z) :
  table_small lut -> backings_of lut F T on ob ->
  (forall f, agree (FP.fromFloat on f) (FP.fromFloat ob f)) /\
  (forall n, (forall z, n = NInt z -> Z.abs (z * 2 ^ F) < 2 ^ 53) ->
     agree (FP.fromInt on n) (FP.fromInt ob n)) /\
  (forall s,
     (forall v, parseFixedPointString s F = Return v -> Z.abs v < 2 ^ 53) ->
     agree (FP.fromString on s) (FP.fromString ob s)).
Proof.
  intros Hlut HP.
  destruct (backings_of_inv lut F T on ob Hlut HP) as (HV & HT32 & -> & ->).
  pose proof HV as [HF HT].
  cbn [FP.fromFloat FP.fromInt FP.fromString Num.ops Big.ops].
  split; [intros f; now apply (fromFloat_agree F T) |]. split.
  - intros [z | m k | sg |] Hn; try exact I.
    rewrite Num_fromInt_int, Big_fromInt_int by auto. reflexivity.
  - intros s Hs. unfold Num.fromString, Big.fromString.
    destruct (parseFixedPointString s F) as [v | e]; cbn [bind]; [| exact I].
    rewrite wrapNumber_Number_exact by (auto; lia). reflexivity.
Qed.

Lemma backings_agree_on_conversions_witness :
  table_small sample_lut /\
  backings_of sample_lut 16 32 (number_ops 16 32) (bigint_ops 16 32) /\
  (forall v, parseFixedPointString "3.14159" 16 = Return v ->
     Z.abs v < 2 ^ 53) /\
  agree (FP.fromString (number_ops 16 32) "3.14159")
        (FP.fromString (bigint_ops 16 32) "3.14159").
Proof.
  assert (S : table_small sample_lut) by (repeat constructor; reflexivity).
  assert (B : backings_of sample_lut 16 32 (number_ops 16 32)
                (bigint_ops 16 32)) by (split; reflexivity).
  assert (P : forall v, parseFixedPointString "3.14159" 16 = Return v ->
                Z.abs v < 2 ^ 53).
  { intros v H. vm_compute in H. injection H as <-. reflexivity. }
  repeat (split; [assumption |]).
  exact (proj2 (proj2 (backings_agree_on_conversions sample_lut 16 32
                         (number_ops 16 32) (bigint_ops 16 32) S B))
           "3.14159"%string P).
Defined.

Lemma rem_by_zero (a : Z) : JS.rem (NInt a) (NInt 0) = NaN.
Proof. unfold JS.rem. simpl. reflexivity. Qed.

Lemma sin_agree (tp L : Z) (l : list Z) (theta : Z) :
  Z.abs tp <= 2 ^ 31 -> 0 < L < 2 ^ 32 ->
  agree_sample (Num.sin (NInt tp) (map NInt l) (NInt L) (NInt theta))
               (Big.sin tp l L theta).
Proof.
  intros Htp HL.
  unfold Num.sin, Num.sin_index, Big.sin, Big.sin_index, bigint_rem,
    bigint_div.
  cbn [assertInteger JS.isFinite JS.isInteger negb orb bind].
  destruct (Z.eqb_spec tp 0) as [-> | Hn].
  { rewrite rem_by_zero. exact I. }
  rewrite rem_int, ltb_int by assumption.
  pose proof (Z.rem_bound_abs theta tp Hn) as B.
  change (2 ^ 31) with 2147483648 in Htp.
  change (2 ^ 32) with 4294967296 in HL.
  set (t := if Z.rem theta tp <? 0 then Z.rem theta tp + tp
            else Z.rem theta tp).
  assert (Ht : Z.abs t < 2 * Z.abs tp).
  { unfold t. destruct (Z.rem theta tp <? 0); lia. }
  assert (Et : (if Z.rem theta tp <? 0
                then JS.add (NInt (Z.rem theta tp)) (NInt tp)
                else NInt (Z.rem theta tp)) = NInt t).
  { unfold t. destruct (Z.rem theta tp <? 0); [| reflexivity].
    apply add_int_exact. change (2 ^ 53) with 9007199254740992. lia. }
  rewrite Et. cbn [JS.BigInt bind].
  destruct (Z.eqb_spec tp 0); [contradiction |]. cbn [bind].
  assert (Hq : Z.abs (Z.quot (t * L) tp) <= 2 * L).
  { rewrite <- Z.quot_abs by assumption.
    apply Z.quot_le_upper_bound; [lia |].
    rewrite Z.abs_mul, (Z.abs_eq L) by lia. nia. }
  rewrite Number_exact by (change (2 ^ 53) with 9007199254740992; lia).
  rewrite rem_int by lia.
  destruct (Z.eqb_spec L 0); [lia |]. cbn [bind].
  pose proof (Z.rem_bound_abs (Z.quot (t * L) tp) L ltac:(lia)) as BL.
  fold t.
  rewrite Number_exact by (change (2 ^ 53) with 9007199254740992; lia).
  rewrite array_get_map_NInt.
  now destruct (array_get l (NInt (Z.rem (Z.quot (t * L) tp) L))).
Qed.

Lemma cos_agree (T tp ph L : Z) (l : list Z) (theta : Z) :
  1 <= T <= 32 -> in_range T theta -> in_range T ph ->
  Z.abs tp <= 2 ^ 31 -> 0 < L < 2 ^ 32 ->
  agree_sample (Num.cos T (NInt tp) (NInt ph) (map NInt l) (NInt L)
                  (NInt theta))
               (Big.cos T tp ph l L theta).
Proof.
  intros HT Hth Hph Htp HL. rewrite Num_cos_sin by assumption.
  unfold Big.cos. now apply sin_agree.
Qed.

(** X19. [sin] and [cos] return the same on both backings, for every
    format the number backing is offered at and every operand of the
    format: the same sample of the table, [undefined] on both sides (the
    formats whose period constant wraps negative) or an exception on both
    sides.  The table is not empty and has fewer than [2^32] samples. *)
Theorem backings_agree_on_sin_cos
        (lut : list Z) (F T : Z)
        (on : FP.FixedPointOps number) (ob : FP.FixedPointOps Z) :
  table_small lut -> lut <> [] -> array_sized lut ->
  backings_of lut F T on ob ->
  forall theta, in_range T theta ->
    agree_sample (FP.sin on (NInt theta)) (FP.sin ob theta) /\
    agree_sample (FP.cos on (NInt theta)) (FP.cos ob theta).
Proof.
  intros Hlut Hne Hsz HP theta Hth.
  destruct (backings_of_inv lut F T on ob Hlut HP) as (HV & HT32 & -> & ->).
  pose proof HV as [HF HT].
  cbn [FP.sin FP.cos Num.ops Big.ops].
  assert (HL : 0 < Z.of_nat (List.length lut) < 2 ^ 32).
  { split; [| exact Hsz]. destruct lut; [contradiction | simpl; lia]. }
  assert (Htp : Z.abs (scaled F T TWO_PI_Q16) <= 2 ^ 31).
  { apply (in_range_abs T); [lia | apply scaled_range; lia]. }
  split.
  - now apply sin_agree.
  - apply cos_agree; try assumption; [lia | apply scaled_range; lia].
Qed.

Lemma backings_agree_on_sin_cos_witness :
  table_small sample_lut /\ sample_lut <> [] /\ array_sized sample_lut /\
  backings_of sample_lut 16 32 (number_ops 16 32) (bigint_ops 16 32) /\
  in_range 32 (-102944) /\
  agree_sample (FP.sin (number_ops 16 32) (NInt (-102944)))
               (FP.sin (bigint_ops 16 32) (-102944)).
Proof.
  assert (S : table_small sample_lut) by (repeat constructor; reflexivity).
  assert (N : sample_lut <> []) by discriminate.
  assert (A : array_sized sample_lut) by reflexivity.
  assert (B : backings_of sample_lut 16 32 (number_ops 16 32)
                (bigint_ops 16 32)) by (split; reflexivity).
  assert (R : in_range 32 (-102944)) by (unfold in_range; simpl; lia).
  repeat (split; [assumption |]).
  exact (proj1 (backings_agree_on_sin_cos sample_lut 16 32
                  (number_ops 16 32) (bigint_ops 16 32) S N A B
                  (-102944) R)).
Defined.

(* ------------------------------------------------------------------ *)
(** ** The parser of decimal literals *)

(** X20. [floorDiv] throws exactly on a zero divisor.  For a positive
    divisor, the only kind [parseFixedPointString] passes, it is the floor
    of the quotient.  For a negative divisor it is the floor only when the
    division is exact: otherwise it is one below the floor for a negative
    dividend and one above it for a positive one. *)
Theorem floorDiv_is_floor_for_positive_divisors (a b : Z) :
  floorDiv a b =
    if b =? 0 then Throw RangeError
    else Return (a / b
                 + (if (b <? 0) && negb (a mod b =? 0)
                    then (if a <? 0 then -1 else 1) else 0)).
Proof.
  destruct (Z.eqb_spec b 0) as [-> | Hb]; [reflexivity |].
  destruct (Z.ltb_spec b 0) as [Hneg | Hpos]; cbn [andb].
  - unfold floorDiv, bigint_div, bigint_rem.
    destruct (Z.eqb_spec b 0); [contradiction |]. cbn [bind].
    pose proof (Z.quot_rem' a b) as E.
    pose proof (Z.rem_bound_abs a b Hb) as B.
    destruct (Z.eqb_spec (Z.rem a b) 0) as [R0 | R0].
    + assert (D : a / b = Z.quot a b)
        by (symmetry; apply (Z.div_unique a b _ 0); lia).
      assert (M : a mod b = 0)
        by (symmetry; apply (Z.mod_unique a b (Z.quot a b)); lia).
      rewrite M, D. cbn [Z.eqb negb]. f_equal. lia.
    + destruct (Z.ltb_spec a 0) as [Ha | Ha].
      * pose proof (Z.rem_nonpos a b Hb ltac:(lia)).
        assert (D : a / b = Z.quot a b)
          by (symmetry; apply (Z.div_unique a b _ (Z.rem a b)); lia).
        assert (M : a mod b = Z.rem a b)
          by (symmetry; apply (Z.mod_unique a b (Z.quot a b)); lia).
        rewrite M, D. destruct (Z.eqb_spec (Z.rem a b) 0); [contradiction |].
        cbn [negb]. f_equal.
      * pose proof (Z.rem_nonneg a b Hb Ha).
        assert (D : a / b = Z.quot a b - 1)
          by (symmetry; apply (Z.div_unique a b _ (Z.rem a b + b)); lia).
        assert (M : a mod b = Z.rem a b + b)
          by (symmetry; apply (Z.mod_unique a b (Z.quot a b - 1)); lia).
        rewrite M, D. destruct (Z.eqb_spec (Z.rem a b + b) 0); [lia |].
        cbn [negb]. f_equal. lia.
  - rewrite floorDiv_floor by lia. f_equal. lia.
Qed.

Lemma parse_rejects (s : string) (F : Z) :
  literal_value s = None ->
  parseFixedPointString s F =
    Throw (Error (if is_empty (trim s) then "Fixed-point string is empty."
                  else "Invalid fixed-point string.")).
Proof.
  unfold literal_value, parseFixedPointString.
  set (trimmed := trim s).
  assert (Hsplit : forall sign rest,
    match split_dot rest with
    | [i] =>
        if all_digits i && negb (is_empty i)
        then Some (sign * digits_value 0 i, 1) else None
    | [i; f] =>
        if all_digits i && all_digits f && negb (is_empty i && is_empty f)
        then Some (sign * (digits_value 0 i
                           * 10 ^ Z.of_nat (String.length f)
                           + digits_value 0 f),
                   10 ^ Z.of_nat (String.length f))
        else None
    | _ => None
    end = None ->
    (let parts := split_dot rest in
     if (2 <? List.length parts)%nat then
       Throw (Error "Invalid fixed-point string.")
     else
       let intPartStr := nth 0 parts EmptyString in
       let fracPartStr := nth 1 parts EmptyString in
       if is_empty intPartStr && is_empty fracPartStr then
         Throw (Error "Invalid fixed-point string.")
       else if negb (all_digits intPartStr) || negb (all_digits fracPartStr)
       then Throw (Error "Invalid fixed-point string.")
       else
         let intPart := digits_value 0 intPartStr in
         let fracPart := digits_value 0 fracPartStr in
         let denom :=
           if is_empty fracPartStr then 1
           else 10 ^ Z.of_nat (String.length fracPartStr) in
         let scaledBase := Z.shiftl (intPart * denom + fracPart) F in
         let half := Z.quot denom 2 in
         let signedNumerator := sign * scaledBase in
         floorDiv (signedNumerator + half) denom)
    = Throw (Error "Invalid fixed-point string.")).
  { intros sign rest H.
    destruct (split_dot rest) as [| i [| f [| x parts]]];
      cbv zeta; cbn [List.length Nat.ltb Nat.leb nth]; try reflexivity.
    - cbn [is_empty all_digits andb negb orb].
      rewrite Bool.andb_true_r, Bool.orb_false_r.
      destruct (is_empty i); [reflexivity |].
      destruct (all_digits i); [discriminate H | reflexivity].
    - destruct (is_empty i && is_empty f)%bool; [reflexivity |].
      destruct (all_digits i); [| reflexivity].
      destruct (all_digits f); [discriminate H | reflexivity]. }
  destruct trimmed as [| c r] eqn:Et.
  - reflexivity.
  - cbn [is_empty String.get char_is].
    destruct (Ascii.eqb c "+") eqn:Eplus;
      [| destruct (Ascii.eqb c "-") eqn:Eminus].
    + rewrite substring_tail. apply Hsplit.
    + rewrite substring_tail. apply Hsplit.
    + rewrite substring_whole. apply Hsplit.
Qed.

Lemma literal_value_denominator (s : string) (N D : Z) :
  literal_value s = Some (N, D) -> 0 < D.
Proof.
  unfold literal_value.
  destruct (match trim s with
            | String c r =>
                if Ascii.eqb c "+" then (1, r)
                else if Ascii.eqb c "-" then (-1, r)
                else (1, trim s)
            | EmptyString => (1, trim s)
            end) as [sign body].
  destruct (split_dot body) as [| i [| f [| x parts]]]; try discriminate.
  - destruct (_ && _)%bool; [| discriminate].
    intros H. inversion H. lia.
  - destruct (_ && _)%bool; [| discriminate].
    intros H. inversion H. apply Z.pow_pos_nonneg; lia.
Qed.

(** *** The literals of the grammar are the strings the parser reads *)

Lemma is_space_white (c : ascii) :
  is_space c = existsb (Ascii.eqb c) white_space.
Proof. destruct c as [[] [] [] [] [] [] [] []]; reflexivity. Qed.

Lemma is_space_iff (c : ascii) : is_space c = true <-> In c white_space.
Proof.
  rewrite is_space_white, existsb_exists. split.
  - intros (x & Hx & E). apply Ascii.eqb_eq in E. now subst x.
  - intros H. exists c. split; [exact H | apply Ascii.eqb_refl].
Qed.

Lemma digit_char_facts (d : nat) :
  (d <= 9)%nat ->
  is_digit (digit_char d) = true /\ is_space (digit_char d) = false /\
  Ascii.eqb (digit_char d) "." = false /\
  Ascii.eqb (digit_char d) "+" = false /\
  Ascii.eqb (digit_char d) "-" = false /\
  Z.of_nat (nat_of_ascii (digit_char d)) - 48 = Z.of_nat d.
Proof.
  intros H.
  do 10 (destruct d as [| d]; [repeat split |]). lia.
Qed.

Lemma is_digit_char (c : ascii) :
  is_digit c = true -> exists d, (d <= 9)%nat /\ c = digit_char d.
Proof.
  intros H. exists (nat_of_ascii c - 48)%nat. revert H.
  destruct c as [[] [] [] [] [] [] [] []]; intros H; try discriminate H;
    (split; [vm_compute; lia | reflexivity]).
Qed.

(** [trimStart] removes the longest prefix of white space. *)
Lemma trimStart_white (ws l : list ascii) :
  is_white ws -> trimStart (ws ++ l) = trimStart l.
Proof.
  induction 1 as [| c ws Hc _ IH]; [reflexivity |].
  simpl. apply is_space_iff in Hc. now rewrite Hc.
Qed.

Lemma trimStart_head (c : ascii) (l : list ascii) :
  is_space c = false -> trimStart (c :: l) = c :: l.
Proof. intros H. simpl. now rewrite H. Qed.

Lemma trimStart_split (l : list ascii) :
  exists ws, is_white ws /\ l = ws ++ trimStart l.
Proof.
  induction l as [| c l (ws & Hw & E)].
  - exists []. split; [constructor | reflexivity].
  - simpl. destruct (is_space c) eqn:Ec.
    + exists (c :: ws). split.
      * constructor; [now apply is_space_iff | exact Hw].
      * simpl. now rewrite <- E.
    + exists []. split; [constructor | reflexivity].
Qed.

Lemma is_white_rev (l : list ascii) : is_white l -> is_white (rev l).
Proof. apply Forall_rev. Qed.

Lemma list_of_trim (s : string) :
  list_ascii_of_string (trim s)
    = rev (trimStart (rev (trimStart (list_ascii_of_string s)))).
Proof. unfold trim. apply list_ascii_of_string_of_list_ascii. Qed.

(** What is left after trimming is the text between the white space. *)
Lemma trim_core (s : string) (ws1 core ws2 : list ascii) :
  is_white ws1 -> is_white ws2 -> core <> [] ->
  Forall (fun c => is_space c = false) core ->
  list_ascii_of_string s = ws1 ++ core ++ ws2 ->
  trim s = string_of_list_ascii core.
Proof.
  intros H1 H2 Hne Hcore E. unfold trim. f_equal. rewrite E.
  rewrite trimStart_white by assumption.
  destruct core as [| c core]; [contradiction |].
  simpl app. rewrite trimStart_head by (now inversion Hcore).
  change (c :: core ++ ws2) with ((c :: core) ++ ws2).
  rewrite rev_app_distr, trimStart_white by (now apply is_white_rev).
  apply Forall_rev in Hcore.
  destruct (rev (c :: core)) as [| d r] eqn:Er.
  - apply (f_equal (@List.length ascii)) in Er.
    rewrite length_rev in Er. discriminate Er.
  - rewrite trimStart_head by (now inversion Hcore).
    rewrite <- Er. apply rev_involutive.
Qed.

Lemma trim_split (s : string) :
  exists ws1 ws2, is_white ws1 /\ is_white ws2 /\
    list_ascii_of_string s
      = ws1 ++ list_ascii_of_string (trim s) ++ ws2.
Proof.
  rewrite list_of_trim. set (l := list_ascii_of_string s).
  destruct (trimStart_split l) as (ws1 & H1 & E1).
  destruct (trimStart_split (rev (trimStart l))) as (ws & Hw & E2).
  exists ws1, (rev ws). split; [exact H1 |].
  split; [now apply is_white_rev |].
  rewrite E1 at 1. f_equal.
  rewrite <- rev_app_distr, <- E2. symmetry. apply rev_involutive.
Qed.

Lemma trim_empty_iff (s : string) :
  is_empty (trim s) = true <-> is_white (list_ascii_of_string s).
Proof.
  split.
  - intros H. destruct (trim_split s) as (ws1 & ws2 & H1 & H2 & E).
    destruct (trim s); [| discriminate H]. rewrite E. simpl.
    apply Forall_app. now split.
  - intros H. unfold trim.
    rewrite <- (app_nil_r (list_ascii_of_string s)).
    rewrite trimStart_white by assumption. reflexivity.
Qed.

(** The digits of the grammar are the strings [/^\d*$/] accepts, and
    [BigInt] reads their decimal value. *)
Lemma digits_value_text (ds : list nat) :
  is_digits ds ->
  forall acc,
    digits_value acc (string_of_list_ascii (digits_text ds))
      = fold_left (fun a d => 10 * a + Z.of_nat d) ds acc.
Proof.
  induction 1 as [| d ds Hd _ IH]; intros acc; [reflexivity |].
  simpl. destruct (digit_char_facts d Hd) as (_ & _ & _ & _ & _ & E).
  rewrite E. apply IH.
Qed.

Lemma digits_text_facts (ds : list nat) :
  is_digits ds ->
  all_digits (string_of_list_ascii (digits_text ds)) = true /\
  digits_value 0 (string_of_list_ascii (digits_text ds)) = decimal ds /\
  String.length (string_of_list_ascii (digits_text ds)) = List.length ds /\
  is_empty (string_of_list_ascii (digits_text ds))
    = match ds with [] => true | _ => false end /\
  Forall (fun c => is_space c = false) (digits_text ds).
Proof.
  intros H. split; [| split; [| split; [| split]]].
  - induction H as [| d ds Hd _ IH]; [reflexivity |]. simpl.
    destruct (digit_char_facts d Hd) as (E & _). now rewrite E.
  - now apply digits_value_text.
  - clear H. induction ds as [| d ds IH]; [reflexivity |]. simpl.
    now rewrite IH.
  - now destruct ds.
  - induction H as [| d ds Hd _ IH]; constructor; [| exact IH].
    now destruct (digit_char_facts d Hd) as (_ & E & _).
Qed.

Lemma all_digits_text (i : string) :
  all_digits i = true ->
  exists ds, is_digits ds /\ list_ascii_of_string i = digits_text ds.
Proof.
  induction i as [| c r IH]; intros H.
  - exists []. split; [constructor | reflexivity].
  - simpl in H. apply andb_prop in H. destruct H as [Hc Hr].
    destruct (IH Hr) as (ds & Hds & E).
    destruct (is_digit_char c Hc) as (d & Hd & ->).
    exists (d :: ds). split; [now constructor |]. simpl. now rewrite E.
Qed.

(** [split(".")] on the text of the grammar. *)
Lemma split_dot_digits (ds : list nat) :
  is_digits ds ->
  split_dot (string_of_list_ascii (digits_text ds))
    = [string_of_list_ascii (digits_text ds)].
Proof.
  induction 1 as [| d ds Hd _ IH]; [reflexivity |].
  simpl. destruct (digit_char_facts d Hd) as (_ & _ & E & _).
  rewrite E. change (map digit_char ds) with (digits_text ds).
  now rewrite IH.
Qed.

Lemma split_dot_point (ds : list nat) (l : list ascii) :
  is_digits ds ->
  split_dot (string_of_list_ascii (digits_text ds ++ "."%char :: l))
    = string_of_list_ascii (digits_text ds)
        :: split_dot (string_of_list_ascii l).
Proof.
  induction 1 as [| d ds Hd _ IH]; [reflexivity |].
  simpl. destruct (digit_char_facts d Hd) as (_ & _ & E & _).
  rewrite E. change (map digit_char ds) with (digits_text ds).
  now rewrite IH.
Qed.

Lemma split_dot_nonempty (s : string) : split_dot s <> [].
Proof.
  destruct s as [| c r]; simpl; [discriminate |].
  destruct (Ascii.eqb c "."); [discriminate |].
  destruct (split_dot r); discriminate.
Qed.

(** The parts [split(".")] returns, joined by points, are the string. *)
Lemma split_dot_joined (s : string) :
  list_ascii_of_string s = joined (split_dot s).
Proof.
  induction s as [| c r IH]; [reflexivity |]. simpl.
  pose proof (split_dot_nonempty r) as Hne.
  destruct (Ascii.eqb c ".") eqn:Ec.
  - apply Ascii.eqb_eq in Ec. subst c. rewrite IH.
    destruct (split_dot r); [contradiction | reflexivity].
  - rewrite IH. destruct (split_dot r); [contradiction | reflexivity].
Qed.

Lemma string_of_digits_text (i : string) (ds : list nat) :
  list_ascii_of_string i = digits_text ds ->
  i = string_of_list_ascii (digits_text ds).
Proof.
  intros E. rewrite <- E. symmetry. apply string_of_list_ascii_of_string.
Qed.

(** The value [literal_value] gives to the body [digits[.digits]]. *)
Lemma body_value_of_literal (sg : Z) (ip fp : list nat) (point : list ascii) :
  is_digits ip -> is_digits fp -> ip <> [] \/ fp <> [] ->
  point = ["."%char] \/ point = [] /\ fp = [] ->
  match split_dot (string_of_list_ascii
                     (digits_text ip ++ point ++ digits_text fp)) with
  | [i] =>
      if all_digits i && negb (is_empty i)
      then Some (sg * digits_value 0 i, 1) else None
  | [i; f] =>
      if all_digits i && all_digits f && negb (is_empty i && is_empty f)
      then
        let D := 10 ^ Z.of_nat (String.length f) in
        Some (sg * (digits_value 0 i * D + digits_value 0 f), D)
      else None
  | _ => None
  end = Some (literal_numerator sg ip fp, literal_denominator fp).
Proof.
  intros Hip Hfp Hne Hpt.
  destruct (digits_text_facts ip Hip) as (Ai & Vi & _ & Ei & _).
  destruct (digits_text_facts fp Hfp) as (Af & Vf & Lf & Ef & _).
  unfold literal_numerator, literal_denominator.
  destruct Hpt as [-> | [-> ->]].
  - simpl app. rewrite split_dot_point, split_dot_digits by assumption.
    rewrite Ai, Af, Ei, Ef, Vi, Vf, Lf. cbv zeta.
    destruct ip, fp; try reflexivity. destruct Hne; contradiction.
  - simpl app. rewrite app_nil_r, split_dot_digits by assumption.
    rewrite Ai, Ei, Vi.
    destruct ip; [destruct Hne; contradiction |].
    cbn [andb negb]. change (decimal []) with 0.
    change (10 ^ Z.of_nat (List.length (@nil nat))) with 1.
    now rewrite Z.mul_1_r, Z.add_0_r.
Qed.

Lemma literal_of_body_value (sg : Z) (body : string) (N D : Z) :
  match split_dot body with
  | [i] =>
      if all_digits i && negb (is_empty i)
      then Some (sg * digits_value 0 i, 1) else None
  | [i; f] =>
      if all_digits i && all_digits f && negb (is_empty i && is_empty f)
      then
        let D := 10 ^ Z.of_nat (String.length f) in
        Some (sg * (digits_value 0 i * D + digits_value 0 f), D)
      else None
  | _ => None
  end = Some (N, D) ->
  exists ip fp point,
    is_digits ip /\ is_digits fp /\ (ip <> [] \/ fp <> []) /\
    (point = ["."%char] \/ point = [] /\ fp = []) /\
    list_ascii_of_string body = digits_text ip ++ point ++ digits_text fp /\
    N = literal_numerator sg ip fp /\ D = literal_denominator fp.
Proof.
  intros H. pose proof (split_dot_joined body) as J.
  destruct (split_dot body) as [| i [| f [| x parts]]];
    try discriminate H.
  - destruct (all_digits i) eqn:Ai; [| discriminate H].
    destruct (is_empty i) eqn:Ei; [discriminate H |].
    cbn [andb negb] in H. injection H as <- <-.
    destruct (all_digits_text i Ai) as (ip & Hip & Ti).
    pose proof (string_of_digits_text i ip Ti) as Si.
    destruct (digits_text_facts ip Hip) as (_ & Vi & _ & Ee & _).
    exists ip, [], []. rewrite <- Si in Vi, Ee.
    split; [exact Hip |]. split; [constructor |].
    split; [left; intros ->; rewrite Ei in Ee; discriminate Ee |].
    split; [right; now split |].
    split; [simpl in J; rewrite J, Ti; now rewrite !app_nil_r |].
    unfold literal_numerator, literal_denominator.
    change (decimal []) with 0.
    change (10 ^ Z.of_nat (List.length (@nil nat))) with 1.
    rewrite Z.mul_1_r, Z.add_0_r, Vi. now split.
  - destruct (all_digits i) eqn:Ai; [| discriminate H].
    destruct (all_digits f) eqn:Af; [| discriminate H].
    destruct (is_empty i && is_empty f)%bool eqn:Eif; [discriminate H |].
    cbn [andb negb] in H. cbv zeta in H. injection H as <- <-.
    destruct (all_digits_text i Ai) as (ip & Hip & Ti).
    destruct (all_digits_text f Af) as (fp & Hfp & Tf).
    pose proof (string_of_digits_text i ip Ti) as Si.
    pose proof (string_of_digits_text f fp Tf) as Sf.
    destruct (digits_text_facts ip Hip) as (_ & Vi & _ & Ei & _).
    destruct (digits_text_facts fp Hfp) as (_ & Vf & Lf & Ef & _).
    rewrite <- Si in Vi, Ei. rewrite <- Sf in Vf, Lf, Ef.
    exists ip, fp, ["."%char].
    split; [exact Hip |]. split; [exact Hfp |]. split.
    { destruct ip; [| left; discriminate].
      destruct fp; [| right; discriminate].
      rewrite Ei, Ef in Eif. discriminate Eif. }
    split; [now left |].
    split; [simpl in J; rewrite J, Ti, Tf; now rewrite app_nil_r |].
    unfold literal_numerator, literal_denominator.
    rewrite Vi, Vf, Lf. now split.
Qed.

(** A literal of the grammar has the value [literal_value] reads. *)
Lemma literal_value_of_literal (s : string) (sg : Z) (ip fp : list nat) :
  is_literal s sg ip fp ->
  literal_value s = Some (literal_numerator sg ip fp, literal_denominator fp).
Proof.
  intros (ws1 & ws2 & st & point & H1 & H2 & Hst & Hip & Hfp & Hne & Hpt & E).
  set (rest := digits_text ip ++ point ++ digits_text fp).
  assert (Hrest : Forall (fun c => is_space c = false) rest).
  { unfold rest. apply Forall_app. split.
    - now destruct (digits_text_facts ip Hip) as (_ & _ & _ & _ & W).
    - apply Forall_app. split.
      + destruct Hpt as [-> | [-> _]]; repeat constructor.
      + now destruct (digits_text_facts fp Hfp) as (_ & _ & _ & _ & W). }
  assert (Hhead : exists c r, rest = c :: r /\
            Ascii.eqb c "+" = false /\ Ascii.eqb c "-" = false).
  { unfold rest. destruct ip as [| d ip].
    - destruct Hpt as [-> | [-> ->]].
      + exists "."%char, (digits_text fp). now repeat split.
      + destruct Hne; contradiction.
    - inversion Hip; subst.
      destruct (digit_char_facts d ltac:(assumption))
        as (_ & _ & _ & Ep & Em & _).
      eexists _, _. split; [reflexivity |]. now split. }
  assert (Htrim : trim s = string_of_list_ascii (st ++ rest)).
  { apply (trim_core s ws1 (st ++ rest) ws2); try assumption.
    - destruct Hhead as (c & r & -> & _). now destruct st.
    - apply Forall_app. split; [| exact Hrest].
      destruct Hst; repeat constructor.
    - rewrite E. unfold rest. now rewrite <- !app_assoc. }
  unfold literal_value. rewrite Htrim.
  destruct Hhead as (c & r & Er & Ep & Em).
  assert (Hbody :
    match string_of_list_ascii (st ++ rest) with
    | String c0 r0 =>
        if Ascii.eqb c0 "+" then (1, r0)
        else if Ascii.eqb c0 "-" then (-1, r0)
        else (1, string_of_list_ascii (st ++ rest))
    | EmptyString => (1, string_of_list_ascii (st ++ rest))
    end = (sg, string_of_list_ascii rest)).
  { destruct Hst; simpl app; [| reflexivity | reflexivity].
    rewrite Er. simpl. now rewrite Ep, Em. }
  rewrite Hbody. now apply body_value_of_literal.
Qed.

(** What [literal_value] reads is a literal of the grammar. *)
Lemma literal_of_literal_value (s : string) (N D : Z) :
  literal_value s = Some (N, D) ->
  exists sg ip fp,
    is_literal s sg ip fp /\
    N = literal_numerator sg ip fp /\ D = literal_denominator fp.
Proof.
  unfold literal_value. intros H.
  destruct (trim_split s) as (ws1 & ws2 & H1 & H2 & E).
  assert (Hsign : exists sg st body,
    sign_text st sg /\
    list_ascii_of_string (trim s) = st ++ list_ascii_of_string body /\
    match trim s with
    | String c r =>
        if Ascii.eqb c "+" then (1, r)
        else if Ascii.eqb c "-" then (-1, r)
        else (1, trim s)
    | EmptyString => (1, trim s)
    end = (sg, body)).
  { destruct (trim s) as [| c r].
    - exists 1, [], EmptyString. repeat split. constructor.
    - destruct (Ascii.eqb c "+") eqn:Ep;
        [| destruct (Ascii.eqb c "-") eqn:Em].
      + apply Ascii.eqb_eq in Ep. subst c.
        exists 1, ["+"%char], r. repeat split. constructor.
      + apply Ascii.eqb_eq in Em. subst c.
        exists (-1), ["-"%char], r. repeat split. constructor.
      + exists 1, [], (String c r). repeat split. constructor. }
  destruct Hsign as (sg & st & body & Hst & Et & Em). rewrite Em in H.
  destruct (literal_of_body_value sg body N D H)
    as (ip & fp & point & Hip & Hfp & Hne & Hpt & Eb & HN & HD).
  exists sg, ip, fp. split; [| now split].
  exists ws1, ws2, st, point.
  repeat (split; [assumption |]).
  rewrite E, Et, Eb. now rewrite <- !app_assoc.
Qed.

(** X21. [parseFixedPointString] accepts exactly the signed decimal
    literals: optional white space, an optional sign, digits and, after an
    optional point, more digits, one digit at least, then optional white
    space.  On a literal it returns the value scaled by
    [2^fractionBits] and rounded to the nearest integer, a tie going up.  A
    string of white space only (the empty one included) is rejected with
    "Fixed-point string is empty."; any other string that is no literal is
    rejected with "Invalid fixed-point string.". *)
Theorem parseFixedPointString_accepts_exactly_literals (s : string) (F : Z) :
  0 <= F ->
  (forall sg ip fp, is_literal s sg ip fp ->
     parseFixedPointString s F
       = Return (round_half_up (literal_numerator sg ip fp * 2 ^ F)
                   (literal_denominator fp))) /\
  (is_white (list_ascii_of_string s) ->
     parseFixedPointString s F
       = Throw (Error "Fixed-point string is empty.")) /\
  (~ is_white (list_ascii_of_string s) ->
   ~ (exists sg ip fp, is_literal s sg ip fp) ->
     parseFixedPointString s F
       = Throw (Error "Invalid fixed-point string.")).
Proof.
  intros HF. split; [| split].
  - intros sg ip fp H. apply parse_rounds_half_up; [exact HF |].
    now apply literal_value_of_literal.
  - intros H. apply trim_empty_iff in H.
    unfold parseFixedPointString. now rewrite H.
  - intros Hw Hl. rewrite parse_rejects.
    + destruct (is_empty (trim s)) eqn:Ee; [| reflexivity].
      apply trim_empty_iff in Ee. contradiction.
    + destruct (literal_value s) as [[N D] |] eqn:E; [| reflexivity].
      exfalso. apply Hl.
      destruct (literal_of_literal_value s N D E) as (sg & ip & fp & H & _).
      now exists sg, ip, fp.
Qed.

Lemma parseFixedPointString_accepts_exactly_literals_witness :
  0 <= 16 /\
  is_literal (String "160" " -.5 ") (-1) [] [5%nat] /\
  parseFixedPointString (String "160" " -.5 ") 16 = Return (-32768) /\
  is_white (list_ascii_of_string (String "009" " ")) /\
  parseFixedPointString (String "009" " ") 16
    = Throw (Error "Fixed-point string is empty.").
Proof.
  assert (H : 0 <= 16) by lia.
  assert (L : is_literal (String "160" " -.5 ") (-1) [] [5%nat]).
  { exists ["160"; " "]%char, [" "]%char, ["-"]%char, ["."]%char.
    split; [repeat constructor; simpl; tauto |].
    split; [repeat constructor; simpl; tauto |].
    split; [constructor |]. split; [constructor |].
    split; [repeat constructor |].
    split; [right; discriminate |]. split; [now left | reflexivity]. }
  assert (W : is_white (list_ascii_of_string (String "009" " ")))
    by (repeat constructor; simpl; tauto).
  destruct (parseFixedPointString_accepts_exactly_literals
              (String "160" " -.5 ") 16 H) as (A & _).
  destruct (parseFixedPointString_accepts_exactly_literals
              (String "009" " ") 16 H) as (_ & B & _).
  split; [exact H |]. split; [exact L |].
  split; [exact (A (-1) [] [5%nat] L) |]. split; [exact W | exact (B W)].
Defined.

Lemma round_half_up_nearest (p q : Z) :
  0 < q ->
  2 * p - q < 2 * q * round_half_up p q <= 2 * p + q.
Proof.
  intros Hq. unfold round_half_up.
  pose proof (Z.div_mod (2 * p + q) (2 * q) ltac:(lia)) as D.
  pose proof (Z.mod_pos_bound (2 * p + q) (2 * q) ltac:(lia)) as B.
  lia.
Qed.

Lemma round_half_up_exact (m q : Z) :
  0 < q -> round_half_up (m * q) q = m.
Proof.
  intros Hq. unfold round_half_up. symmetry.
  apply (Z.div_unique _ _ _ q); lia.
Qed.

Lemma round_half_up_mono (p p' q : Z) :
  0 < q -> p <= p' -> round_half_up p q <= round_half_up p' q.
Proof.
  intros Hq Hp. unfold round_half_up. apply Z.div_le_mono; lia.
Qed.

(** X22. The value [parseFixedPointString] returns for a literal of exact
    value [N / D] is a nearest integer to [N * 2^fractionBits / D]: it is
    within half a unit of it, so a literal that is a multiple of
    [2^-fractionBits] is converted exactly; and the conversion is monotone
    in the value of the literal. *)
Theorem parseFixedPointString_rounds_to_nearest
        (s : string) (F N D : Z) :
  0 <= F -> literal_value s = Some (N, D) ->
  exists v,
    parseFixedPointString s F = Return v /\
    2 * (N * 2 ^ F) - D < 2 * D * v <= 2 * (N * 2 ^ F) + D /\
    (forall m, N * 2 ^ F = m * D -> v = m) /\
    (forall s' N' D' v',
       literal_value s' = Some (N', D') ->
       parseFixedPointString s' F = Return v' ->
       N * D' <= N' * D -> v <= v').
Proof.
  intros HF H. pose proof (literal_value_denominator s N D H) as HD.
  exists (round_half_up (N * 2 ^ F) D).
  split; [now apply parse_rounds_half_up |].
  split; [now apply round_half_up_nearest |]. split.
  - intros m ->. now apply round_half_up_exact.
  - intros s' N' D' v' H' P' Hle.
    pose proof (literal_value_denominator s' N' D' H') as HD'.
    rewrite (parse_rounds_half_up s' F N' D' HF H') in P'.
    injection P' as <-.
    pose proof (pow2_pos F HF) as PF.
    pose proof (round_half_up_nearest (N * 2 ^ F) D HD) as B.
    pose proof (round_half_up_nearest (N' * 2 ^ F) D' HD') as B'.
    set (v := round_half_up (N * 2 ^ F) D) in *.
    set (v' := round_half_up (N' * 2 ^ F) D') in *.
    destruct (Z.le_gt_cases v v') as [Hv | Hv]; [exact Hv | exfalso].
    assert (Hs : v' + 1 <= v) by lia.
    assert (K1 : 2 * D * D' * (v' + 1) <= 2 * D * D' * v) by nia.
    assert (K2 : 2 * D * D' * v <= D' * (2 * (N * 2 ^ F) + D)) by nia.
    assert (K3 : D * (2 * (N' * 2 ^ F) - D') < 2 * D * D' * v') by nia.
    assert (K4 : N * D' * 2 ^ F <= N' * D * 2 ^ F) by nia.
    nia.
Qed.

Lemma parseFixedPointString_rounds_to_nearest_witness :
  0 <= 16 /\ literal_value "0.1" = Some (1, 10) /\
  exists v,
    parseFixedPointString "0.1" 16 = Return v /\
    2 * (1 * 2 ^ 16) - 10 < 2 * 10 * v <= 2 * (1 * 2 ^ 16) + 10.
Proof.
  assert (H : 0 <= 16) by lia.
  assert (L : literal_value "0.1" = Some (1, 10)) by reflexivity.
  split; [exact H |]. split; [exact L |].
  destruct (parseFixedPointString_rounds_to_nearest "0.1" 16 1 10 H L)
    as (v & P & B & _).
  exists v. split; [exact P | exact B].
Defined.

Lemma literal_without_fraction (sg : Z) (ip : list nat) (F : Z) :
  round_half_up (literal_numerator sg ip [] * 2 ^ F) (literal_denominator [])
    = sg * decimal ip * 2 ^ F.
Proof.
  unfold literal_numerator, literal_denominator.
  change (decimal []) with 0.
  change (10 ^ Z.of_nat (List.length (@nil nat))) with 1.
  rewrite Z.mul_1_r, Z.add_0_r.
  replace (sg * decimal ip * 2 ^ F) with (sg * decimal ip * 2 ^ F * 1)
    at 1 by lia.
  apply round_half_up_exact. lia.
Qed.

Lemma Big_fromString_laws (F T tp ph : Z) (l : list Z) (L : Z) :
  valid_format F T -> fromString_laws Z (fun z => z) (Big.ops F T tp ph l L).
Proof.
  intros HV s. pose proof HV as [HF HT].
  cbn [FP.fromString FP.fromInt FP.TOTAL_BITS FP.FRACTION_BITS Big.ops].
  split.
  - intros e He. unfold Big.fromString. now rewrite He.
  - intros sg ip fp Hl. cbv zeta. intros _.
    pose proof (literal_value_of_literal s sg ip fp Hl) as E.
    rewrite (Big_fromString_literal F T s _ _ HV E).
    split; [reflexivity |]. intros ->.
    rewrite Big_fromInt_int by assumption.
    now rewrite literal_without_fraction.
Qed.

Lemma Num_fromString_laws (F T : Z) (tp ph : number) (l : list number)
      (L : number) :
  valid_format F T -> T <= 32 ->
  fromString_laws number NInt (Num.ops F T tp ph l L).
Proof.
  intros HV HT32 s. pose proof HV as [HF HT].
  cbn [FP.fromString FP.fromInt FP.TOTAL_BITS FP.FRACTION_BITS Num.ops].
  split.
  - intros e He. unfold Num.fromString. now rewrite He.
  - intros sg ip fp Hl. cbv zeta. intros Hb.
    pose proof (literal_value_of_literal s sg ip fp Hl) as E.
    rewrite (Num_fromString_literal F T s _ _ HV HT32 E Hb).
    split; [reflexivity |]. intros ->.
    rewrite literal_without_fraction in *.
    now rewrite Num_fromInt_int by assumption.
Qed.

(** X23. [fromString] of every operation set [createFixedPoint] returns
    throws what [parseFixedPointString] throws, and nothing else on a
    literal below [2^53]: a literal of the grammar is converted to the
    integer nearest to its value times [2^fractionBits] (a tie going up),
    wrapped into the word rather than rejected when it is out of range,
    provided that integer is below [2^53]; and on a literal without
    fraction digits [fromString] returns what [fromInt] returns on the
    integer it denotes. *)
Theorem fromString_of_literals (lut : list Z) (cfg : FixedPointConfig)
        (r : AnyOps) :
  createFixedPoint lut cfg = Return r -> holds_for r fromString_laws.
Proof.
  apply for_every_format.
  - intros. now apply Big_fromString_laws.
  - intros. now apply Num_fromString_laws.
Qed.

Lemma fromString_of_literals_witness :
  createFixedPoint sample_lut default_config
    = Return (NumberOps (number_ops 16 32)) /\
  is_literal " +42 " 1 [4%nat; 2%nat] [] /\
  FP.fromString (number_ops 16 32) " +42 "
    = FP.fromInt (number_ops 16 32) (NInt (1 * decimal [4%nat; 2%nat])) /\
  FP.fromString (number_ops 16 32) "4e2"
    = Throw (Error "Invalid fixed-point string.").
Proof.
  assert (C : createFixedPoint sample_lut default_config
              = Return (NumberOps (number_ops 16 32))) by reflexivity.
  assert (L : is_literal " +42 " 1 [4%nat; 2%nat] []).
  { exists [" "]%char, [" "]%char, ["+"]%char, [].
    split; [repeat constructor; simpl; tauto |].
    split; [repeat constructor; simpl; tauto |].
    split; [constructor |]. split; [repeat constructor |].
    split; [constructor |].
    split; [left; discriminate |]. split; [now right | reflexivity]. }
  pose proof (fromString_of_literals sample_lut default_config
                (NumberOps (number_ops 16 32)) C) as H.
  split; [exact C |]. split; [exact L |]. split.
  - refine (proj2 (proj2 (H " +42 "%string) 1 [4%nat; 2%nat] [] L _) eq_refl).
    reflexivity.
  - exact (proj1 (H "4e2"%string) _ eq_refl).
Defined.

(* ------------------------------------------------------------------ *)
(** ** Conversions from and to doubles *)

Lemma dyadic_zero (e : Z) : JS.dyadic 0 e = NInt 0.
Proof. unfold JS.dyadic. destruct (0 <=? e); reflexivity. Qed.

Lemma dyadic_double (x e : Z) : JS.dyadic (2 * x) e = JS.dyadic x (e + 1).
Proof.
  destruct (Z.eq_dec x 0) as [-> | Hx]; [now rewrite !dyadic_zero |].
  unfold JS.dyadic.
  destruct (Z.leb_spec 0 e) as [He | He].
  - destruct (Z.leb_spec 0 (e + 1)); [| lia]. f_equal.
    rewrite Z.pow_add_r by lia. lia.
  - destruct (Z.eqb_spec (2 * x) 0); [lia |].
    destruct (Z.eqb_spec x 0); [contradiction |].
    replace (Z.to_nat (- e)) with (S (Z.to_nat (- (e + 1)))) by lia.
    cbn [JS.strip_aux].
    destruct (Z.leb_spec (- e) 0); [lia |].
    rewrite Z.even_mul. cbn [Z.even orb].
    replace (2 * x / 2) with x by (rewrite Z.mul_comm, Z.div_mul; lia).
    replace (- e - 1) with (- (e + 1)) by lia.
    destruct (Z.leb_spec 0 (e + 1)) as [H1 | H1]; [| reflexivity].
    assert (e = -1) by lia. subst e. cbn. f_equal. lia.
Qed.

(** The canonical form does not depend on how the value is split into a
    mantissa and a power of two. *)
Lemma dyadic_shift (x i e : Z) :
  0 <= i -> JS.dyadic (x * 2 ^ i) e = JS.dyadic x (e + i).
Proof.
  intros Hi. revert x e. pattern i. apply natlike_ind; [| | exact Hi].
  - intros x e. change (2 ^ 0) with 1. now rewrite Z.mul_1_r, Z.add_0_r.
  - intros n Hn IH x e. rewrite Z.pow_succ_r by lia.
    replace (x * (2 * 2 ^ n)) with (2 * (x * 2 ^ n)) by lia.
    rewrite dyadic_double, IH. f_equal. lia.
Qed.

Lemma dyadic_odd (m k : Z) :
  Z.odd m = true -> 0 < k -> JS.dyadic m (- k) = NFrac m (Z.to_pos k).
Proof.
  intros Ho Hk. unfold JS.dyadic.
  destruct (Z.leb_spec 0 (- k)); [lia |].
  destruct (Z.eqb_spec m 0) as [-> | _]; [discriminate Ho |].
  cbn [JS.strip_aux]. rewrite Z.opp_involutive.
  destruct (Z.leb_spec k 0); [lia |].
  rewrite <- Z.negb_odd, Ho. reflexivity.
Qed.

Lemma bitlen_mul_pow2 (a j : Z) :
  0 < a -> 0 <= j -> JS.bitlen (a * 2 ^ j) = JS.bitlen a + j.
Proof.
  intros Ha Hj. unfold JS.bitlen. pose proof (pow2_pos j Hj).
  destruct (Z.eqb_spec (a * 2 ^ j) 0); [nia |].
  destruct (Z.eqb_spec a 0); [lia |].
  rewrite Z.log2_mul_pow2 by lia. lia.
Qed.

(** A value [m * 2^(e + j)] with a mantissa [m] below [2^53] is a double,
    whichever way it is handed to the rounding. *)
Lemma round_to_double_scaled (m j e : Z) :
  Z.abs m < 2 ^ 53 -> 0 <= j -> -1074 <= e <= 0 -> j + e <= 971 ->
  JS.round_to_double (m * 2 ^ j) e = JS.dyadic m (e + j).
Proof.
  intros Hm Hj He Hje.
  pose proof (pow2_pos j Hj) as Pj.
  assert (Ha : Z.abs (m * 2 ^ j) = Z.abs m * 2 ^ j)
    by (rewrite Z.abs_mul, (Z.abs_eq (2 ^ j)) by lia; reflexivity).
  assert (Hs : Z.sgn (m * 2 ^ j) = Z.sgn m)
    by (rewrite Z.sgn_mul, (Z.sgn_pos (2 ^ j)) by lia; lia).
  assert (Big : forall x, 0 <= x <= 971 -> Z.abs m * 2 ^ x < 2 ^ 1024).
  { intros x Hx.
    replace (2 ^ 1024) with (2 ^ 53 * 2 ^ 971)
      by (rewrite <- Z.pow_add_r by lia; reflexivity).
    assert (2 ^ x <= 2 ^ 971) by (apply Z.pow_le_mono_r; lia).
    pose proof (pow2_pos x ltac:(lia)). pose proof (Z.abs_nonneg m).
    apply Z.le_lt_trans with (Z.abs m * 2 ^ 971).
    - apply Z.mul_le_mono_nonneg_l; lia.
    - apply Z.mul_lt_mono_pos_r; [apply pow2_pos; lia | exact Hm]. }
  unfold JS.round_to_double. cbv zeta. rewrite Ha, Hs.
  set (a := Z.abs m * 2 ^ j). set (bl := JS.bitlen a).
  set (E := Z.max (e + bl - 53) (-1074)).
  destruct (Z.leb_spec E e) as [HE | HE].
  - assert (O : (2 ^ 1024 <=? a * 2 ^ e) = false).
    { apply Z.leb_gt. destruct (Z.eq_dec e 0) as [-> | Hne].
      - change (2 ^ 0) with 1. rewrite Z.mul_1_r. apply Big. lia.
      - rewrite Z.pow_neg_r by lia. rewrite Z.mul_0_r. reflexivity. }
    rewrite O. now apply dyadic_shift.
  - assert (Hm0 : m <> 0).
    { intros ->. unfold E, bl, a in HE. cbn in HE. lia. }
    assert (Hbl : bl = JS.bitlen (Z.abs m) + j)
      by (unfold bl, a; apply bitlen_mul_pow2; lia).
    pose proof (bitlen_le (Z.abs m) 53 ltac:(lia) ltac:(lia)) as Hbm.
    assert (Hsh : E - e = bl - 53) by lia.
    set (sh := E - e) in *.
    assert (Psh : 0 < 2 ^ sh) by (apply pow2_pos; lia).
    assert (Hq : Z.shiftr a sh = Z.abs m * 2 ^ (j - sh)).
    { rewrite Z.shiftr_div_pow2 by lia. unfold a.
      replace (2 ^ j) with (2 ^ (j - sh) * 2 ^ sh)
        by (rewrite <- Z.pow_add_r by lia; f_equal; lia).
      rewrite Z.mul_assoc, Z.div_mul by lia. reflexivity. }
    rewrite Hq. set (q := Z.abs m * 2 ^ (j - sh)).
    assert (Hr : a - Z.shiftl q sh = 0).
    { rewrite Z.shiftl_mul_pow2 by lia. unfold q, a.
      rewrite <- Z.mul_assoc, <- Z.pow_add_r by lia.
      replace (j - sh + sh) with j by lia. lia. }
    rewrite Hr.
    assert (Hh : 0 < 2 ^ (sh - 1)) by (apply pow2_pos; lia).
    destruct (Z.ltb_spec (2 ^ (sh - 1)) 0); [lia |].
    destruct (Z.eqb_spec (2 ^ (sh - 1)) 0); [lia |]. cbn [orb andb].
    assert (Hres : JS.dyadic (Z.sgn m * q) E = JS.dyadic m (e + j)).
    { unfold q. rewrite Z.mul_assoc, (Z.mul_comm (Z.sgn m)), Z.abs_sgn.
      rewrite dyadic_shift by lia. f_equal. lia. }
    rewrite Hres.
    destruct (Z.leb_spec 0 E) as [HE0 | HE0]; [| reflexivity].
    assert (O : (2 ^ 1024 <=? q * 2 ^ E) = false).
    { apply Z.leb_gt. unfold q.
      rewrite <- Z.mul_assoc, <- Z.pow_add_r by lia. apply Big. lia. }
    now rewrite O.
Qed.

Lemma Number_pow2 (F : Z) : 0 <= F <= 971 -> JS.Number (2 ^ F) = NInt (2 ^ F).
Proof.
  intros HF. unfold JS.Number.
  replace (2 ^ F) with (1 * 2 ^ F) at 1 by lia.
  rewrite round_to_double_scaled by (try reflexivity; lia).
  unfold JS.dyadic. destruct (Z.leb_spec 0 (0 + F)); [| lia].
  f_equal. rewrite Z.add_0_l. lia.
Qed.

Lemma mul_pow2_int (z F : Z) :
  Z.abs z < 2 ^ 53 -> 0 <= F <= 971 ->
  JS.mul (NInt z) (NInt (2 ^ F)) = NInt (z * 2 ^ F).
Proof.
  intros Hz HF. rewrite mul_int.
  rewrite round_to_double_scaled by (try assumption; lia).
  unfold JS.dyadic. destruct (Z.leb_spec 0 (0 + F)); [| lia].
  now rewrite Z.add_0_l.
Qed.

Lemma mul_pow2_frac (m : Z) (k : positive) (F : Z) :
  JS.is_double (NFrac m k) -> 0 <= F <= 971 ->
  JS.mul (NFrac m k) (NInt (2 ^ F)) = JS.dyadic m (F - Z.pos k).
Proof.
  intros (Ho & Hm & Hk) HF. unfold JS.mul. cbn [JS.to_dyadic].
  rewrite round_to_double_scaled by (try assumption; lia).
  f_equal. lia.
Qed.

Lemma round_scaled_fraction (m : Z) (k : positive) (F : Z) :
  Z.odd m = true -> 0 <= F ->
  JS.round (JS.dyadic m (F - Z.pos k))
    = NInt (round_half_up (m * 2 ^ F) (2 ^ Z.pos k)).
Proof.
  intros Ho HF. pose proof (pow2_pos F HF) as PF.
  destruct (Z.le_gt_cases (Z.pos k) F) as [Hle | Hgt].
  - unfold JS.dyadic. destruct (Z.leb_spec 0 (F - Z.pos k)); [| lia].
    cbn [JS.round]. f_equal.
    replace (m * 2 ^ F) with (m * 2 ^ (F - Z.pos k) * 2 ^ Z.pos k)
      by (rewrite <- Z.mul_assoc, <- Z.pow_add_r by lia; do 2 f_equal; lia).
    rewrite round_half_up_exact; [reflexivity | apply pow2_pos; lia].
  - replace (F - Z.pos k) with (- (Z.pos k - F)) by lia.
    rewrite dyadic_odd by (assumption || lia).
    cbn [JS.round]. f_equal. rewrite Z2Pos.id by lia.
    set (d := Z.pos k - F).
    assert (Pd : 0 < 2 ^ (d - 1)) by (apply pow2_pos; lia).
    assert (Ed : 2 ^ d = 2 * 2 ^ (d - 1)).
    { replace d with (Z.succ (d - 1)) at 1 by lia.
      rewrite Z.pow_succ_r by lia. reflexivity. }
    assert (Ek : 2 ^ Z.pos k = 2 ^ d * 2 ^ F)
      by (rewrite <- Z.pow_add_r by lia; f_equal; lia).
    unfold round_half_up. rewrite Ek.
    replace (2 * (m * 2 ^ F) + 2 ^ d * 2 ^ F)
      with ((2 * m + 2 ^ d) * 2 ^ F) by lia.
    replace (2 * (2 ^ d * 2 ^ F)) with (2 * 2 ^ d * 2 ^ F) by lia.
    rewrite Z.div_mul_cancel_r by lia.
    replace (2 * m + 2 ^ d) with (2 * (m + 2 ^ (d - 1))) by lia.
    rewrite Z.div_mul_cancel_l by lia. reflexivity.
Qed.

Lemma fromFloat_rejects (T : Z) (f p : number) :
  JS.isFinite f = false ->
  throws (wrapNumber T (JS.round (JS.mul f p))) /\
  throws (b <- JS.BigInt (JS.round (JS.mul f p)) ;; Return (wrapBigInt T b)).
Proof.
  intros Hf.
  assert (H : JS.isFinite (JS.round (JS.mul f p)) = false).
  { destruct f as [z | m k | sg |]; try discriminate Hf.
    - unfold JS.mul. cbn [JS.to_dyadic].
      destruct p; cbn [JS.to_dyadic];
        try (destruct (_ || _)%bool); reflexivity.
    - unfold JS.mul. cbn [JS.to_dyadic].
      now destruct p. }
  destruct (JS.round (JS.mul f p)) as [z | m k | sg |]; try discriminate H.
  - split; eexists; reflexivity.
  - split; eexists; reflexivity.
Qed.

Lemma Big_fromFloat_laws (F T tp ph : Z) (l : list Z) (L : Z) :
  valid_format F T -> fromFloat_laws Z (fun z => z) (Big.ops F T tp ph l L).
Proof.
  intros [HF HT].
  unfold fromFloat_laws.
  cbn [FP.fromFloat FP.TOTAL_BITS FP.FRACTION_BITS Big.ops].
  intros HF971. unfold Big.fromFloat.
  rewrite Big_ONE, Number_pow2 by lia.
  split; [| split].
  - intros z Hz. now rewrite mul_pow2_int by (assumption || lia).
  - intros m k Hd. rewrite mul_pow2_frac by (assumption || lia).
    rewrite round_scaled_fraction by (apply Hd || lia). reflexivity.
  - intros f Hf. apply (fromFloat_rejects T f (NInt (2 ^ F)) Hf).
Qed.

Lemma Num_fromFloat_laws (F T : Z) (tp ph : number) (l : list number)
      (L : number) :
  valid_format F T -> T <= 32 ->
  fromFloat_laws number NInt (Num.ops F T tp ph l L).
Proof.
  intros [HF HT] HT32.
  unfold fromFloat_laws.
  cbn [FP.fromFloat FP.TOTAL_BITS FP.FRACTION_BITS Num.ops].
  intros _. unfold Num.fromFloat. rewrite Num_ONE by lia.
  split; [| split].
  - intros z Hz. rewrite mul_pow2_int by (assumption || lia).
    cbn [JS.round]. apply wrapNumber_int. lia.
  - intros m k Hd. rewrite mul_pow2_frac by (assumption || lia).
    rewrite round_scaled_fraction by (apply Hd || lia).
    apply wrapNumber_int. lia.
  - intros f Hf. apply (fromFloat_rejects T f (NInt (2 ^ F)) Hf).
Qed.

(** X24. [fromFloat] of every operation set [createFixedPoint] returns
    (with [fractionBits <= 971], which every number-backed set meets).  An
    integer double below [2^53] is multiplied by [ONE]; a fractional
    double [m / 2^k] becomes the integer nearest to [m * ONE / 2^k], a tie
    going up, toward plus infinity; either is then wrapped into the word,
    never rejected for being out of range.  Infinities and NaN throw. *)
Theorem fromFloat_rounds_half_up (lut : list Z) (cfg : FixedPointConfig)
        (r : AnyOps) :
  createFixedPoint lut cfg = Return r -> holds_for r fromFloat_laws.
Proof.
  apply for_every_format.
  - intros. now apply Big_fromFloat_laws.
  - intros. now apply Num_fromFloat_laws.
Qed.

Lemma fromFloat_rounds_half_up_witness :
  createFixedPoint sample_lut default_config
    = Return (NumberOps (number_ops 16 32)) /\
  FP.FRACTION_BITS (number_ops 16 32) <= 971 /\
  JS.is_double (NFrac (-1) 17) /\
  FP.fromFloat (number_ops 16 32) (NFrac (-1) 17) = Return (NInt 0) /\
  JS.is_double (NFrac 1 17) /\
  FP.fromFloat (number_ops 16 32) (NFrac 1 17) = Return (NInt 1).
Proof.
  assert (C : createFixedPoint sample_lut default_config
              = Return (NumberOps (number_ops 16 32))) by reflexivity.
  assert (B : FP.FRACTION_BITS (number_ops 16 32) <= 971)
    by (cbn; lia).
  assert (D1 : JS.is_double (NFrac (-1) 17))
    by (cbn; repeat split; lia).
  assert (D2 : JS.is_double (NFrac 1 17))
    by (cbn; repeat split; lia).
  pose proof (proj1 (proj2 (fromFloat_rounds_half_up sample_lut
                              default_config
                              (NumberOps (number_ops 16 32)) C B))) as H.
  split; [exact C |]. split; [exact B |]. split; [exact D1 |].
  split; [exact (H (-1) 17%positive D1) |]. split; [exact D2 |].
  exact (H 1 17%positive D2).
Defined.

Lemma strip_aux_to_dyadic (fuel : nat) :
  forall m k, 0 <= k -> (Z.to_nat k < fuel)%nat ->
  exists m' e',
    JS.to_dyadic (JS.strip_aux fuel m k) = Some (m', e') /\
    - k <= e' <= 0 /\ m = m' * 2 ^ (e' + k).
Proof.
  induction fuel as [| f IH]; intros m k Hk Hf; [lia |].
  cbn [JS.strip_aux].
  destruct (Z.leb_spec k 0) as [H0 | H0].
  - exists m, 0. assert (k = 0) by lia. subst k.
    repeat split; try lia; change (2 ^ (0 + 0)) with 1; lia.
  - destruct (Z.even m) eqn:Ev.
    + destruct (IH (m / 2) (k - 1) ltac:(lia) ltac:(lia))
        as (m' & e' & Hd & He & Hm).
      exists m', e'. split; [exact Hd |]. split; [lia |].
      apply Z.even_spec in Ev. destruct Ev as [h ->].
      rewrite Z.mul_comm, Z.div_mul in Hm by lia.
      replace (e' + k) with (Z.succ (e' + (k - 1))) by lia.
      rewrite Z.pow_succ_r by lia. lia.
    + exists m, (- k). cbn [JS.to_dyadic]. rewrite Z2Pos.id by lia.
      repeat split; try lia;
        replace (- k + k) with 0 by lia; change (2 ^ 0) with 1; lia.
Qed.

Lemma dyadic_to_dyadic (a k : Z) :
  0 <= k ->
  exists m' e',
    JS.to_dyadic (JS.dyadic a (- k)) = Some (m', e') /\
    - k <= e' <= 0 /\ a = m' * 2 ^ (e' + k).
Proof.
  intros Hk. unfold JS.dyadic.
  destruct (Z.leb_spec 0 (- k)) as [H0 | H0].
  - assert (k = 0) by lia. subst k. exists a, 0.
    change (- 0) with 0. change (2 ^ 0) with 1.
    change (2 ^ (0 + 0)) with 1. rewrite Z.mul_1_r.
    repeat split; lia.
  - destruct (Z.eqb_spec a 0) as [-> | Ha].
    + exists 0, 0. repeat split; lia.
    + rewrite Z.opp_involutive. apply strip_aux_to_dyadic; lia.
Qed.

(** Multiplying [a / 2^F] back by [2^F] is exact. *)
Lemma mul_dyadic_pow2 (a F : Z) :
  Z.abs a < 2 ^ 53 -> 0 <= F <= 971 ->
  JS.mul (JS.dyadic a (- F)) (NInt (2 ^ F)) = NInt a.
Proof.
  intros Ha HF.
  destruct (dyadic_to_dyadic a F ltac:(lia)) as (m' & e' & Hd & He & Hm).
  assert (Hfin : forall x p, JS.to_dyadic x = Some (m', e') ->
            JS.mul x (NInt p) = JS.round_to_double (m' * p) (e' + 0)).
  { intros x p Hx. unfold JS.mul. rewrite Hx. reflexivity. }
  rewrite (Hfin _ _ Hd), Z.add_0_r.
  pose proof (pow2_pos (e' + F) ltac:(lia)) as P.
  assert (Hm' : Z.abs m' < 2 ^ 53).
  { assert (Z.abs a = Z.abs m' * 2 ^ (e' + F))
      by (rewrite Hm, Z.abs_mul, (Z.abs_eq (2 ^ (e' + F))) by lia;
          reflexivity).
    pose proof (Z.abs_nonneg m'). nia. }
  rewrite round_to_double_scaled by (try assumption; lia).
  unfold JS.dyadic. destruct (Z.leb_spec 0 (e' + F)); [| lia].
  now rewrite <- Hm.
Qed.

(** X25. [toFloat] on a format of at most 53 bits is exact: it returns
    the double [a / 2^fractionBits], without rounding, and [fromFloat]
    takes that double back to [a].  This holds of the BigInt backing, and
    of the number backing on the formats it is offered at. *)
Theorem toFloat_exact_and_inverted_by_fromFloat (F T a : Z) :
  valid_format F T -> T <= 53 -> in_range T a ->
  (Big.toFloat F a = JS.dyadic a (- F) /\
   Big.fromFloat F T (Big.toFloat F a) = Return a) /\
  (T <= 32 ->
   Num.toFloat F (NInt a) = JS.dyadic a (- F) /\
   Num.fromFloat F T (Num.toFloat F (NInt a)) = Return (NInt a)).
Proof.
  intros [HF HT] HT53 Ha.
  assert (H53 : Z.abs a < 2 ^ 53).
  { destruct Ha as [Lo Hi].
    assert (2 ^ (T - 1) <= 2 ^ 52) by (apply Z.pow_le_mono_r; lia).
    change (2 ^ 52) with 4503599627370496 in *.
    change (2 ^ 53) with 9007199254740992. lia. }
  assert (D : JS.div_pow2 (NInt a) F = JS.dyadic a (- F)).
  { cbn [JS.div_pow2]. replace a with (a * 2 ^ 0) at 1
      by (change (2 ^ 0) with 1; lia).
    rewrite round_to_double_scaled by (try assumption; lia).
    f_equal. lia. }
  assert (B : Big.toFloat F a = JS.dyadic a (- F)).
  { unfold Big.toFloat. rewrite Number_exact by assumption.
    destruct (Z.leb_spec F 1023); [exact D | lia]. }
  split.
  - split; [exact B |]. rewrite B. unfold Big.fromFloat.
    rewrite Big_ONE, Number_pow2 by lia.
    rewrite mul_dyadic_pow2 by (assumption || lia).
    cbn [JS.round JS.BigInt bind].
    now rewrite wrapBigInt_id by (assumption || lia).
  - intros HT32. unfold Num.toFloat. split; [exact D |]. rewrite D.
    unfold Num.fromFloat. rewrite Num_ONE by lia.
    rewrite mul_dyadic_pow2 by (assumption || lia).
    cbn [JS.round]. rewrite wrapNumber_int by lia.
    now rewrite wrapBigInt_id by (assumption || lia).
Qed.

Lemma toFloat_exact_and_inverted_by_fromFloat_witness :
  valid_format 16 32 /\ 32 <= 53 /\ in_range 32 (-98305) /\
  Num.toFloat 16 (NInt (-98305)) = NFrac (-98305) 16 /\
  Num.fromFloat 16 32 (Num.toFloat 16 (NInt (-98305)))
    = Return (NInt (-98305)).
Proof.
  assert (V : valid_format 16 32) by (unfold valid_format; lia).
  assert (B : 32 <= 53) by lia.
  assert (R : in_range 32 (-98305)) by (unfold in_range; simpl; lia).
  repeat (split; [assumption |]).
  exact (proj2 (toFloat_exact_and_inverted_by_fromFloat 16 32 (-98305)
                  V B R) ltac:(lia)).
Defined.

(* ------------------------------------------------------------------ *)
(** ** Operands that are not integers, and the rescaling of constants *)

(** X26. Every number-backed operation set [createFixedPoint] returns
    checks the operands of [add], [sub], [mul], [div], [mod], [negate],
    [abs], [sqrt], [sin] and [fromInt] first: an operand that is not a
    finite integer makes the operation throw the error naming that operand
    ([a], [b], [theta] or [n]), the first operand being checked first, and
    before the test for a zero divisor. *)
Theorem number_operations_validate_operands
        (lut : list Z) (cfg : FixedPointConfig) (o : FP.FixedPointOps number) :
  createFixedPoint lut cfg = Return (NumberOps o) -> validates_operands o.
Proof.
  intros H. apply createFixedPoint_number in H.
  destruct H as (F & T & l & _ & _ & _ & _ & ->).
  intros x y Hx.
  cbn [FP.add FP.sub FP.mul FP.div FP.mod_ FP.negate FP.abs FP.sqrt FP.sin
       FP.fromInt Num.ops].
  unfold Num.add, Num.sub, Num.mul, Num.div, Num.mod_, Num.negate, Num.abs,
    Num.sqrt, Num.sin, Num.sin_index, Num.fromInt, assertInteger,
    operand_error.
  rewrite Hx, Bool.orb_true_r. cbn [bind pbind].
  split; [repeat split |]. split; [repeat split |].
  intros Hy. rewrite Hy.
  destruct y as [z | | |]; try discriminate Hy.
  cbn [JS.isFinite negb orb bind]. repeat split.
Qed.

Lemma number_operations_validate_operands_witness :
  createFixedPoint sample_lut default_config
    = Return (NumberOps (number_ops 16 32)) /\
  JS.isInteger (NFrac 3 1) = false /\
  FP.div (number_ops 16 32) (NFrac 3 1) (NInt 0) = operand_error "a" /\
  FP.mul (number_ops 16 32) (NInt 65536) (NFrac 3 1) = operand_error "b".
Proof.
  assert (C : createFixedPoint sample_lut default_config
              = Return (NumberOps (number_ops 16 32))) by reflexivity.
  assert (N : JS.isInteger (NFrac 3 1) = false) by reflexivity.
  split; [exact C |]. split; [exact N |].
  pose proof (number_operations_validate_operands sample_lut default_config
                (number_ops 16 32) C) as H.
  split.
  - destruct (H (NFrac 3 1) (NInt 0) N) as ((_ & _ & _ & D & _) & _).
    exact D.
  - destruct (H (NFrac 3 1) (NInt 65536) N) as (_ & _ & K).
    destruct (K eq_refl) as (_ & _ & M & _). exact M.
Defined.

Lemma scaled_floor (F T v : Z) :
  0 < F -> scaled F T v = wrapBigInt T (v * 2 ^ F / 2 ^ 16).
Proof.
  intros HF. unfold scaled, DEFAULT_FRACTION_BITS. f_equal.
  destruct (Z.ltb_spec 0 (F - 16)) as [Hd | Hd].
  - destruct (Z.ltb_spec (F - 16) 0); [lia |].
    rewrite Z.shiftl_mul_pow2 by lia.
    replace (2 ^ F) with (2 ^ (F - 16) * 2 ^ 16)
      by (rewrite <- Z.pow_add_r by lia; f_equal; lia).
    rewrite Z.mul_assoc, Z.div_mul by lia. reflexivity.
  - destruct (Z.ltb_spec (F - 16) 0) as [Hn | Hn].
    + rewrite Z.shiftr_div_pow2 by lia.
      replace (2 ^ 16) with (2 ^ (- (F - 16)) * 2 ^ F)
        by (rewrite <- Z.pow_add_r by lia; f_equal; lia).
      rewrite Z.div_mul_cancel_r; [reflexivity | |];
        apply Z.pow_nonzero; lia.
    + replace F with 16 by lia. rewrite Z.div_mul by lia. reflexivity.
Qed.

(** X27. [scaleQ16] takes a Q16 constant [v] to the format: it returns
    [v * 2^fractionBits / 2^16] rounded toward minus infinity (exact when
    [fractionBits >= 16]) and wrapped into the word.  The BigInt variant
    does so for every integer, the number variant on the formats it is
    used at for [|v| < 2^38], with the same result; neither accepts a
    number that is not an integer. *)
Theorem scaleQ16_rescales_and_floors (F T v : Z) :
  valid_format F T ->
  scaleQ16_bigint F T (NInt v)
    = Return (wrapBigInt T (v * 2 ^ F / 2 ^ 16)) /\
  (T <= 32 -> Z.abs v < 2 ^ 38 ->
   scaleQ16_number F T (NInt v)
     = Return (NInt (wrapBigInt T (v * 2 ^ F / 2 ^ 16)))) /\
  (forall x, JS.isInteger x = false ->
     throws (scaleQ16_bigint F T x) /\ throws (scaleQ16_number F T x)).
Proof.
  intros HV. pose proof HV as [HF HT]. split; [| split].
  - rewrite scaleQ16_bigint_int. f_equal. now apply scaled_floor.
  - intros HT32 Hv. rewrite scaleQ16_number_small by assumption.
    do 2 f_equal. now apply scaled_floor.
  - intros x Hx. unfold scaleQ16_bigint, scaleQ16_number, wrapNumber.
    destruct x as [z | m k | sg |]; try discriminate Hx;
      cbn [JS.BigInt bind JS.isFinite JS.isInteger negb orb];
      (split; [eexists; reflexivity |]);
      destruct (0 <? F - DEFAULT_FRACTION_BITS);
      destruct (F - DEFAULT_FRACTION_BITS <? 0);
      cbn [bind JS.isFinite JS.isInteger negb orb];
      eexists; reflexivity.
Qed.

Lemma scaleQ16_rescales_and_floors_witness :
  valid_format 8 16 /\ 16 <= 32 /\ Z.abs (-3) < 2 ^ 38 /\
  scaleQ16_bigint 8 16 (NInt (-3)) = Return (-1) /\
  scaleQ16_number 8 16 (NInt (-3)) = Return (NInt (-1)).
Proof.
  assert (V : valid_format 8 16) by (unfold valid_format; lia).
  assert (B : 16 <= 32) by lia.
  assert (S : Z.abs (-3) < 2 ^ 38) by reflexivity.
  repeat (split; [assumption |]).
  destruct (scaleQ16_rescales_and_floors 8 16 (-3) V) as (H1 & H2 & _).
  split; [exact H1 | exact (H2 B S)].
Defined.

(* ------------------------------------------------------------------ *)
(** ** The range invariant, and where [sin] leaves it *)

Lemma array_get_In {A : Type} (l : list A) (i : number) (v : A) :
  array_get l i = Some v -> In v l.
Proof.
  unfold array_get. destruct i as [z | | |]; try discriminate.
  destruct (z <? 0); [discriminate |]. apply nth_error_In.
Qed.

Lemma Big_sin_sample (tp L : Z) (l : list Z) (x v : Z) :
  Big.sin tp l L x = Return (Some v) -> In v l.
Proof.
  unfold Big.sin. destruct (Big.sin_index tp L x) as [idx | e];
    [| discriminate]. cbn [bind].
  destruct (bigint_rem idx L) as [i | e]; [| discriminate]. cbn [bind].
  intros H. injection H as H. now apply array_get_In in H.
Qed.

Lemma Num_sin_sample (tp L : number) (l : list number) (x v : number) :
  Num.sin tp l L x = Return (Some v) -> In v l.
Proof.
  unfold Num.sin. destruct (Num.sin_index tp L x) as [idx | e];
    [| discriminate]. cbn [bind].
  intros H. injection H as H. now apply array_get_In in H.
Qed.

Lemma Big_trig_samples (F T tp ph : Z) (l : list Z) (L : Z) :
  Forall (in_range T) l ->
  trig_samples_in_range (fun z => z) (Big.ops F T tp ph l L).
Proof.
  intros Hall x v H. unfold stored_in_range.
  cbn [FP.sin FP.cos FP.TOTAL_BITS Big.ops] in *.
  rewrite Forall_forall in Hall. exists v. split; [reflexivity |].
  apply Hall. destruct H as [H | H].
  - now apply Big_sin_sample in H.
  - unfold Big.cos in H. now apply Big_sin_sample in H.
Qed.

Lemma Num_trig_samples (F T : Z) (tp ph : number) (l : list Z) (L : number) :
  Forall (in_range T) l ->
  trig_samples_in_range NInt (Num.ops F T tp ph (map NInt l) L).
Proof.
  intros Hall x v H. unfold stored_in_range.
  cbn [FP.sin FP.cos FP.TOTAL_BITS Num.ops] in *.
  rewrite Forall_forall in Hall.
  assert (Hin : In v (map NInt l)).
  { destruct H as [H | H].
    - now apply Num_sin_sample in H.
    - unfold Num.cos in H.
      destruct (wrapNumber T (JS.add x ph)) as [w | e]; [| discriminate H].
      cbn [bind] in H. now apply Num_sin_sample in H. }
  apply in_map_iff in Hin. destruct Hin as (z & <- & Hz).
  exists z. split; [reflexivity | now apply Hall].
Qed.

(** X28. The range invariant of what is returned.  For every accepted
    format, under either backing: [fromInt], [fromFloat] and [fromString]
    yield a value of [[MIN, MAX]] whenever they return; on operands of
    [[MIN, MAX]], [toInt], [add], [sub], [negate], [abs], [mul], [div] and
    [mod] by a non-zero divisor, and [sqrt] of a non-negative value return a
    value of [[MIN, MAX]]; and every sample [sin] or [cos] returns, on any
    operand and over any table, is a value of [[MIN, MAX]]. *)
Theorem range_invariant_of_returned_values
        (lut : list Z) (cfg : FixedPointConfig) (r : AnyOps) :
  createFixedPoint lut cfg = Return r -> holds_for r (@range_invariant_laws).
Proof.
  apply for_every_format_and_table.
  - intros F T HV. split; [now apply Big_range_closed |].
    apply Big_trig_samples. apply Forall_forall. intros v Hv.
    apply in_map_iff in Hv. destruct Hv as (q & <- & _).
    apply scaled_range. destruct HV. lia.
  - intros F T l HV HT32 Hall Hlen. split; [now apply Num_range_closed |].
    now apply Num_trig_samples.
Qed.

Lemma range_invariant_of_returned_values_witness :
  createFixedPoint sample_lut (config 16 19 false)
    = Return (NumberOps (number_ops 16 19)) /\
  range_invariant_laws NInt (number_ops 16 19).
Proof.
  split; [reflexivity |].
  exact (range_invariant_of_returned_values sample_lut (config 16 19 false)
           (NumberOps (number_ops 16 19)) eq_refl).
Defined.

(** The operation sets of the 19-bit format with 16 fraction bits: the
    rescaled [TWO_PI] is [411775 - 2^19 = -112513]. *)
Lemma createFixedPoint_16_19 (lut : list Z) (big : bool) (r : AnyOps) :
  createFixedPoint lut (config 16 19 big) = Return r ->
  match r with
  | BigIntOps o =>
      o = Big.ops 16 19 (-112513) (scaled 16 19 PI_HALF_Q16)
            (map (scaled 16 19) lut) (Z.of_nat (List.length lut))
  | NumberOps o =>
      exists l, List.length l = List.length lut /\
        o = Num.ops 16 19 (NInt (-112513)) (NInt (scaled 16 19 PI_HALF_Q16))
              (map NInt l) (NInt (Z.of_nat (List.length lut)))
  end.
Proof.
  intros H.
  rewrite (createFixedPoint_on_integers lut (config 16 19 big) 16 19
             eq_refl eq_refl) in H.
  change (16 <=? 0) with false in H. change (19 <=? 16) with false in H.
  change (19 >? 32) with false in H. rewrite Bool.andb_false_r in H.
  cbv iota in H. cbn [config useBigInt orElse] in H.
  destruct big.
  - inversion H. reflexivity.
  - assert (HV : valid_format 16 19) by (unfold valid_format; lia).
    rewrite !scaleQ16_number_small in H
      by (try assumption; try lia;
          unfold TWO_PI_Q16, PI_HALF_Q16; reflexivity).
    cbn [bind] in H.
    destruct (mapM (scaleQ16_number 16 19) (map NInt lut))
      as [sinLut | e] eqn:E; [| discriminate H].
    cbn [bind] in H. inversion H; subst r; clear H.
    apply (mapM_inv _ (fun y => exists w, y = NInt w /\ in_range 19 w)) in E.
    2:{ intros a b Hab. destruct a as [v | | |];
          try (unfold scaleQ16_number in Hab; simpl in Hab;
               discriminate Hab).
        eapply scaleQ16_number_inv; [| exact Hab]. lia. }
    destruct E as [Hall Hlen]. rewrite length_map in Hlen.
    destruct (Forall_NInt _ _ Hall) as (l & -> & _).
    rewrite length_map in Hlen. exists l. split; [exact Hlen | reflexivity].
Qed.

(** C4, failing input.  The 19-bit format with 16 fraction bits is
    accepted, under either backing and over every table; 112512 is one of
    its values; and over every table of two samples or more [sin(112512)]
    returns [undefined], which is no value of [[MIN, MAX]]: the rescaled
    [TWO_PI] has wrapped to [-112513], the index is negative and the lookup
    misses the table. *)
Theorem sin_returns_undefined_in_accepted_format
        (lut : list Z) (big : bool) (r : AnyOps) :
  (2 <= List.length lut)%nat -> array_sized lut ->
  createFixedPoint lut (config 16 19 big) = Return r ->
  returns (createFixedPoint lut (config 16 19 true)) /\
  in_range 19 112512 /\
  match r with
  | NumberOps o =>
      FP.FRACTION_BITS o = 16 /\ FP.TOTAL_BITS o = 19 /\
      FP.sin o (NInt 112512) = Return None
  | BigIntOps o =>
      FP.FRACTION_BITS o = 16 /\ FP.TOTAL_BITS o = 19 /\
      FP.sin o 112512 = Return None
  end.
Proof.
  intros Hlen Hsz H.
  split.
  { rewrite createFixedPoint_accepts_bigint
      by (unfold valid_format; lia).
    eexists; reflexivity. }
  split; [unfold in_range; simpl; lia |].
  apply createFixedPoint_16_19 in H. destruct r as [o | o].
  - destruct H as (l & Hl & ->).
    cbn [FP.FRACTION_BITS FP.TOTAL_BITS FP.sin Num.ops].
    split; [reflexivity |]. split; [reflexivity |].
    assert (HL : 0 < Z.of_nat (List.length lut) < 2 ^ 32)
      by (split; [lia | exact Hsz]).
    rewrite <- Hl in *.
    pose proof (sin_agree (-112513) (Z.of_nat (List.length l)) l 112512
                  ltac:(simpl; lia) HL) as Ag.
    assert (Hsl : array_sized l) by (unfold array_sized; lia).
    pose proof (Big_sin_undefined_16_19 l Hlen Hsl) as B.
    change (scaled 16 19 TWO_PI_Q16) with (-112513) in B.
    rewrite B in Ag.
    destruct (Num.sin _ _ _ _) as [[v |] | e];
      [contradiction | reflexivity | contradiction].
  - subst o. cbn [FP.FRACTION_BITS FP.TOTAL_BITS FP.sin Big.ops].
    split; [reflexivity |]. split; [reflexivity |].
    rewrite <- (length_map (scaled 16 19) lut).
    apply Big_sin_undefined_16_19.
    + rewrite length_map. exact Hlen.
    + unfold array_sized. rewrite length_map. exact Hsz.
Qed.

Lemma sin_returns_undefined_in_accepted_format_witness :
  (2 <= List.length sample_lut)%nat /\ array_sized sample_lut /\
  createFixedPoint sample_lut (config 16 19 false)
    = Return (NumberOps (number_ops 16 19)) /\
  in_range 19 112512 /\
  FP.sin (number_ops 16 19) (NInt 112512) = Return None.
Proof.
  assert (N : (2 <= List.length sample_lut)%nat) by (simpl; lia).
  assert (S : array_sized sample_lut) by reflexivity.
  assert (C : createFixedPoint sample_lut (config 16 19 false)
              = Return (NumberOps (number_ops 16 19))) by reflexivity.
  split; [exact N |]. split; [exact S |]. split; [exact C |].
  destruct (sin_returns_undefined_in_accepted_format sample_lut false
              (NumberOps (number_ops 16 19)) N S C) as (_ & R & _ & _ & E).
  split; [exact R | exact E].
Defined.
